(** * Octahedral impostors: geometry builder, sampling cache, atlas baker

    A shallow embedding of [src/utils/octahedralHelper.js] (geometry builder
    and sampling cache), of the bake loop of [src/hooks/useOctahedralAtlas.js]
    and of the per-frame update of [src/OctahedralImpostor.jsx].

    Number model.  Loop counters, grid sizes and vertex indices are
    mathematical integers ([Z]).  Coordinates, UVs and weights, which the
    source holds in IEEE doubles, are real numbers ([R]): every arithmetic
    operator is the exact one, so rounding is abstracted away.  The one place
    where the source relies on the special values of IEEE arithmetic for
    integers (the checkerboard key of [octPlaneIndices], which divides by
    zero for one-cell grids) is modelled with [jsnum], which has NaN and the
    infinities. *)

From stdpp Require Import base list strings pretty gmap.
From Stdlib Require Import ZArith QArith Qround Reals Lra Lia.

Close Scope Q_scope.

(** ** JavaScript numbers with the special values *)

Module JsNum.
Local Open Scope Q_scope.

(** A double that is a rational number, an infinity or NaN.  Signed zeros
    are not distinguished: the operands below are loop counters and floors
    of non-negative numbers, for which every zero is [+0]. *)
Inductive jsnum : Type :=
  | JFin (q : Q)
  | JInf (negative : bool)
  | JNaN.

Definition of_Z (z : Z) : jsnum := JFin (inject_Z z).

Definition Qneg (q : Q) : bool := (Qnum q <? 0)%Z.
Definition Qzero (q : Q) : bool := (Qnum q =? 0)%Z.

(** Rounding towards zero. *)
Definition Qtrunc (q : Q) : Z := Z.quot (Qnum q) (Z.pos (Qden q)).

(** [a * b] *)
Definition js_mul (a b : jsnum) : jsnum :=
  match a, b with
  | JNaN, _ | _, JNaN => JNaN
  | JFin x, JFin y => JFin (x * y)
  | JInf s, JFin y | JFin y, JInf s =>
      if Qzero y then JNaN else JInf (xorb s (Qneg y))
  | JInf s, JInf t => JInf (xorb s t)
  end.

(** [a / b]: [0 / 0] is NaN, [x / 0] is an infinity of the sign of [x]. *)
Definition js_div (a b : jsnum) : jsnum :=
  match a, b with
  | JNaN, _ | _, JNaN => JNaN
  | JFin x, JFin y =>
      if Qzero y then (if Qzero x then JNaN else JInf (Qneg x))
      else JFin (x / y)
  | JFin _, JInf _ => JFin 0
  | JInf s, JFin y => JInf (xorb s (Qneg y))
  | JInf _, JInf _ => JNaN
  end.

(** [a + b] *)
Definition js_add (a b : jsnum) : jsnum :=
  match a, b with
  | JNaN, _ | _, JNaN => JNaN
  | JFin x, JFin y => JFin (x + y)
  | JInf s, JFin _ | JFin _, JInf s => JInf s
  | JInf s, JInf t => if Bool.eqb s t then JInf s else JNaN
  end.

(** [Math.floor(a)] *)
Definition js_floor (a : jsnum) : jsnum :=
  match a with
  | JFin x => JFin (inject_Z (Qfloor x))
  | other => other
  end.

(** [a % b]: the remainder has the sign of the dividend; NaN when the
    dividend is not finite or the divisor is zero. *)
Definition js_rem (a b : jsnum) : jsnum :=
  match a, b with
  | JNaN, _ | _, JNaN => JNaN
  | JInf _, _ => JNaN
  | JFin x, JInf _ => JFin x
  | JFin x, JFin y =>
      if Qzero y then JNaN
      else JFin (x - y * inject_Z (Qtrunc (x / y)))
  end.

(** [a === b] on numbers: NaN is equal to nothing, itself included. *)
Definition js_strict_eq (a b : jsnum) : bool :=
  match a, b with
  | JFin x, JFin y => Qeq_bool x y
  | JInf s, JInf t => Bool.eqb s t
  | _, _ => false
  end.

End JsNum.

Import JsNum.

(** ** Octahedron types *)

(** [OCT_TYPE = { HEMI: 0, FULL: 1 }]; an octahedron type is the number the
    caller passes, which may be neither. *)
Definition HEMI : Z := 0.
Definition FULL : Z := 1.

(** [for (let i = 0; i < n; i++)]: the values the counter takes, none when
    [n <= 0]. *)
Definition upto (n : Z) : list Z := seqZ 0 n.

(** ** The planar grid *)

Section Grid.
Local Open Scope R_scope.

(** [createGrid(xCells, yCells, width, height, useCenter)]: the flat array
    [x0, 0, z0, x1, 0, z1, ...] of the lattice points, row by row.  Both
    loops run to their bound inclusive.  For [xCells = 0] or [yCells = 0]
    the source divides by zero and its coordinates are NaN, which [R] does
    not have; only the length of the array is meaningful then. *)
Definition createGrid (xCells yCells : Z) (width height : R)
    (useCenter : bool) : list R :=
  let xInc := width / IZR xCells in
  let yInc := height / IZR yCells in
  let ox := if useCenter then - width * 0.5 else 0 in
  let oz := if useCenter then - height * 0.5 else 0 in
  flat_map (fun yi : Z =>
    let z := IZR yi * yInc in
    flat_map (fun xi : Z =>
      let x := IZR xi * xInc in
      [x + ox; 0; z + oz]) (upto (xCells + 1)))
    (upto (yCells + 1)).

End Grid.

(** ** Triangle indices of the planar grid *)

(** The checkerboard key
    [(Math.floor(x / xHalf) + Math.floor(y / yHalf)) % 2]. *)
Definition alt_key (x y xHalf yHalf : jsnum) : jsnum :=
  js_rem (js_add (js_floor (js_div x xHalf)) (js_floor (js_div y yHalf)))
         (of_Z 2).

(** The six indices pushed for the cell at column [x] of row [y]. *)
Definition cellIndices (isFull : Z) (xLen : Z) (xHalf yHalf : jsnum)
    (y x : Z) : list Z :=
  let r0 := (xLen * y)%Z in
  let r1 := (xLen * (y + 1))%Z in
  let a := (r0 + x)%Z in
  let b := (r1 + x)%Z in
  let c := (r1 + x + 1)%Z in
  let d := (r0 + x + 1)%Z in
  let alt := alt_key (of_Z x) (of_Z y) xHalf yHalf in
  if js_strict_eq alt (of_Z isFull)
  then [a; b; c; c; d; a]        (* backward slash *)
  else [d; a; b; b; c; d].       (* forward slash *)

(** [octPlaneIndices(isFull, xCells, yCells)] *)
Definition octPlaneIndices (isFull xCells yCells : Z) : list Z :=
  let xLen := (xCells + 1)%Z in
  let xHalf := js_floor (js_mul (of_Z xCells) (JFin (1 # 2)%Q)) in
  let yHalf := js_floor (js_mul (of_Z yCells) (JFin (1 # 2)%Q)) in
  flat_map (fun y : Z =>
    flat_map (fun x : Z => cellIndices isFull xLen xHalf yHalf y x)
             (upto xCells))
    (upto yCells).

(** ** Folding the grid onto the octahedron *)

(** A [THREE.Vector3], also the shape of a direction [{x, y, z}] and of
    three consecutive entries of a point array. *)
Record vec3 : Type := Vec3 { vx : R; vy : R; vz : R }.

Section Fold.
Local Open Scope R_scope.

Definition radius : R := 0.5.

(** [Math.sign] *)
Definition sign (r : R) : R :=
  if Rlt_dec 0 r then 1 else if Rlt_dec r 0 then -1 else 0.

(** One step of the loop of [octHemi]: the plane point [(px, _, pz)] is
    replaced by its image on the hemi-octahedron, scaled to [radius].  The
    coordinates are real numbers; those of the source are doubles, a few
    1e-17 away (on the rim, where the height is zero here, the double can be
    a few 1e-17 below zero), so what is stated of the folded points leaves
    room for that rounding. *)
Definition hemiPoint (px pz : R) : vec3 :=
  let ox := px + 0.5 in
  let oy := pz + 0.5 in
  let x := ox - oy in
  let z := -1 + ox + oy in
  let y := 1 - Rabs x - Rabs z in
  let m := sqrt (x ^ 2 + y ^ 2 + z ^ 2) in
  Vec3 ((x / m) * radius) ((y / m) * radius) ((z / m) * radius).

(** [octHemi(ary)]: the array is rewritten in place three entries at a time;
    the function returns its final contents.  Every array the builder passes
    has a length that is a multiple of three; a shorter tail, for which the
    source would read past the end, is left as it is. *)
Fixpoint octHemi (ary : list R) : list R :=
  match ary with
  | px :: _ :: pz :: rest =>
      let q := hemiPoint px pz in
      vx q :: vy q :: vz q :: octHemi rest
  | tail => tail
  end.

(** One step of the loop of [octFull]. *)
Definition fullPoint (px pz : R) : vec3 :=
  let u := px * 2.0 in
  let v := pz * 2.0 in
  let y0 := 1 - Rabs u - Rabs v in
  let '(x, y, z) :=
    if Rlt_dec y0 0 then
      let x' := sign u * (1.0 - Rabs v) in
      let z' := sign v * (1.0 - Rabs u) in
      (x', 1 - Rabs x' - Rabs z', z')
    else (u, y0, v) in
  let m := sqrt (x ^ 2 + y ^ 2 + z ^ 2) in
  Vec3 ((x / m) * radius) ((y / m) * radius) ((z / m) * radius).

(** [octFull(ary)] *)
Fixpoint octFull (ary : list R) : list R :=
  match ary with
  | px :: _ :: pz :: rest =>
      let q := fullPoint px pz in
      vx q :: vy q :: vz q :: octFull rest
  | tail => tail
  end.

(** [toSphereNormal(ary)] *)
Fixpoint toSphereNormal (ary : list R) : list R :=
  match ary with
  | x :: y :: z :: rest =>
      let m := sqrt (x ^ 2 + y ^ 2 + z ^ 2) in
      [x / m; y / m; z / m] ++ toSphereNormal rest
  | tail => tail
  end.

End Fold.

(** ** The geometry builder *)

(** What a call does: it returns a value or throws an [Error] with a
    message. *)
Inductive outcome (A : Type) : Type :=
  | Returns (a : A)
  | Throws (message : string).
Arguments Returns {A} a.
Arguments Throws {A} message.

(** The [THREE.BufferGeometry] built for raycasting: its position and normal
    attributes and its index. *)
Record BufferGeometry : Type := {
  attribute_position : list R;
  attribute_normal : list R;
  index : list Z;
}.

Record OctahedralMesh : Type := {
  pntPlane : list R;
  pntOct : list R;
  indices : list Z;
  geometry : BufferGeometry;
}.

Definition packMesh (pntPlane pntOct : list R) (indices : list Z)
    : OctahedralMesh :=
  {| pntPlane := pntPlane;
     pntOct := pntOct;
     indices := indices;
     geometry := {| attribute_position := pntOct;
                    attribute_normal := toSphereNormal pntOct;
                    index := indices |} |}.

(** [buildOctahedralMesh(octType, gridSize)] *)
Definition buildOctahedralMesh (octType gridSize : Z)
    : outcome OctahedralMesh :=
  let pntPlane := createGrid gridSize gridSize 1 1 true in
  let indices := octPlaneIndices octType gridSize gridSize in
  if (octType =? HEMI)%Z then
    Returns (packMesh pntPlane (octHemi pntPlane) indices)
  else if (octType =? FULL)%Z then
    Returns (packMesh pntPlane (octFull pntPlane) indices)
  else
    Throws ("Unknown octahedron type: " +:+ pretty octType).

(** ** Direction encoding and barycentric weights *)

(** The [{u, v}] object returned by the encoder. *)
Record OctUV : Type := { u : R; v : R }.

(** The three corners [[ax, ay], [bx, by], [cx, cy]] of a UV triangle. *)
Definition uvTriangle : Type := (R * R) * (R * R) * (R * R).

Section Sampling.
Local Open Scope R_scope.

(** [encodeDirectionToOctUV(direction)], in real numbers.  In the doubles
    of the source the 1e-9 of the denominator is lost in a sum above about
    1e7, and the results are rounded; what is stated of the encoder either
    holds of the rounded values too or leaves 1e-9 for them. *)
Definition encodeDirectionToOctUV (direction : vec3) : OctUV :=
  let x := vx direction in
  let y := vy direction in
  let z := vz direction in
  let absX := Rabs x in
  let absY := Rabs y in
  let absZ := Rabs z in
  let invSum := 1 / (absX + absY + absZ + 1e-9) in
  let nx := x * invSum in
  let ny := y * invSum in
  let nz := z * invSum in
  let '(nx, nz) :=
    if Rlt_dec ny 0 then
      let signX := if Rge_dec nx 0 then 1 else -1 in
      let signZ := if Rge_dec nz 0 then 1 else -1 in
      let newX := (1 - Rabs nz) * signX in
      let newZ := (1 - Rabs nx) * signZ in
      (newX, newZ)
    else (nx, nz) in
  {| u := nx * 0.5 + 0.5; v := nz * 0.5 + 0.5 |}.

(** The denominator of the barycentric computation: the cross product of
    the two edges leaving the first corner. *)
Definition baryDenom (triangleUV : uvTriangle) : R :=
  let '((ax, ay), (bx, by_), (cx, cy)) := triangleUV in
  let v0x := bx - ax in
  let v0y := by_ - ay in
  let v1x := cx - ax in
  let v1y := cy - ay in
  v0x * v1y - v1x * v0y.

(** The clamped components [(clampedU, clampedV, clampedW)] computed when
    the triangle is not degenerate. *)
Definition baryClamped (px py : R) (triangleUV : uvTriangle) : R * R * R :=
  let '((ax, ay), (bx, by_), (cx, cy)) := triangleUV in
  let v0x := bx - ax in
  let v0y := by_ - ay in
  let v1x := cx - ax in
  let v1y := cy - ay in
  let v2x := px - ax in
  let v2y := py - ay in
  let denom := v0x * v1y - v1x * v0y in
  let invDenom := 1 / denom in
  let v := (v2x * v1y - v1x * v2y) * invDenom in
  let w := (v0x * v2y - v2x * v0y) * invDenom in
  let u := 1 - v - w in
  (Rmax u 0, Rmax v 0, Rmax w 0).

(** [computeBarycentric2D(px, py, triangleUV, target)]: the target vector is
    overwritten and returned, so the function is its new value. *)
Definition computeBarycentric2D (px py : R) (triangleUV : uvTriangle)
    (target : vec3) : vec3 :=
  let denom := baryDenom triangleUV in
  if Rlt_dec (Rabs denom) 1e-9 then
    Vec3 (1 / 3) (1 / 3) (1 / 3)
  else
    let '(clampedU, clampedV, clampedW) := baryClamped px py triangleUV in
    let sum := clampedU + clampedV + clampedW in
    if Rle_dec sum 0 then
      Vec3 (1 / 3) (1 / 3) (1 / 3)
    else
      Vec3 (clampedU / sum) (clampedV / sum) (clampedW / sum).

End Sampling.

(** ** The sampling cache *)

Record Triangle : Type := {
  tri_indices : Z * Z * Z;
  tri_uv : uvTriangle;
}.

Record Cell : Type := {
  isBackslash : bool;
  triangles : Triangle * Triangle;
}.

Record SamplingCache : Type := {
  cache_gridSize : Z;
  cache_octType : Z;
  cells : list Cell;
}.

(** [indexArray[i]]; the cursor of the cache builder stays inside the index
    array of a mesh (lemma [cursor_in_range] below), where this is the entry
    read.  Outside (where the source reads [undefined]) it is 0. *)
Definition readIndex (indexArray : list Z) (i : Z) : Z :=
  nth (Z.to_nat i) indexArray 0%Z.

Section CacheBuilder.
Local Open Scope R_scope.

(** The cell built from the six indices at [cursor]. *)
Definition buildCell (indexArray : list Z) (stride cursor : Z) : Cell :=
  let tri1 := (readIndex indexArray cursor,
               readIndex indexArray (cursor + 1),
               readIndex indexArray (cursor + 2)) in
  let tri2 := (readIndex indexArray (cursor + 3),
               readIndex indexArray (cursor + 4),
               readIndex indexArray (cursor + 5)) in
  let '(t0, t1, t2) := tri1 in
  let isBackslash := ((t1 - t0 =? stride) && (t2 - t1 =? 1))%Z in
  let triangles :=
    if isBackslash then
      ({| tri_indices := tri1; tri_uv := ((0, 0), (0, 1), (1, 1)) |},
       {| tri_indices := tri2; tri_uv := ((1, 1), (1, 0), (0, 0)) |})
    else
      ({| tri_indices := tri1; tri_uv := ((1, 0), (0, 0), (0, 1)) |},
       {| tri_indices := tri2; tri_uv := ((0, 1), (1, 1), (1, 0)) |}) in
  {| isBackslash := isBackslash; triangles := triangles |}.

End CacheBuilder.

(** The cells in the order the two loops assign them: the cell of
    [(row, col)] lands at [row * gridSize + col], which is its position in
    this list, and the cursor advances by six per cell. *)
Definition buildCells (indexArray : list Z) (gridSize : Z) : list Cell :=
  let stride := (gridSize + 1)%Z in
  flat_map (fun row : Z =>
    map (fun col : Z =>
      buildCell indexArray stride (6 * (row * gridSize + col))%Z)
      (upto gridSize))
    (upto gridSize).

(** The memo table [samplingCache], keyed by [`${octType}_${gridSize}`];
    the pair of the two numbers stands for the string. *)
Abbreviation memoTable := (gmap (Z * Z) (option SamplingCache)).

(** [buildSamplingCache(octType, gridSize)], also [getSamplingCache]: the
    result and the memo table afterwards.  The index of the geometry is
    always set by the builder, so the branch that stores [null] is not
    taken; a throw of the builder leaves the table as it was. *)
Definition buildSamplingCache (memo : memoTable) (octType gridSize : Z)
    : outcome (option SamplingCache) * memoTable :=
  let key := (octType, gridSize) in
  match memo !! key with
  | Some cached => (Returns cached, memo)
  | None =>
      match buildOctahedralMesh octType gridSize with
      | Throws e => (Throws e, memo)
      | Returns octahedralData =>
          let indexArray := index (geometry octahedralData) in
          let cache := {| cache_gridSize := gridSize;
                          cache_octType := octType;
                          cells := buildCells indexArray gridSize |} in
          (Returns (Some cache), <[key := Some cache]> memo)
      end
  end.

Definition getSamplingCache := buildSamplingCache.

Section Sample.
Local Open Scope R_scope.

(** [Math.floor] *)
Definition floor (r : R) : Z := Int_part r.

(** [Math.min(Math.max(i, 0), hi)] on integers. *)
Definition clampIndex (i hi : Z) : Z := Z.min (Z.max i 0) hi.

(** [Math.min(Math.max(r, 0), 0.999999)] *)
Definition clampLocal (r : R) : R := Rmin (Rmax r 0) 0.999999.

(** [cache.cells[i]]: [None] where the source reads [undefined]. *)
Definition readCell (cs : list Cell) (i : Z) : option Cell :=
  if (i <? 0)%Z then None else nth_error cs (Z.to_nat i).

(** [a > b] as a boolean. *)
Definition gtb (a b : R) : bool := if Rgt_dec a b then true else false.

(** The triangle of the cell that holds the local point. *)
Definition pickTriangle (cell : Cell) (localU localV : R) : Triangle :=
  if isBackslash cell && gtb localU localV then
    snd (triangles cell)
  else if negb (isBackslash cell) && gtb (localU + localV) 1 then
    snd (triangles cell)
  else fst (triangles cell).

(** [sampleOctahedralDirection({direction, cache, indicesTarget,
    weightsTarget})]: the boolean returned and the two target vectors
    afterwards, which are untouched when the function returns [false]. *)
Definition sampleOctahedralDirection (direction : vec3)
    (cache : option SamplingCache) (indicesTarget weightsTarget : vec3)
    : bool * vec3 * vec3 :=
  match cache with
  | None => (false, indicesTarget, weightsTarget)
  | Some cache =>
      let uv := encodeDirectionToOctUV direction in
      let gridSize := cache_gridSize cache in
      let scaledU := u uv * IZR gridSize in
      let scaledV := v uv * IZR gridSize in
      let col := clampIndex (floor scaledU) (gridSize - 1) in
      let row := clampIndex (floor scaledV) (gridSize - 1) in
      let localU := clampLocal (scaledU - IZR col) in
      let localV := clampLocal (scaledV - IZR row) in
      match readCell (cells cache) (row * gridSize + col) with
      | None => (false, indicesTarget, weightsTarget)
      | Some cell =>
          let triangle := pickTriangle cell localU localV in
          let weights :=
            computeBarycentric2D localU localV (tri_uv triangle)
                                 weightsTarget in
          let '(i0, i1, i2) := tri_indices triangle in
          (true, Vec3 (IZR i0) (IZR i1) (IZR i2), weights)
      end
  end.

End Sample.

(** ** Vectors and the points of a flat array *)

Section Vectors.
Local Open Scope R_scope.

(** [Vector3.length()] *)
Definition vlength (a : vec3) : R :=
  sqrt (vx a * vx a + vy a * vy a + vz a * vz a).

(** [Vector3.dot(b)] *)
Definition dot (a b : vec3) : R :=
  vx a * vx b + vy a * vy b + vz a * vz b.

(** [Vector3.sub(b)] *)
Definition vsub (a b : vec3) : vec3 :=
  Vec3 (vx a - vx b) (vy a - vy b) (vz a - vz b).

(** [Vector3.multiplyScalar(s)] *)
Definition multiplyScalar (a : vec3) (s : R) : vec3 :=
  Vec3 (vx a * s) (vy a * s) (vz a * s).

(** [Vector3.normalize()], which is [divideScalar(length() || 1)], the
    division being a multiplication by the inverse: the zero vector is left
    as it is.  The result has length one here; in doubles its length is
    within a few 1e-16 of one. *)
Definition normalize (a : vec3) : vec3 :=
  let len := vlength a in
  let d := if Req_dec_T len 0 then 1 else len in
  multiplyScalar a (1 / d).

End Vectors.

(** The points [(ary[3k], ary[3k+1], ary[3k+2])] packed in a flat array. *)
Fixpoint points (ary : list R) : list vec3 :=
  match ary with
  | x :: y :: z :: rest => Vec3 x y z :: points rest
  | _ => []
  end.

(** The cache the builder makes for a key, and the memo tables it can be
    in: those whose entries were stored by [buildSamplingCache]. *)
Definition freshCache (octType gridSize : Z) : SamplingCache :=
  {| cache_gridSize := gridSize;
     cache_octType := octType;
     cells := buildCells (octPlaneIndices octType gridSize gridSize)
                         gridSize |}.

Definition memo_ok (memo : memoTable) : Prop :=
  forall octType gridSize c,
    memo !! (octType, gridSize) = Some c ->
    (octType = HEMI \/ octType = FULL) /\
    c = Some (freshCache octType gridSize).

(** What the sampler promises about weights: none is negative and they sum
    to one. *)
Definition weights_ok (w : vec3) : Prop :=
  (0 <= vx w /\ 0 <= vy w /\ 0 <= vz w /\ vx w + vy w + vz w = 1)%R.

(** A triangle whose three vertex indices exist in a mesh of [n] points. *)
Definition triangle_in_range (n : Z) (t : Triangle) : Prop :=
  let '(i0, i1, i2) := tri_indices t in
  (0 <= i0 < n /\ 0 <= i1 < n /\ 0 <= i2 < n)%Z.

Definition cell_in_range (n : Z) (c : Cell) : Prop :=
  triangle_in_range n (fst (triangles c)) /\
  triangle_in_range n (snd (triangles c)).

(** ** The bake loop of the atlas *)

Section AtlasBaker.
Local Open Scope R_scope.

(** [pntOct[i]] for an index inside the array. *)
Definition readCoord (ary : list R) (i : Z) : R := nth (Z.to_nat i) ary 0.

(** One iteration of the two loops of [generateAtlas] that passes the guard
    [flatIdx * 3 + 2 >= pntOct.length]: the grid position, the index of the
    octahedron point it reads, the view direction it builds from it, and
    the place of the camera, [viewDir * 1.1]. *)
Record BakeCell : Type := {
  bake_row : Z;
  bake_col : Z;
  bake_flatIdx : Z;
  bake_viewDir : vec3;
  bake_cameraPosition : vec3;
}.

Definition cameraDistance : R := 1.1.

(** The body of the loops past the guard, for the point index [flatIdx]. *)
Definition bakedAt (pntOct : list R) (rowIdx colIdx flatIdx : Z)
    : BakeCell :=
  let px := readCoord pntOct (flatIdx * 3) in
  let py := readCoord pntOct (flatIdx * 3 + 1) in
  let pz := readCoord pntOct (flatIdx * 3 + 2) in
  let viewDir := normalize (Vec3 px py pz) in
  {| bake_row := rowIdx;
     bake_col := colIdx;
     bake_flatIdx := flatIdx;
     bake_viewDir := viewDir;
     bake_cameraPosition := multiplyScalar viewDir cameraDistance |}.

Definition bakeCell (numCells : Z) (pntOct : list R) (rowIdx colIdx : Z)
    : option BakeCell :=
  let flatIdx := (rowIdx * numCells + colIdx)%Z in
  if (Z.of_nat (length pntOct) <=? flatIdx * 3 + 2)%Z then None
  else Some (bakedAt pntOct rowIdx colIdx flatIdx).

(** The iterations of [for rowIdx <= numCells] / [for colIdx <= numCells]
    that render, in order. *)
Definition bakeCells (numCells : Z) (pntOct : list R) : list BakeCell :=
  flat_map (fun rowIdx : Z =>
    flat_map (fun colIdx : Z =>
      match bakeCell numCells pntOct rowIdx colIdx with
      | Some c => [c]
      | None => []
      end) (upto (numCells + 1)))
    (upto (numCells + 1)).

(** The pixels read back for a camera position, [None] when the read-back
    throws or yields nothing. *)
Variable Image : Type.
Variable renderAndRead : vec3 -> option Image.

(** The rounding of a real number to a double.  The two pixel origins are
    floors of a quotient and a product of doubles, each rounded; one
    rounding below an integer moves the floor by a whole pixel, so the
    rounding is kept in the model. *)
Variable round : R -> R.

(** [Math.floor((idx / numCells) * atlasSize)]: [pixelX] for a column,
    [pixelY] for a row. *)
Definition pixelOrigin (idx numCells atlasSize : Z) : Z :=
  floor (round (round (IZR idx / IZR numCells) * IZR atlasSize)).

(** [cellSize = Math.floor((atlasSize / numCells) * 1.0)]: the side of the
    square of pixels read back and drawn for a cell.  The product by 1.0
    is exact. *)
Definition cellSize (atlasSize numCells : Z) : Z :=
  floor (round (IZR atlasSize / IZR numCells) * 1.0).

(** A call [ctx.putImageData(image, pixelX, pixelY)]. *)
Record Draw : Type := {
  draw_image : Image;
  draw_pixelX : Z;
  draw_pixelY : Z;
}.

(** The draws of the bake, in order: a cell whose read-back fails is
    skipped and the loop goes on. *)
Definition atlasDraws (numCells atlasSize : Z) (pntOct : list R)
    : list Draw :=
  flat_map (fun c : BakeCell =>
    match renderAndRead (bake_cameraPosition c) with
    | None => []
    | Some image =>
        [{| draw_image := image;
            draw_pixelX := pixelOrigin (bake_col c) numCells atlasSize;
            draw_pixelY := pixelOrigin (bake_row c) numCells atlasSize |}]
    end) (bakeCells numCells pntOct).

End AtlasBaker.

(** The grid positions [(rowIdx, colIdx)] the two loops go through. *)
Definition gridPositions (numCells : Z) : list (Z * Z) :=
  flat_map (fun rowIdx : Z =>
    map (fun colIdx : Z => (rowIdx, colIdx)) (upto (numCells + 1)))
    (upto (numCells + 1)).

(** ** The per-frame direction update *)

Section Frame.
Local Open Scope R_scope.

(** A shader uniform: its value and its [needsUpdate] flag. *)
Record Uniform : Type := {
  value : vec3;
  needsUpdate : bool;
}.

(** The node material: the two uniforms stored in its [userData], either of
    which may be missing, and its own [needsUpdate] flag. *)
Record Material : Type := {
  faceIndicesUniform : option Uniform;
  faceWeightsUniform : option Uniform;
  material_needsUpdate : bool;
}.

(** What an impostor instance keeps between frames: [lastDirectionRef],
    [faceIndicesRef], [faceWeightsRef] and the material, [None] until the
    atlas is there. *)
Record Impostor : Type := {
  lastDirection : option vec3;
  faceIndices : vec3;
  faceWeights : vec3;
  nodeMaterial : option Material;
}.

(** What a frame reads from outside the instance. *)
Record FrameInput : Type := {
  billboardMounted : bool;              (* billboardRef.current *)
  cameraPosition : option vec3;         (* camera, when there is one *)
  groupWorldPosition : option vec3;     (* groupRef.current, when mounted *)
  position : vec3;                 (* the position prop *)
  samplingCache : option SamplingCache;
}.


(** [if (uniform) { uniform.value.set(...); uniform.needsUpdate = true }] *)
Definition writeUniform (uniform : option Uniform) (val : vec3)
    : option Uniform :=
  match uniform with
  | Some _ => Some {| value := val; needsUpdate := true |}
  | None => None
  end.

(** [targetCenter] *)
Definition targetCenter (input : FrameInput) : vec3 :=
  match groupWorldPosition input with
  | Some center => center
  | None => position input
  end.

(** The hysteresis test: a previous direction exists and
    [dot >= directionThresholdDot]. *)
Definition withinThreshold (last : option vec3) (viewDir : vec3)
    (thresholdDot : R) : bool :=
  match last with
  | Some l => if Rge_dec (dot l viewDir) thresholdDot then true else false
  | None => false
  end.

(** The callback of [useFrame], on the state of the instance; the rotation
    of the billboard towards the camera, which it also does, is left out. *)
Definition frameUpdate (thresholdDot : R) (input : FrameInput)
    (s : Impostor) : Impostor :=
  match billboardMounted input, cameraPosition input,
        nodeMaterial s, samplingCache input with
  | true, Some camera, Some material, Some cache =>
      let viewDir := normalize (vsub camera (targetCenter input)) in
      if withinThreshold (lastDirection s) viewDir thresholdDot then s
      else
        let '(samplingSuccess, indices, weights) :=
          sampleOctahedralDirection viewDir (Some cache)
                                    (faceIndices s) (faceWeights s) in
        if samplingSuccess then
          {| lastDirection := Some viewDir;
             faceIndices := indices;
             faceWeights := weights;
             nodeMaterial :=
               Some {| faceIndicesUniform :=
                         writeUniform (faceIndicesUniform material) indices;
                       faceWeightsUniform :=
                         writeUniform (faceWeightsUniform material) weights;
                       material_needsUpdate := true |} |}
        else
          {| lastDirection := lastDirection s;
             faceIndices := indices;
             faceWeights := weights;
             nodeMaterial := nodeMaterial s |}
  | _, _, _, _ => s
  end.


End Frame.

(** A concrete frame for the examples: the stored direction is the x axis
    and the camera sits on the y axis, straight above the instance, a
    quarter turn away. *)
Definition quarterTurnInput : FrameInput :=
  {| billboardMounted := true;
     cameraPosition := Some (Vec3 0 1 0);
     groupWorldPosition := Some (Vec3 0 0 0);
     position := Vec3 0 0 0;
     samplingCache := Some (freshCache HEMI 2) |}.




(** ** Atlas requests: the cache, the pending promises and the event loop *)

Module AtlasRequests.

(** The effect of [useOctahedralAtlas] runs to completion, as every piece
    of JavaScript does; what is deferred is the callbacks it attaches to
    promises, which run later as microtasks.  [generateAtlas] is an [async]
    function without [await]: the call bakes the whole atlas and returns a
    promise that is settled already, fulfilled with a new texture or
    rejected.  The world below is the two module-level maps, the promises
    made by [.then] for the bakes, the queue of the microtasks, the [atlas]
    state of every requester and the log of the bakes executed. *)

(** [`${sourceId}|g${gridSize}|a${atlasSize}|o${octType}`] *)
Definition cacheKey : Type := string.

(** A component instance that uses the hook. *)
Definition requester : Type := nat.

(** An atlas payload, known by the number of the bake that made its
    texture: two payloads are the same object when the numbers agree. *)
Definition payload : Type := nat.

(** How a promise settled: fulfilled with a payload or rejected. *)
Definition settlement : Type := option payload.

(** The promise [atlasPromise]: unsettled or settled, and the requesters
    that attached [.then(...).catch(...)] to it while it was unsettled. *)
Record promise : Type := {
  settled : option settlement;
  waiters : list requester;
}.

Inductive job : Type :=
  (** the callbacks given to [generateAtlas(...).then], which settle
      [atlasPromise] number [p] *)
  | JobBakeDone (p : nat) (key : cacheKey) (owner : requester)
                (outcome : settlement)
  (** the callback of [atlasPromise.finally] *)
  | JobFinally (key : cacheKey)
  (** the callbacks a requester attached to a pending promise *)
  | JobWaiter (r : requester) (outcome : settlement).

Record world : Type := {
  atlasCache : gmap cacheKey payload;
  pendingAtlasPromises : gmap cacheKey nat;
  promises : list promise;
  queue : list job;
  atlas : gmap requester payload;
  bakes : list cacheKey;
}.

Definition init : world :=
  {| atlasCache := ∅; pendingAtlasPromises := ∅; promises := [];
     queue := []; atlas := ∅; bakes := [] |}.

(** [setAtlas(value)] by requester [r] *)
Definition setAtlas (r : requester) (value : payload) (w : world) : world :=
  {| atlasCache := atlasCache w;
     pendingAtlasPromises := pendingAtlasPromises w;
     promises := promises w;
     queue := queue w;
     atlas := <[r := value]> (atlas w);
     bakes := bakes w |}.

Definition enqueue (jobs : list job) (w : world) : world :=
  {| atlasCache := atlasCache w;
     pendingAtlasPromises := pendingAtlasPromises w;
     promises := promises w;
     queue := queue w ++ jobs;
     atlas := atlas w;
     bakes := bakes w |}.

(** [pendingPromise.then(...).catch(...)] by requester [r] on promise [p]:
    the callbacks wait for the settlement, or are queued at once when the
    promise is settled already. *)
Definition attach (r : requester) (p : nat) (w : world) : world :=
  match promises w !! p with
  | None => w
  | Some pr =>
      match settled pr with
      | Some outcome => enqueue [JobWaiter r outcome] w
      | None =>
          {| atlasCache := atlasCache w;
             pendingAtlasPromises := pendingAtlasPromises w;
             promises :=
               <[p := {| settled := None;
                         waiters := waiters pr ++ [r] |}]> (promises w);
             queue := queue w;
             atlas := atlas w;
             bakes := bakes w |}
      end
  end.

(** The last branch of the effect: the bake runs, its outcome is
    [bakeOk]; [.then] makes promise number [length (promises w)] and queues
    its callbacks; the promise goes into [pendingAtlasPromises]. *)
Definition startBake (r : requester) (key : cacheKey) (bakeOk : bool)
    (w : world) : world :=
  let made : payload := length (bakes w) in
  let p := length (promises w) in
  {| atlasCache := atlasCache w;
     pendingAtlasPromises := <[key := p]> (pendingAtlasPromises w);
     promises := promises w ++ [{| settled := None; waiters := [] |}];
     queue := queue w ++
              [JobBakeDone p key r (if bakeOk then Some made else None)];
     atlas := atlas w;
     bakes := bakes w ++ [key] |}.

(** The effect of the hook for an enabled requester with a mesh. *)
Definition effect (r : requester) (key : cacheKey) (bakeOk : bool)
    (w : world) : world :=
  match atlasCache w !! key with
  | Some cachedAtlas => setAtlas r cachedAtlas w
  | None =>
      match pendingAtlasPromises w !! key with
      | Some p => attach r p w
      | None => startBake r key bakeOk w
      end
  end.

(** Promise [p] settles: its [finally] callback, attached first, and the
    callbacks of its waiters are queued in the order of attachment. *)
Definition settle (p : nat) (key : cacheKey) (outcome : settlement)
    (w : world) : world :=
  let ws := match promises w !! p with
            | Some pr => waiters pr
            | None => []
            end in
  {| atlasCache := atlasCache w;
     pendingAtlasPromises := pendingAtlasPromises w;
     promises := <[p := {| settled := Some outcome; waiters := [] |}]>
                   (promises w);
     queue := queue w ++
              JobFinally key :: map (fun r => JobWaiter r outcome) ws;
     atlas := atlas w;
     bakes := bakes w |}.

Definition runJob (j : job) (w : world) : world :=
  match j with
  | JobBakeDone p key owner (Some atlasPayload) =>
      let w1 :=
        {| atlasCache := <[key := atlasPayload]> (atlasCache w);
           pendingAtlasPromises := pendingAtlasPromises w;
           promises := promises w;
           queue := queue w;
           atlas := atlas w;
           bakes := bakes w |} in
      settle p key (Some atlasPayload) (setAtlas owner atlasPayload w1)
  | JobBakeDone p key owner None => settle p key None w
  | JobFinally key =>
      {| atlasCache := atlasCache w;
         pendingAtlasPromises := delete key (pendingAtlasPromises w);
         promises := promises w;
         queue := queue w;
         atlas := atlas w;
         bakes := bakes w |}
  | JobWaiter r (Some cachedAtlas) => setAtlas r cachedAtlas w
  | JobWaiter r None => w
  end.

(** The oldest microtask runs. *)
Definition microtask (w : world) : world :=
  match queue w with
  | [] => w
  | j :: rest =>
      runJob j {| atlasCache := atlasCache w;
                  pendingAtlasPromises := pendingAtlasPromises w;
                  promises := promises w;
                  queue := rest;
                  atlas := atlas w;
                  bakes := bakes w |}
  end.

(** What can happen next: the effect of some requester runs, its bake
    succeeding or not should it start one, or a microtask runs. *)
Inductive event : Type :=
  | Effect (r : requester) (key : cacheKey) (bakeOk : bool)
  | Microtask.

Definition step (w : world) (e : event) : world :=
  match e with
  | Effect r key bakeOk => effect r key bakeOk w
  | Microtask => microtask w
  end.

Definition run (w : world) (events : list event) : world :=
  fold_left step events w.

(** The bakes of [key] that are under way: started, and their [finally]
    callback not yet run. *)
Definition isBakeJob (key : cacheKey) (j : job) : bool :=
  match j with
  | JobBakeDone _ k _ _ => bool_decide (k = key)
  | JobFinally k => bool_decide (k = key)
  | JobWaiter _ _ => false
  end.

Definition countBakeJobs (key : cacheKey) (q : list job) : nat :=
  length (filter (fun j => isBakeJob key j = true) q).

Definition inFlight (w : world) (key : cacheKey) : nat :=
  countBakeJobs key (queue w).

(** The number of bakes executed for [key]. *)
Definition bakeCount (w : world) (key : cacheKey) : nat :=
  length (filter (fun k => k = key) (bakes w)).

(** Every bake of the run succeeds. *)
Definition allBakesOk (events : list event) : Prop :=
  Forall (fun e => match e with
                   | Effect _ _ bakeOk => bakeOk = true
                   | Microtask => True
                   end) events.

(** Invariant of every run: a key has at most one bake under way, and then
    its promise is in [pendingAtlasPromises]. *)
Definition oneInFlight (w : world) : Prop :=
  forall key,
    inFlight w key <= 1 /\
    (inFlight w key = 1 -> is_Some (pendingAtlasPromises w !! key)).

(** Invariant of the runs without a failed bake: a key that was baked is
    cached or pending, the cache is filled before [finally] runs, and no
    key was baked twice. *)
Definition bakedOnce (w : world) : Prop :=
  (forall key, key ∈ bakes w ->
     is_Some (atlasCache w !! key) \/
     is_Some (pendingAtlasPromises w !! key)) /\
  (forall key, JobFinally key ∈ queue w -> is_Some (atlasCache w !! key)) /\
  (forall p key r outcome,
     JobBakeDone p key r outcome ∈ queue w -> is_Some outcome) /\
  (forall key, bakeCount w key <= 1).

(** A world with another queue and other atlases. *)
Definition withQueueAtlas (w : world) (q : list job)
    (a : gmap requester payload) : world :=
  {| atlasCache := atlasCache w;
     pendingAtlasPromises := pendingAtlasPromises w;
     promises := promises w;
     queue := q;
     atlas := a;
     bakes := bakes w |}.

(** The world reached from a world [w] without queued microtask when
    [owner] has requested a key that was neither cached nor pending, and the
    requesters [ws] have then attached to its promise. *)
Definition bakePending (w : world) (key : cacheKey) (owner : requester)
    (ws : list requester) : world :=
  {| atlasCache := atlasCache w;
     pendingAtlasPromises :=
       <[key := length (promises w)]> (pendingAtlasPromises w);
     promises := promises w ++ [{| settled := None; waiters := ws |}];
     queue := [JobBakeDone (length (promises w)) key owner
                           (Some (length (bakes w)))];
     atlas := atlas w;
     bakes := bakes w ++ [key] |}.

(** The requests of the requesters [rs] for a key, one after the other. *)
Definition requestsOf (key : cacheKey) (rs : list requester) : list event :=
  map (fun r => Effect r key true) rs.

End AtlasRequests.

(** ** Flat indices and grid coordinates *)

Module FlatIndex.

(** [-a] and [a - b], which is [a + (-b)] in IEEE arithmetic. *)
Definition js_neg (a : jsnum) : jsnum :=
  match a with
  | JFin q => JFin (- q)%Q
  | JInf s => JInf (negb s)
  | JNaN => JNaN
  end.

Definition js_sub (a b : jsnum) : jsnum := js_add a (js_neg b).

(** The integer a number is, if it is one. *)
Definition js_int (a : jsnum) : option Z :=
  match a with
  | JFin q =>
      if (Z.rem (Qnum q) (Z.pos (Qden q)) =? 0)%Z
      then Some (Z.quot (Qnum q) (Z.pos (Qden q)))
      else None
  | _ => None
  end.

(** The [{ row, col }] object. *)
Record coords : Type := { row : jsnum; col : jsnum }.

(** [flatIndexToCoords(flatIndex, gridSize)].  The rationals of [jsnum] do
    not round: on integers the result is that of the doubles as long as
    the operands stay below 2^52 in absolute value, the range of the
    statements about it. *)
Definition flatIndexToCoords (flatIndex gridSize : jsnum) : coords :=
  let row := js_floor (js_div flatIndex gridSize) in
  let col := js_sub flatIndex (js_mul row gridSize) in
  {| row := row; col := col |}.

(** [coordsToFlatIndex(row, col, gridSize)], exact under the same
    bound. *)
Definition coordsToFlatIndex (row col gridSize : jsnum) : jsnum :=
  js_add (js_mul row gridSize) col.

End FlatIndex.

(** The cell [vec2(col, row)] the node material computes for a face index:
    [row = floor(flatIndex / gridSize)], [col = flatIndex - row * gridSize],
    the arithmetic of [flatIndexToCoords]. *)
Definition shaderCellIndex (flatIndex gridSize : jsnum) : jsnum * jsnum :=
  let row := js_floor (js_div flatIndex gridSize) in
  let col := FlatIndex.js_sub flatIndex (js_mul row gridSize) in
  (col, row).

(** The lattice point of column [xi] and row [yi] of the grid built by
    [createGrid(xCells, yCells)]. *)
Definition latticePoint (xCells yCells : Z) (yi xi : Z) : vec3 :=
  Vec3 (IZR xi * (1 / IZR xCells) + - 1 * 0.5)%R 0%R
       (IZR yi * (1 / IZR yCells) + - 1 * 0.5)%R.

(** The triangles [(i0, i1, i2)] packed in an index array. *)
Fixpoint triangleList (indices : list Z) : list (Z * Z * Z) :=
  match indices with
  | i0 :: i1 :: i2 :: rest => (i0, i1, i2) :: triangleList rest
  | _ => []
  end.

(** The four corners [a, b, c, d] of the cell at column [x] of row [y]. *)
Definition cellCorners (xCells y x : Z) : list Z :=
  let xLen := (xCells + 1)%Z in
  [xLen * y + x; xLen * (y + 1) + x;
   xLen * (y + 1) + x + 1; xLen * y + x + 1]%Z.

(** The lattice vertex a UV corner of the cell at [(row, col)] stands for:
    the corner [(u, v)], each 0 or 1, is the vertex of column [col + u] and
    row [row + v]. *)
Definition cornerVertex (gridSize row col : Z) (corner : R * R) : R :=
  (IZR (gridSize + 1) * (IZR row + snd corner) + (IZR col + fst corner))%R.

(** The vertex indices of a triangle paired with their UV corners. *)
Definition triangleVertices (t : Triangle) : list (Z * (R * R)) :=
  let '(i0, i1, i2) := tri_indices t in
  let '(uv0, uv1, uv2) := tri_uv t in
  [(i0, uv0); (i1, uv1); (i2, uv2)].

(** The point [wx * a + wy * b + wz * c] of a UV triangle. *)
Definition blend (w : vec3) (triangleUV : uvTriangle) : R * R :=
  let '((ax, ay), (bx, by_), (cx, cy)) := triangleUV in
  (vx w * ax + vy w * bx + vz w * cx,
   vx w * ay + vy w * by_ + vz w * cy)%R.


(** ** An instance from its mount on *)

Section Mount.
Local Open Scope R_scope.

(** The refs of a new instance: two [new THREE.Vector3()], no stored
    direction, and no material before the atlas is there. *)
Definition newImpostor : Impostor :=
  {| lastDirection := None;
     faceIndices := Vec3 0 0 0;
     faceWeights := Vec3 0 0 0;
     nodeMaterial := None |}.

(** [indices.getX(0)], [indices.getY(0)], [indices.getZ(0)] of the index
    attribute, whose item size is one: the first three entries of its
    array. *)
Definition firstTriangle (indexArray : list Z) : vec3 :=
  Vec3 (IZR (readIndex indexArray 0)) (IZR (readIndex indexArray 1))
       (IZR (readIndex indexArray 2)).

(** The effect that runs when [octahedralData] arrives. *)
Definition dataEffect (octahedralData : option OctahedralMesh)
    (s : Impostor) : Impostor :=
  match octahedralData with
  | None => s
  | Some data =>
      let indices := index (geometry data) in
      if (Z.of_nat (length indices) <=? 0)%Z then s
      else
        {| lastDirection := lastDirection s;
           faceIndices := firstTriangle indices;
           faceWeights := Vec3 (1 / 3) (1 / 3) (1 / 3);
           nodeMaterial := nodeMaterial s |}
  end.

(** The memo [nodeMaterial], as far as the two uniforms go: [null] without
    an atlas or without the mesh data. *)
Definition createMaterial (atlasReady : bool)
    (octahedralData : option OctahedralMesh) : option Material :=
  match atlasReady, octahedralData with
  | true, Some data =>
      let indices := index (geometry data) in
      let initialIndices :=
        if (0 <? Z.of_nat (length indices))%Z then firstTriangle indices
        else Vec3 0 1 2 in
      Some {| faceIndicesUniform :=
                Some {| value := initialIndices; needsUpdate := false |};
              faceWeightsUniform :=
                Some {| value := Vec3 (1 / 3) (1 / 3) (1 / 3);
                        needsUpdate := false |};
              material_needsUpdate := false |}
  | _, _ => None
  end.

(** What happens to a mounted instance, in any order and any number of
    times: a frame; a run of the memo [nodeMaterial], which makes a new
    material whenever the atlas, the mesh data or one of the material props
    changes, with uniforms at their initial values, while the refs and the
    stored direction stay as they are; a run of the data effect; and the
    effect that forgets the stored direction when the sampling cache
    changes. *)
Inductive lifeEvent : Type :=
  | Frame (input : FrameInput)
  | MaterialMemo (atlasReady : bool)
  | DataEffect
  | CacheEffect.

Definition lifeStep (thresholdDot : R)
    (octahedralData : option OctahedralMesh) (s : Impostor)
    (e : lifeEvent) : Impostor :=
  match e with
  | Frame input => frameUpdate thresholdDot input s
  | MaterialMemo atlasReady =>
      {| lastDirection := lastDirection s;
         faceIndices := faceIndices s;
         faceWeights := faceWeights s;
         nodeMaterial := createMaterial atlasReady octahedralData |}
  | DataEffect => dataEffect octahedralData s
  | CacheEffect =>
      {| lastDirection := None;
         faceIndices := faceIndices s;
         faceWeights := faceWeights s;
         nodeMaterial := nodeMaterial s |}
  end.

(** The life of an instance: the data effect runs after the first render,
    when no material exists yet (the atlas comes later), then the events
    follow. *)
Definition runLife (thresholdDot : R)
    (octahedralData : option OctahedralMesh) (events : list lifeEvent)
    : Impostor :=
  fold_left (lifeStep thresholdDot octahedralData) events
            (dataEffect octahedralData newImpostor).

(** Three vertex indices of a mesh of grid size [gridSize]. *)
Definition indices_ok (gridSize : Z) (v : vec3) : Prop :=
  exists i0 i1 i2 : Z,
    v = Vec3 (IZR i0) (IZR i1) (IZR i2) /\
    (0 <= i0 < (gridSize + 1) * (gridSize + 1))%Z /\
    (0 <= i1 < (gridSize + 1) * (gridSize + 1))%Z /\
    (0 <= i2 < (gridSize + 1) * (gridSize + 1))%Z.

(** What the shader relies on: the two refs, and the two uniforms of the
    material when there are any, hold three vertex indices of the mesh and
    barycentric weights.  (A uniform need not hold the value of its ref: a
    material made anew starts at the first triangle again, and keeps it
    until a frame passes the hysteresis test.) *)
Definition faceState_ok (gridSize : Z) (s : Impostor) : Prop :=
  weights_ok (faceWeights s) /\
  indices_ok gridSize (faceIndices s) /\
  forall material,
    nodeMaterial s = Some material ->
    (forall un, faceIndicesUniform material = Some un ->
                indices_ok gridSize (value un)) /\
    (forall un, faceWeightsUniform material = Some un ->
                weights_ok (value un)).

(** The events whose frames have, for sampling cache, the cache of the
    instance's own type and grid size or none. *)
Definition ownCache (octType gridSize : Z) (e : lifeEvent) : Prop :=
  match e with
  | Frame input =>
      samplingCache input = None \/
      samplingCache input = Some (freshCache octType gridSize)
  | _ => True
  end.

End Mount.



(** ** The field of impostors: seeded scattering *)

Module Field.

(** JavaScript's conversions to 32-bit integers, on integers. *)
Definition toUint32 (z : Z) : Z := z mod 2 ^ 32.
Definition toInt32 (z : Z) : Z := (z + 2 ^ 31) mod 2 ^ 32 - 2 ^ 31.

(** [a << k], [a >>> k], [a ^ b], [a | b] and [Math.imul(a, b)]. *)
Definition shl (a k : Z) : Z := toInt32 (Z.shiftl (toInt32 a) k).
Definition ushr (a k : Z) : Z := Z.shiftr (toUint32 a) k.
Definition xor (a b : Z) : Z := Z.lxor (toInt32 a) (toInt32 b).
Definition or (a b : Z) : Z := Z.lor (toInt32 a) (toInt32 b).
Definition imul (a b : Z) : Z := toInt32 (toInt32 a * toInt32 b).

(** One turn of the loop of [hashSeed]:
    [hash = (hash << 5) - hash + charCode; hash |= 0]. *)
Definition hashStep (hash charCode : Z) : Z :=
  toInt32 (shl hash 5 - hash + charCode).

(** [hashSeed(value)], on the UTF-16 code units of the string that [value]
    converts to. *)
Definition hashSeed (stringValue : list Z) : Z :=
  toUint32 (fold_left hashStep stringValue 0%Z).

(** One call of the closure [createSeededRandom] returns: the 32 bits
    drawn and the new value of the closure variable [seed], which the
    source does not wrap.  The variable is a double: the integer of the
    model is its value as long as it stays at most 2^53, that is for the
    first 4.9 million calls; beyond, the addition of the source rounds. *)
Definition nextBits (seed : Z) : Z * Z :=
  let seed := (seed + 0x6d2b79f5)%Z in
  let t := seed in
  let t := imul (xor t (ushr t 15)) (or t 1) in
  let t := xor t (t + imul (xor t (ushr t 7)) (or t 61)) in
  (toUint32 (xor t (ushr t 14)), seed).

(** [random()]: the number returned and the new seed. *)
Definition random (seed : Z) : R * Z :=
  let '(bits, seed) := nextBits seed in
  ((IZR bits / 4294967296)%R, seed).

Record Instance : Type := {
  instance_position : vec3;
  instance_scale : vec3;
}.

(** The props of [TreeOctahedralImpostorField] the scattering reads;
    [seedString] is the string of the [seed] prop. *)
Record FieldProps : Type := {
  count : Z;
  origin : vec3;              (* position *)
  areaSize : R * R;
  minHeight : R;
  maxHeight : R;
  minScale : R;
  maxScale : R;
  baseScale : vec3;
  avoidRadius : R;
  seedString : list Z;
}.

Section Scatter.
Local Open Scope R_scope.

(** [Math.hypot(a, b)] *)
Definition hypot (a b : R) : R := sqrt (a * a + b * b).

(** [avoidRadius > 0 && Math.hypot(...) < avoidRadius] *)
Definition rejected (props : FieldProps) (candidateX candidateZ : R) : bool :=
  if Rgt_dec (avoidRadius props) 0 then
    if Rlt_dec (hypot (candidateX - vx (origin props))
                      (candidateZ - vz (origin props)))
               (avoidRadius props)
    then true else false
  else false.

(** The instance pushed by an attempt that is not rejected, and the seed
    after the draws it makes. *)
Definition placeInstance (props : FieldProps) (candidateX candidateZ : R)
    (seed : Z) : Instance * Z :=
  let '(heightOffset, seed) :=
    if Req_dec_T (minHeight props) (maxHeight props) then
      (minHeight props, seed)
    else
      let '(r, seed) := random seed in
      (minHeight props + r * (maxHeight props - minHeight props), seed) in
  let '(uniformScale, seed) :=
    if Req_dec_T (minScale props) (maxScale props) then
      (Rmax 0.0001 (minScale props), seed)
    else
      let '(r, seed) := random seed in
      (Rmax 0.0001 (minScale props + r * (maxScale props - minScale props)),
       seed) in
  ({| instance_position :=
        Vec3 candidateX (vy (origin props) + heightOffset) candidateZ;
      instance_scale :=
        Vec3 (Rabs (vx (baseScale props) * uniformScale))
             (Rabs (vy (baseScale props) * uniformScale))
             (Rabs (vz (baseScale props) * uniformScale)) |},
   seed).

(** The [while] loop.  [attempts] only counts the turns, so the loop is
    written on the number of turns left, [count * 10 - attempts]; it stops
    when none is left or when [generated.length < count] fails. *)
Fixpoint scatterLoop (attemptsLeft : nat) (props : FieldProps) (seed : Z)
    (generated : list Instance) : list Instance :=
  match attemptsLeft with
  | O => generated
  | S attemptsLeft =>
      if (count props <=? Z.of_nat (length generated))%Z then generated
      else
        let '(r, seed) := random seed in
        let offsetX := (r - 0.5) * fst (areaSize props) in
        let '(r, seed) := random seed in
        let offsetZ := (r - 0.5) * snd (areaSize props) in
        let candidateX := vx (origin props) + offsetX in
        let candidateZ := vz (origin props) + offsetZ in
        if rejected props candidateX candidateZ then
          scatterLoop attemptsLeft props seed generated
        else
          let '(instance, seed) :=
            placeInstance props candidateX candidateZ seed in
          scatterLoop attemptsLeft props seed (generated ++ [instance])
  end.

(** The memo [instances]. *)
Definition instances (props : FieldProps) : list Instance :=
  if (count props <=? 0)%Z then []
  else scatterLoop (Z.to_nat (count props * 10)) props
                   (hashSeed (seedString props)) [].

(** What the scattering promises about an instance. *)
Definition instance_ok (props : FieldProps) (i : Instance) : Prop :=
  let p := instance_position i in
  let s := instance_scale i in
  Rabs (vx p - vx (origin props)) <= Rabs (fst (areaSize props)) / 2 /\
  Rabs (vz p - vz (origin props)) <= Rabs (snd (areaSize props)) / 2 /\
  (avoidRadius props > 0 ->
   avoidRadius props <= hypot (vx p - vx (origin props))
                              (vz p - vz (origin props))) /\
  (minHeight props <= maxHeight props ->
   vy (origin props) + minHeight props <= vy p
   <= vy (origin props) + maxHeight props) /\
  0.0001 * Rabs (vx (baseScale props)) <= vx s /\
  0.0001 * Rabs (vy (baseScale props)) <= vy s /\
  0.0001 * Rabs (vz (baseScale props)) <= vz s.

End Scatter.

End Field.


(** ** The payloads handed out *)

Module AtlasPayloads.
Import AtlasRequests.

(** The payload is the value of some key of [atlasCache]. *)
Definition cached (w : world) (a : payload) : Prop :=
  exists key, atlasCache w !! key = Some a.

(** The texture of the payload was made by a bake for [key]. *)
Definition bakedFor (w : world) (a : payload) (key : cacheKey) : Prop :=
  bakes w !! a = Some key.

(** Invariant of every run, failed bakes included: a bake that has not
    delivered yet is for a key that is not cached; a payload in the cache
    was baked for its key; and a payload that a requester holds, that a
    queued callback is about to hand out or that a settled promise carries
    is in the cache. *)
Record payloads_ok (w : world) : Prop := {
  bake_not_cached : forall p key r out,
    JobBakeDone p key r out ∈ queue w -> atlasCache w !! key = None;
  bake_logged : forall p key r a,
    JobBakeDone p key r (Some a) ∈ queue w -> bakedFor w a key;
  cache_logged : forall key a,
    atlasCache w !! key = Some a -> bakedFor w a key;
  shown_cached : forall r a, atlas w !! r = Some a -> cached w a;
  waiter_cached : forall r a,
    JobWaiter r (Some a) ∈ queue w -> cached w a;
  settled_cached : forall p pr a,
    promises w !! p = Some pr -> settled pr = Some (Some a) -> cached w a;
}.

End AtlasPayloads.


(** ** The key of an atlas *)

Module CacheKey.

(** A mesh or group, as far as the key goes: its [name] and
    [userData.__impostorSourceId], the empty string standing for every
    falsy value of the latter. *)
Record Object3D : Type := {
  name : string;
  impostorSourceId : string;
}.

Definition falsy (s : string) : bool := String.eqb s "".

(** [buildAtlasCacheKey(mesh, gridSize, atlasSize, octType)]: the key, and
    the mesh afterwards, whose [userData] the function may write.  [uuid]
    is what [THREE.MathUtils.generateUUID()] would return. *)
Definition buildAtlasCacheKey (mesh : option Object3D)
    (gridSize atlasSize octType : Z) (uuid : string)
    : option string * option Object3D :=
  match mesh with
  | None => (None, None)
  | Some mesh =>
      let mesh :=
        if falsy (impostorSourceId mesh) then
          {| name := name mesh;
             impostorSourceId :=
               if negb (falsy (name mesh)) then name mesh else uuid |}
        else mesh in
      (Some (impostorSourceId mesh +:+ "|g" +:+ pretty gridSize
             +:+ "|a" +:+ pretty atlasSize +:+ "|o" +:+ pretty octType),
       Some mesh)
  end.

(** The memo [meshGroup] of [TreeOctahedralImpostor]: the group given from
    outside, marked with the model path unless it carries an identifier,
    or a new group of the [meshCount] meshes of the scene. *)
Definition meshGroup (externalMeshGroup : option Object3D)
    (meshCount : nat) (modelPath : string) : option Object3D :=
  match externalMeshGroup with
  | Some group =>
      Some (if falsy (impostorSourceId group) then
              {| name := name group; impostorSourceId := modelPath |}
            else group)
  | None =>
      if Nat.eqb meshCount 0 then None
      else Some {| name := ""; impostorSourceId := modelPath |}
  end.

(** The memo [sharedMeshGroup] of [TreeOctahedralImpostorField]. *)
Definition sharedMeshGroup (meshCount : nat) (modelPath : string)
    : option Object3D :=
  if Nat.eqb meshCount 0 then None
  else Some {| name := ""; impostorSourceId := modelPath |}.

(** [`${id}|g${gridSize}|a${atlasSize}|o${octType}`] *)
Definition keyOf (id : string) (gridSize atlasSize octType : Z) : string :=
  id +:+ "|g" +:+ pretty gridSize +:+ "|a" +:+ pretty atlasSize
     +:+ "|o" +:+ pretty octType.

End CacheKey.

(** * Properties *)

(** Runs the loops of a concrete grid and leaves the real arithmetic of its
    entries as it is written. *)
Ltac grid_compute :=
  cbv - [Rplus Rminus Rmult Rdiv Ropp Rinv IZR Rabs sqrt].

(** ** Worked examples *)

Example octPlaneIndices_hemi_2 :
  octPlaneIndices HEMI 2 2 =
  [0; 3; 4; 4; 1; 0;  2; 1; 4; 4; 5; 2;
   4; 3; 6; 6; 7; 4;  4; 7; 8; 8; 5; 4]%Z.
Proof. vm_compute. reflexivity. Qed.

Example octPlaneIndices_full_2 :
  octPlaneIndices FULL 2 2 =
  [1; 0; 3; 3; 4; 1;  1; 4; 5; 5; 2; 1;
   3; 6; 7; 7; 4; 3;  5; 4; 7; 7; 8; 5]%Z.
Proof. vm_compute. reflexivity. Qed.

(** The direction straight up is encoded at the centre of the square. *)
Example encode_up :
  encodeDirectionToOctUV (Vec3 0 1 0) = {| u := 0.5; v := 0.5 |}%R.
Proof.
  unfold encodeDirectionToOctUV; cbn [vx vy vz].
  rewrite Rabs_R0, Rabs_R1.
  destruct (Rlt_dec (1 * (1 / (0 + 1 + 0 + 1e-9))) 0)%R as [H|_].
  - exfalso. assert (0 < 1 / (0 + 1 + 0 + 1e-9))%R; [|lra].
    apply Rdiv_lt_0_compat; lra.
  - f_equal; lra.
Qed.

(** The direction straight down is folded into the square, onto its
    corner. *)
Example encode_down :
  encodeDirectionToOctUV (Vec3 0 (-1) 0) = {| u := 1; v := 1 |}%R.
Proof.
  unfold encodeDirectionToOctUV; cbn [vx vy vz].
  assert (H1 : Rabs (-1) = 1%R) by (rewrite Rabs_left; lra).
  rewrite Rabs_R0, H1.
  assert (Hinv : (0 < 1 / (0 + 1 + 0 + 1e-9))%R).
  { apply Rdiv_lt_0_compat; lra. }
  destruct (Rlt_dec (-1 * (1 / (0 + 1 + 0 + 1e-9))) 0)%R as [_|H];
    [|exfalso; lra].
  rewrite Rmult_0_l, Rabs_R0.
  destruct (Rge_dec 0 0) as [_|H]; [|exfalso; lra].
  f_equal; lra.
Qed.

(** ** Loops and flat arrays *)

Lemma length_upto (n : Z) : length (upto n) = Z.to_nat n.
Proof. unfold upto. apply length_seqZ. Qed.

Lemma length_flat_map_const {A B : Type} (f : A -> list B) (k : nat)
    (l : list A) :
  (forall a, length (f a) = k) -> length (flat_map f l) = (k * length l)%nat.
Proof.
  intros Hk. induction l as [|a l IH]; simpl.
  - lia.
  - rewrite length_app, Hk, IH. lia.
Qed.

Lemma length_createGrid (xCells yCells : Z) (w h : R) (c : bool) :
  length (createGrid xCells yCells w h c) =
  (3 * Z.to_nat (xCells + 1) * Z.to_nat (yCells + 1))%nat.
Proof.
  unfold createGrid.
  rewrite (length_flat_map_const _ (3 * Z.to_nat (xCells + 1))).
  - rewrite length_upto. lia.
  - intros yi. rewrite (length_flat_map_const _ 3).
    + rewrite length_upto. lia.
    + reflexivity.
Qed.

Lemma length_cellIndices isFull xLen xHalf yHalf y x :
  length (cellIndices isFull xLen xHalf yHalf y x) = 6%nat.
Proof. unfold cellIndices. destruct js_strict_eq; reflexivity. Qed.

Lemma length_octPlaneIndices (isFull xCells yCells : Z) :
  length (octPlaneIndices isFull xCells yCells) =
  (6 * Z.to_nat xCells * Z.to_nat yCells)%nat.
Proof.
  unfold octPlaneIndices.
  rewrite (length_flat_map_const _ (6 * Z.to_nat xCells)).
  - rewrite length_upto. lia.
  - intros y. rewrite (length_flat_map_const _ 6).
    + rewrite length_upto. lia.
    + intros x. apply length_cellIndices.
Qed.

(** Induction three entries at a time, the way the loops walk an array. *)
Lemma triples_ind (P : list R -> Prop) :
  P [] -> (forall a, P [a]) -> (forall a b, P [a; b]) ->
  (forall a b c rest, P rest -> P (a :: b :: c :: rest)) ->
  forall l, P l.
Proof.
  intros H0 H1 H2 H3.
  assert (H : forall l, P l /\ (forall a, P (a :: l)) /\
                        (forall a b, P (a :: b :: l))).
  { induction l as [|c l [IH0 [IH1 IH2]]].
    - auto.
    - repeat split; auto. }
  intros l. apply H.
Qed.

Lemma length_octHemi (ary : list R) : length (octHemi ary) = length ary.
Proof.
  induction ary as [| | |a b c rest IH] using triples_ind; try reflexivity.
  simpl. now rewrite IH.
Qed.

Lemma length_octFull (ary : list R) : length (octFull ary) = length ary.
Proof.
  induction ary as [| | |a b c rest IH] using triples_ind; try reflexivity.
  simpl. now rewrite IH.
Qed.

Lemma length_points (ary : list R) (n : nat) :
  length ary = (3 * n)%nat -> length (points ary) = n.
Proof.
  revert n.
  induction ary as [| | |a b c rest IH] using triples_ind; intros n; simpl;
    try lia.
  intros H. destruct n as [|n]; [lia|]. f_equal. apply IH. lia.
Qed.

(** ** Norm of the folded points *)

Section FoldNorm.
Local Open Scope R_scope.

Lemma sqrt_square_sum_pos (x y z : R) :
  1 <= Rabs x + Rabs y + Rabs z -> 0 < sqrt (x ^ 2 + y ^ 2 + z ^ 2).
Proof.
  intros H. apply sqrt_lt_R0.
  assert (Hx := Rabs_pos x). assert (Hy := Rabs_pos y).
  assert (Hz := Rabs_pos z).
  assert (Hx2 := pow2_abs x).
  assert (Hy2 := pow2_abs y).
  assert (Hz2 := pow2_abs z).
  rewrite <- Hx2, <- Hy2, <- Hz2.
  generalize dependent (Rabs x); generalize dependent (Rabs y);
    generalize dependent (Rabs z); intros c Hc _ b Hb _ a H Ha _.
  destruct (Rle_lt_dec a 0); destruct (Rle_lt_dec b 0); nra.
Qed.

(** A vector divided by its length and scaled to [radius] has length
    [radius]. *)
Lemma vlength_rescaled (x y z : R) :
  0 < sqrt (x ^ 2 + y ^ 2 + z ^ 2) ->
  let m := sqrt (x ^ 2 + y ^ 2 + z ^ 2) in
  vlength (Vec3 (x / m * radius) (y / m * radius) (z / m * radius)) = radius.
Proof.
  intros Hm m. unfold vlength; cbn [vx vy vz].
  assert (Hmm : m * m = x ^ 2 + y ^ 2 + z ^ 2).
  { unfold m. apply sqrt_sqrt. nra. }
  replace (x / m * radius * (x / m * radius) + y / m * radius * (y / m * radius)
           + z / m * radius * (z / m * radius))
    with (radius * radius).
  - apply sqrt_square. unfold radius. lra.
  - fold m in Hm. field_simplify_eq; [|lra]. nra.
Qed.

(** The point [(x, 1 - |x| - |z|, z)] is not the origin. *)
Lemma octahedron_point_sum (x z : R) :
  1 <= Rabs x + Rabs (1 - Rabs x - Rabs z) + Rabs z.
Proof.
  assert (Hy := Rabs_pos (1 - Rabs x - Rabs z)).
  destruct (Rle_dec 0 (1 - Rabs x - Rabs z)) as [Hp|Hn].
  - rewrite (Rabs_pos_eq _ Hp). lra.
  - lra.
Qed.

Lemma hemiPoint_norm (px pz : R) : vlength (hemiPoint px pz) = radius.
Proof.
  apply vlength_rescaled, sqrt_square_sum_pos, octahedron_point_sum.
Qed.

Lemma fullPoint_norm (px pz : R) : vlength (fullPoint px pz) = radius.
Proof.
  unfold fullPoint.
  destruct (Rlt_dec _ 0);
    apply vlength_rescaled, sqrt_square_sum_pos, octahedron_point_sum.
Qed.

(** The folds act point by point. *)
Lemma points_octHemi (ary : list R) :
  points (octHemi ary) = map (fun p => hemiPoint (vx p) (vz p)) (points ary).
Proof.
  induction ary as [| | |a b c rest IH] using triples_ind; try reflexivity.
  cbn [octHemi points map vx vz]. rewrite IH.
  now destruct (hemiPoint a c).
Qed.

Lemma points_octFull (ary : list R) :
  points (octFull ary) = map (fun p => fullPoint (vx p) (vz p)) (points ary).
Proof.
  induction ary as [| | |a b c rest IH] using triples_ind; try reflexivity.
  cbn [octFull points map vx vz]. rewrite IH.
  now destruct (fullPoint a c).
Qed.

Lemma octHemi_norm (ary : list R) :
  Forall (fun p => vlength p = radius) (points (octHemi ary)).
Proof.
  rewrite points_octHemi. apply List.Forall_forall. intros q Hq.
  apply in_map_iff in Hq as (p & <- & _). apply hemiPoint_norm.
Qed.

Lemma octFull_norm (ary : list R) :
  Forall (fun p => vlength p = radius) (points (octFull ary)).
Proof.
  rewrite points_octFull. apply List.Forall_forall. intros q Hq.
  apply in_map_iff in Hq as (p & <- & _). apply fullPoint_norm.
Qed.

End FoldNorm.

(** ** The geometry builder *)

Lemma buildOctahedralMesh_valid (octType gridSize : Z) :
  octType = HEMI \/ octType = FULL ->
  exists fold,
    (fold = octHemi \/ fold = octFull) /\
    buildOctahedralMesh octType gridSize =
    Returns (packMesh (createGrid gridSize gridSize 1 1 true)
                      (fold (createGrid gridSize gridSize 1 1 true))
                      (octPlaneIndices octType gridSize gridSize)).
Proof.
  intros [-> | ->].
  - exists octHemi. split; [now left | reflexivity].
  - exists octFull. split; [now right | reflexivity].
Qed.

(** C4: for every grid size of at least one and both octahedron types the
    builder returns a mesh with [(gridSize+1)^2] points, in the plane and on
    the octahedron, and [6 * gridSize^2] triangle indices, and every folded
    point has Euclidean norm equal to the radius 0.5 (exactly so in real
    arithmetic). *)
Theorem buildOctahedralMesh_counts_and_norm (octType gridSize : Z) :
  (1 <= gridSize)%Z ->
  octType = HEMI \/ octType = FULL ->
  exists mesh,
    buildOctahedralMesh octType gridSize = Returns mesh /\
    Z.of_nat (length (pntPlane mesh)) = (3 * (gridSize + 1) ^ 2)%Z /\
    Z.of_nat (length (pntOct mesh)) = (3 * (gridSize + 1) ^ 2)%Z /\
    Z.of_nat (length (points (pntPlane mesh))) = ((gridSize + 1) ^ 2)%Z /\
    Z.of_nat (length (points (pntOct mesh))) = ((gridSize + 1) ^ 2)%Z /\
    Z.of_nat (length (indices mesh)) = (6 * gridSize ^ 2)%Z /\
    Forall (fun p => vlength p = radius) (points (pntOct mesh)).
Proof.
  intros Hg Ht.
  destruct (buildOctahedralMesh_valid octType gridSize Ht)
    as (fold & Hfold & ->).
  eexists; split; [reflexivity|]. cbn [pntPlane pntOct indices packMesh].
  assert (Hlen : length (createGrid gridSize gridSize 1 1 true) =
                 (3 * Z.to_nat ((gridSize + 1) ^ 2))%nat).
  { rewrite length_createGrid.
    replace ((gridSize + 1) ^ 2)%Z with ((gridSize + 1) * (gridSize + 1))%Z
      by ring.
    rewrite Z2Nat.inj_mul by lia. lia. }
  assert (Hlen' : length (fold (createGrid gridSize gridSize 1 1 true)) =
                  (3 * Z.to_nat ((gridSize + 1) ^ 2))%nat).
  { destruct Hfold as [-> | ->];
      [rewrite length_octHemi | rewrite length_octFull]; exact Hlen. }
  repeat split.
  - rewrite Hlen. lia.
  - rewrite Hlen'. lia.
  - rewrite (length_points _ _ Hlen). lia.
  - rewrite (length_points _ _ Hlen'). lia.
  - rewrite length_octPlaneIndices.
    replace (gridSize ^ 2)%Z with (gridSize * gridSize)%Z by ring. lia.
  - destruct Hfold as [-> | ->]; [apply octHemi_norm | apply octFull_norm].
Qed.

Lemma buildOctahedralMesh_counts_and_norm_witness :
  exists mesh,
    buildOctahedralMesh HEMI 2 = Returns mesh /\
    Z.of_nat (length (pntPlane mesh)) = 27%Z /\
    Z.of_nat (length (pntOct mesh)) = 27%Z /\
    Z.of_nat (length (points (pntPlane mesh))) = 9%Z /\
    Z.of_nat (length (points (pntOct mesh))) = 9%Z /\
    Z.of_nat (length (indices mesh)) = 24%Z /\
    Forall (fun p => vlength p = radius) (points (pntOct mesh)).
Proof.
  apply (buildOctahedralMesh_counts_and_norm HEMI 2); [lia | now left].
Defined.

(** C8: an octahedron type that is neither HEMI nor FULL makes the builder
    throw, whatever the grid size; no mesh is returned. *)
Theorem buildOctahedralMesh_unknown_type_throws (octType gridSize : Z) :
  octType <> HEMI -> octType <> FULL ->
  buildOctahedralMesh octType gridSize =
  Throws ("Unknown octahedron type: " +:+ pretty octType).
Proof.
  intros Hh Hf. unfold buildOctahedralMesh.
  destruct (Z.eqb_spec octType HEMI); [contradiction|].
  destruct (Z.eqb_spec octType FULL); [contradiction|].
  reflexivity.
Qed.

Lemma buildOctahedralMesh_unknown_type_throws_witness :
  buildOctahedralMesh 2 4 = Throws "Unknown octahedron type: 2".
Proof.
  apply (buildOctahedralMesh_unknown_type_throws 2 4); unfold HEMI, FULL; lia.
Defined.

(** C7, as stated, fails: a negative grid size with a valid type does not
    make the builder throw; it returns a mesh with no point and no index. *)
Lemma buildOctahedralMesh_negative_gridSize_returns :
  (-1 <= 0)%Z /\
  buildOctahedralMesh HEMI (-1) = Returns (packMesh [] [] []) /\
  ~ (forall octType gridSize : Z,
       (gridSize <= 0)%Z ->
       exists e, buildOctahedralMesh octType gridSize = Throws e).
Proof.
  assert (H : buildOctahedralMesh HEMI (-1) = Returns (packMesh [] [] [])).
  { reflexivity. }
  split; [lia|]. split; [exact H|].
  intros Hall. destruct (Hall HEMI (-1)%Z) as [e He]; [lia|].
  rewrite H in He. discriminate.
Qed.

(** C7, amended: the builder does not check the grid size.  With a valid
    octahedron type and a grid size of zero or less it returns a mesh that
    has no triangle index; the mesh has no point when the grid size is
    negative and a single point when it is zero. *)
Theorem buildOctahedralMesh_nonpositive_gridSize (octType gridSize : Z) :
  (gridSize <= 0)%Z ->
  octType = HEMI \/ octType = FULL ->
  exists mesh,
    buildOctahedralMesh octType gridSize = Returns mesh /\
    indices mesh = [] /\
    length (pntPlane mesh) = (if (gridSize <? 0)%Z then 0 else 3)%nat /\
    length (pntOct mesh) = (if (gridSize <? 0)%Z then 0 else 3)%nat.
Proof.
  intros Hg Ht.
  destruct (buildOctahedralMesh_valid octType gridSize Ht)
    as (fold & Hfold & ->).
  eexists; split; [reflexivity|]. cbn [pntPlane pntOct indices packMesh].
  assert (Hlen : length (createGrid gridSize gridSize 1 1 true) =
                 (if (gridSize <? 0)%Z then 0 else 3)%nat).
  { rewrite length_createGrid. destruct (Z.ltb_spec gridSize 0).
    - replace (Z.to_nat (gridSize + 1)) with 0%nat by lia. lia.
    - replace gridSize with 0%Z by lia. reflexivity. }
  repeat split.
  - apply length_zero_iff_nil. rewrite length_octPlaneIndices. lia.
  - exact Hlen.
  - destruct Hfold as [-> | ->];
      [rewrite length_octHemi | rewrite length_octFull]; exact Hlen.
Qed.

Lemma buildOctahedralMesh_nonpositive_gridSize_witness :
  exists mesh,
    buildOctahedralMesh FULL 0 = Returns mesh /\
    indices mesh = [] /\
    length (pntPlane mesh) = 3%nat /\
    length (pntOct mesh) = 3%nat.
Proof.
  apply (buildOctahedralMesh_nonpositive_gridSize FULL 0); [lia | now right].
Defined.

(** C10: on a one-cell grid [xHalf] and [yHalf] are zero, the checkerboard
    key of the only cell is NaN, which is strictly equal to no octahedron
    type, so the cell takes the forward-slash branch whatever the type; the
    result is the six indices [d, a, b, b, c, d] of the corners
    [a = 0], [d = 1], [b = 2], [c = 3] of that cell. *)
Theorem octPlaneIndices_one_cell (isFull : Z) :
  let xHalf := js_floor (js_mul (of_Z 1) (JFin (1 # 2)%Q)) in
  xHalf = of_Z 0 /\
  alt_key (of_Z 0) (of_Z 0) xHalf xHalf = JNaN /\
  js_strict_eq (alt_key (of_Z 0) (of_Z 0) xHalf xHalf) (of_Z isFull) = false /\
  octPlaneIndices isFull 1 1 = [1; 0; 2; 2; 3; 1]%Z /\
  length (octPlaneIndices isFull 1 1) = 6%nat.
Proof.
  repeat split; reflexivity.
Qed.

(** ** Barycentric weights *)

Section Barycentric.
Local Open Scope R_scope.

Lemma div_nonneg (a b : R) : 0 <= a -> 0 < b -> 0 <= a / b.
Proof.
  intros Ha Hb. unfold Rdiv. apply Rmult_le_pos; [exact Ha|].
  left. now apply Rinv_0_lt_compat.
Qed.

Lemma thirds_ok : weights_ok (Vec3 (1 / 3) (1 / 3) (1 / 3)).
Proof. unfold weights_ok; cbn. repeat split; lra. Qed.

Lemma computeBarycentric2D_weights_ok px py triangleUV target :
  weights_ok (computeBarycentric2D px py triangleUV target).
Proof.
  unfold computeBarycentric2D.
  destruct (Rlt_dec _ 1e-9); [apply thirds_ok|].
  destruct (baryClamped px py triangleUV) as [[cu cv] cw] eqn:E.
  destruct (Rle_dec _ 0) as [Hs|Hs]; [apply thirds_ok|].
  assert (Hcu : 0 <= cu /\ 0 <= cv /\ 0 <= cw).
  { unfold baryClamped in E.
    destruct triangleUV as [[[ax ay] [bx by_]] [cx cy]].
    injection E as <- <- <-. repeat split; apply Rmax_r. }
  destruct Hcu as (Hu & Hv & Hw).
  assert (Hpos : 0 < cu + cv + cw) by lra.
  unfold weights_ok; cbn [vx vy vz]. repeat split.
  - apply div_nonneg; lra.
  - apply div_nonneg; lra.
  - apply div_nonneg; lra.
  - field. lra.
Qed.

(** C6: when the triangle is degenerate (the absolute value of the
    cross-product denominator is below 1e-9) or the clamped components sum
    to zero or less, the weights written are exactly (1/3, 1/3, 1/3).  The
    function returns its target in every case: nothing is thrown. *)
Theorem computeBarycentric2D_degenerate px py triangleUV target :
  Rabs (baryDenom triangleUV) < 1e-9 \/
  (let '(clampedU, clampedV, clampedW) := baryClamped px py triangleUV in
   clampedU + clampedV + clampedW <= 0) ->
  computeBarycentric2D px py triangleUV target = Vec3 (1 / 3) (1 / 3) (1 / 3).
Proof.
  intros H. unfold computeBarycentric2D.
  destruct (Rlt_dec _ 1e-9) as [Hd|Hd]; [reflexivity|].
  destruct H as [H|H]; [contradiction|].
  destruct (baryClamped px py triangleUV) as [[cu cv] cw].
  destruct (Rle_dec _ 0); [reflexivity | contradiction].
Qed.

Lemma computeBarycentric2D_degenerate_witness :
  computeBarycentric2D 0.25 0.5 ((0, 0), (1, 1), (2, 2)) (Vec3 0 0 0)
  = Vec3 (1 / 3) (1 / 3) (1 / 3).
Proof.
  apply computeBarycentric2D_degenerate. left. unfold baryDenom.
  replace ((1 - 0) * (2 - 0) - (2 - 0) * (1 - 0)) with 0 by ring.
  rewrite Rabs_R0. lra.
Defined.

End Barycentric.

(** ** Indices of the mesh and of the sampling cache *)

Lemma in_upto (n i : Z) : In i (upto n) <-> (0 <= i < n)%Z.
Proof.
  unfold upto. rewrite <- list_elem_of_In, elem_of_seqZ. lia.
Qed.

Lemma cellIndices_range isFull xCells yCells xHalf yHalf y x :
  (0 <= y < yCells)%Z -> (0 <= x < xCells)%Z ->
  Forall (fun i => 0 <= i < (xCells + 1) * (yCells + 1))%Z
         (cellIndices isFull (xCells + 1) xHalf yHalf y x).
Proof.
  intros Hy Hx. unfold cellIndices.
  destruct js_strict_eq; repeat constructor; nia.
Qed.

Lemma octPlaneIndices_range (isFull xCells yCells : Z) :
  Forall (fun i => 0 <= i < (xCells + 1) * (yCells + 1))%Z
         (octPlaneIndices isFull xCells yCells).
Proof.
  unfold octPlaneIndices. rewrite List.Forall_forall. intros i Hi.
  apply in_flat_map in Hi as (y & Hy & Hi).
  apply in_flat_map in Hi as (x & Hx & Hi).
  apply in_upto in Hy. apply in_upto in Hx.
  pose proof (cellIndices_range isFull xCells yCells
    (js_floor (js_mul (of_Z xCells) (JFin (1 # 2)%Q)))
    (js_floor (js_mul (of_Z yCells) (JFin (1 # 2)%Q))) y x Hy Hx) as Hall.
  rewrite List.Forall_forall in Hall. apply Hall, Hi.
Qed.

(** The six reads of the cache builder stay inside the index array. *)
Lemma cursor_in_range (octType gridSize row col : Z) :
  (0 <= row < gridSize)%Z -> (0 <= col < gridSize)%Z ->
  let cursor := (6 * (row * gridSize + col))%Z in
  (0 <= cursor)%Z /\
  (Z.to_nat (cursor + 5) <
   length (octPlaneIndices octType gridSize gridSize))%nat.
Proof.
  intros Hr Hc cursor. rewrite length_octPlaneIndices. unfold cursor.
  split; [nia|]. apply Nat2Z.inj_lt.
  rewrite Z2Nat.id by nia. rewrite !Nat2Z.inj_mul, !Z2Nat.id by lia. nia.
Qed.

Lemma readIndex_range (P : Z -> Prop) (indexArray : list Z) (i : Z) :
  P 0%Z -> Forall P indexArray -> P (readIndex indexArray i).
Proof.
  intros H0 Hall. unfold readIndex.
  destruct (nth_in_or_default (Z.to_nat i) indexArray 0%Z) as [Hin | ->].
  - rewrite List.Forall_forall in Hall. apply Hall, Hin.
  - exact H0.
Qed.

Lemma buildCell_in_range (n : Z) (indexArray : list Z) (stride cursor : Z) :
  (0 < n)%Z -> Forall (fun i => 0 <= i < n)%Z indexArray ->
  cell_in_range n (buildCell indexArray stride cursor).
Proof.
  intros Hn Hall.
  assert (Hr : forall i, (0 <= readIndex indexArray i < n)%Z).
  { intros i.
    apply (readIndex_range (fun i => 0 <= i < n)%Z); [lia | exact Hall]. }
  unfold buildCell, cell_in_range, triangle_in_range.
  destruct ((_ =? stride)%Z && _); cbn; auto 10.
Qed.

Lemma buildCells_in_range (n : Z) (indexArray : list Z) (gridSize : Z) :
  (0 < n)%Z -> Forall (fun i => 0 <= i < n)%Z indexArray ->
  Forall (cell_in_range n) (buildCells indexArray gridSize).
Proof.
  intros Hn Hall. unfold buildCells. rewrite List.Forall_forall.
  intros c Hc.
  apply in_flat_map in Hc as (row & _ & Hc).
  apply in_map_iff in Hc as (col & <- & _).
  now apply buildCell_in_range.
Qed.

Lemma length_buildCells (indexArray : list Z) (gridSize : Z) :
  length (buildCells indexArray gridSize) =
  (Z.to_nat gridSize * Z.to_nat gridSize)%nat.
Proof.
  unfold buildCells.
  rewrite (length_flat_map_const _ (Z.to_nat gridSize)).
  - now rewrite length_upto.
  - intros row. now rewrite length_map, length_upto.
Qed.

Lemma clampIndex_range (i hi : Z) :
  (0 <= hi)%Z -> (0 <= clampIndex i hi <= hi)%Z.
Proof. unfold clampIndex. lia. Qed.

(** Inside the grid every cell exists and is one the builder made. *)
Lemma readCell_buildCells (indexArray : list Z) (gridSize row col : Z) :
  (0 <= row < gridSize)%Z -> (0 <= col < gridSize)%Z ->
  exists cell,
    readCell (buildCells indexArray gridSize) (row * gridSize + col)
      = Some cell /\
    In cell (buildCells indexArray gridSize).
Proof.
  intros Hr Hc. unfold readCell.
  destruct (Z.ltb_spec (row * gridSize + col) 0); [nia|].
  destruct (nth_error (buildCells indexArray gridSize)
                      (Z.to_nat (row * gridSize + col))) as [cell|] eqn:E.
  - exists cell. split; [reflexivity|]. eapply nth_error_In, E.
  - apply nth_error_None in E. rewrite length_buildCells in E. nia.
Qed.

(** ** The memo table of the sampling cache *)

Lemma memo_ok_empty : memo_ok (∅ : memoTable).
Proof. intros t g c H. rewrite lookup_empty in H. discriminate. Qed.

Lemma buildSamplingCache_fresh (memo : memoTable) (octType gridSize : Z) :
  memo_ok memo -> octType = HEMI \/ octType = FULL ->
  exists memo',
    buildSamplingCache memo octType gridSize =
      (Returns (Some (freshCache octType gridSize)), memo') /\
    memo_ok memo'.
Proof.
  intros Hok Ht. unfold buildSamplingCache.
  destruct (memo !! (octType, gridSize)) as [c|] eqn:E.
  - destruct (Hok _ _ _ E) as [_ ->]. exists memo. split; [reflexivity|exact Hok].
  - destruct (buildOctahedralMesh_valid octType gridSize Ht)
      as (fold & _ & ->).
    cbn [geometry index packMesh]. fold (freshCache octType gridSize).
    eexists. split; [reflexivity|].
    intros t g c Hc.
    destruct (decide ((octType, gridSize) = (t, g))) as [Heq|Hne].
    + injection Heq as <- <-. rewrite lookup_insert_eq in Hc.
      injection Hc as <-. split; [exact Ht | reflexivity].
    + rewrite lookup_insert_ne in Hc by exact Hne. exact (Hok _ _ _ Hc).
Qed.

(** ** Sampling *)

(** C3: for a cache built for HEMI or FULL with a grid size of at least
    one, and for every direction, the sampler succeeds; the three weights it
    writes are each at least zero and sum to one, and the three indices it
    writes are integers of [0, (gridSize+1)^2 - 1], the vertices of the
    mesh. *)
Theorem sampleOctahedralDirection_weights_and_indices
    (memo : memoTable) (octType gridSize : Z)
    (direction indicesTarget weightsTarget : vec3) :
  memo_ok memo ->
  (1 <= gridSize)%Z ->
  octType = HEMI \/ octType = FULL ->
  exists cache memo' i0 i1 i2 weights,
    getSamplingCache memo octType gridSize = (Returns (Some cache), memo') /\
    sampleOctahedralDirection direction (Some cache)
                              indicesTarget weightsTarget
      = (true, Vec3 (IZR i0) (IZR i1) (IZR i2), weights) /\
    weights_ok weights /\
    (0 <= i0 <= (gridSize + 1) ^ 2 - 1)%Z /\
    (0 <= i1 <= (gridSize + 1) ^ 2 - 1)%Z /\
    (0 <= i2 <= (gridSize + 1) ^ 2 - 1)%Z.
Proof.
  intros Hok Hg Ht.
  destruct (buildSamplingCache_fresh memo octType gridSize Hok Ht)
    as (memo' & Hbuild & _).
  exists (freshCache octType gridSize), memo'.
  unfold sampleOctahedralDirection.
  set (uv := encodeDirectionToOctUV direction).
  cbn [cache_gridSize cells freshCache].
  set (col := clampIndex (floor (u uv * IZR gridSize)) (gridSize - 1)).
  set (row := clampIndex (floor (v uv * IZR gridSize)) (gridSize - 1)).
  assert (Hcol : (0 <= col < gridSize)%Z).
  { pose proof (clampIndex_range (floor (u uv * IZR gridSize))
                                 (gridSize - 1)). subst col. lia. }
  assert (Hrow : (0 <= row < gridSize)%Z).
  { pose proof (clampIndex_range (floor (v uv * IZR gridSize))
                                 (gridSize - 1)). subst row. lia. }
  destruct (readCell_buildCells
              (octPlaneIndices octType gridSize gridSize)
              gridSize row col Hrow Hcol) as (cell & -> & Hin).
  pose proof (buildCells_in_range ((gridSize + 1) * (gridSize + 1))
                (octPlaneIndices octType gridSize gridSize) gridSize
                ltac:(nia) (octPlaneIndices_range _ _ _)) as Hall.
  rewrite List.Forall_forall in Hall. specialize (Hall cell Hin).
  set (localU := clampLocal _). set (localV := clampLocal _).
  assert (Htri : triangle_in_range ((gridSize + 1) * (gridSize + 1))
                                   (pickTriangle cell localU localV)).
  { destruct Hall as [H1 H2]. unfold pickTriangle.
    destruct (isBackslash cell && gtb localU localV); [exact H2|].
    destruct (negb (isBackslash cell) && gtb (localU + localV) 1);
      [exact H2 | exact H1]. }
  unfold triangle_in_range in Htri.
  destruct (tri_indices (pickTriangle cell localU localV))
    as [[i0 i1] i2].
  exists i0, i1, i2.
  eexists. split; [exact Hbuild|]. split; [reflexivity|].
  split; [apply computeBarycentric2D_weights_ok|].
  replace ((gridSize + 1) ^ 2)%Z with ((gridSize + 1) * (gridSize + 1))%Z
    by ring.
  lia.
Qed.

Lemma sampleOctahedralDirection_weights_and_indices_witness :
  exists cache memo' i0 i1 i2 weights,
    getSamplingCache ∅ HEMI 2 = (Returns (Some cache), memo') /\
    sampleOctahedralDirection (Vec3 0 1 0) (Some cache)
                              (Vec3 0 0 0) (Vec3 0 0 0)
      = (true, Vec3 (IZR i0) (IZR i1) (IZR i2), weights) /\
    weights_ok weights /\
    (0 <= i0 <= (2 + 1) ^ 2 - 1)%Z /\
    (0 <= i1 <= (2 + 1) ^ 2 - 1)%Z /\
    (0 <= i2 <= (2 + 1) ^ 2 - 1)%Z.
Proof.
  apply (sampleOctahedralDirection_weights_and_indices ∅ HEMI 2).
  - apply memo_ok_empty.
  - lia.
  - now left.
Defined.

(** ** Encoding a folded point *)

Section EncodeFold.
Local Open Scope R_scope.

(** The encoder on a positive multiple of a point of the upper half of the
    octahedron [|x| + |y| + |z| = 1]: the added 1e-9 shrinks the point by
    the factor [s / (s + 1e-9)]. *)
Lemma encode_scaled (d : vec3) (x y z s : R) :
  0 < s -> 0 <= y -> Rabs x + Rabs y + Rabs z = 1 ->
  vx d = x * s -> vy d = y * s -> vz d = z * s ->
  u (encodeDirectionToOctUV d) = x * (s / (s + 1e-9)) * 0.5 + 0.5 /\
  v (encodeDirectionToOctUV d) = z * (s / (s + 1e-9)) * 0.5 + 0.5.
Proof.
  intros Hs Hy Hsum Hx Hy' Hz. unfold encodeDirectionToOctUV.
  rewrite Hx, Hy', Hz. rewrite !Rabs_mult, (Rabs_pos_eq s) by lra.
  replace (Rabs x * s + Rabs y * s + Rabs z * s + 1e-9) with (s + 1e-9)
    by (rewrite <- !Rmult_plus_distr_r, Hsum; ring).
  assert (Hinv : 0 < 1 / (s + 1e-9)).
  { apply Rdiv_lt_0_compat; lra. }
  destruct (Rlt_dec (y * s * (1 / (s + 1e-9))) 0) as [Hneg|_].
  - exfalso. assert (0 <= y * s * (1 / (s + 1e-9))); [|lra].
    apply Rmult_le_pos; [apply Rmult_le_pos|]; lra.
  - cbn [u v]. split; field; lra.
Qed.

Lemma shrink_factor_close (s : R) :
  0.5 <= s -> 0 <= 1 - s / (s + 1e-9) <= 2 * 1e-9.
Proof.
  intros Hs.
  replace (1 - s / (s + 1e-9)) with (1e-9 / (s + 1e-9)) by (field; lra).
  split.
  - apply div_nonneg; lra.
  - apply (Rmult_le_reg_r (s + 1e-9)); [lra|].
    unfold Rdiv. rewrite Rmult_assoc, Rinv_l by lra. nra.
Qed.

Lemma octahedron_norm_le_1 (x y z : R) :
  Rabs x + Rabs y + Rabs z = 1 -> sqrt (x ^ 2 + y ^ 2 + z ^ 2) <= 1.
Proof.
  intros H. rewrite <- sqrt_1. apply sqrt_le_1_alt.
  rewrite <- (pow2_abs x), <- (pow2_abs y), <- (pow2_abs z).
  assert (Hx := Rabs_pos x). assert (Hy := Rabs_pos y).
  assert (Hz := Rabs_pos z). nra.
Qed.

(** Encoding the image of an upper-octahedron point [(x, y, z)] under
    "normalise and scale to the radius" gives back [x] and [z], mapped to
    [0, 1], within 1e-9. *)
Lemma encode_rescaled_close (x y z : R) :
  0 <= y -> Rabs x + Rabs y + Rabs z = 1 ->
  let m := sqrt (x ^ 2 + y ^ 2 + z ^ 2) in
  let q := Vec3 (x / m * radius) (y / m * radius) (z / m * radius) in
  Rabs (u (encodeDirectionToOctUV q) - (x * 0.5 + 0.5)) <= 1e-9 /\
  Rabs (v (encodeDirectionToOctUV q) - (z * 0.5 + 0.5)) <= 1e-9.
Proof.
  intros Hy Hsum m q.
  assert (Hm : 0 < m).
  { apply sqrt_square_sum_pos. lra. }
  assert (Hm1 : m <= 1) by (apply octahedron_norm_le_1, Hsum).
  set (s := radius / m).
  assert (Hs : 0.5 <= s).
  { unfold s, radius. apply (Rmult_le_reg_r m); [lra|].
    unfold Rdiv. rewrite Rmult_assoc, Rinv_l by lra. lra. }
  destruct (encode_scaled q x y z s) as [Hu Hv]; try assumption;
    try lra; try (unfold q, s; cbn; field; lra).
  rewrite Hu, Hv.
  pose proof (shrink_factor_close s Hs) as Hk.
  set (k := s / (s + 1e-9)) in *.
  assert (Hx := Rabs_pos x). assert (Hy' := Rabs_pos y).
  assert (Hz := Rabs_pos z).
  assert (Hx1 : -1 <= x <= 1).
  { pose proof (Rle_abs x). pose proof (Rle_abs (- x)) as H'.
    rewrite Rabs_Ropp in H'. lra. }
  assert (Hz1 : -1 <= z <= 1).
  { pose proof (Rle_abs z). pose proof (Rle_abs (- z)) as H'.
    rewrite Rabs_Ropp in H'. lra. }
  split; apply Rabs_le; nra.
Qed.

End EncodeFold.

(** ** The lattice points of the grid *)

Section Lattice.
Local Open Scope R_scope.

Lemma points_app_triples (l1 l2 : list R) (k : nat) :
  length l1 = (3 * k)%nat -> points (l1 ++ l2) = points l1 ++ points l2.
Proof.
  revert k.
  induction l1 as [| | |a b c rest IH] using triples_ind; intros k Hk;
    simpl in Hk; try (exfalso; lia).
  - reflexivity.
  - destruct k as [|k]; [lia|]. cbn [app points]. f_equal.
    apply (IH k). lia.
Qed.

Lemma Forall_points_flat_map {A : Type} (P : vec3 -> Prop)
    (F : A -> list R) (k : nat) (l : list A) :
  (forall a, length (F a) = (3 * k)%nat) ->
  (forall a, In a l -> Forall P (points (F a))) ->
  Forall P (points (flat_map F l)).
Proof.
  intros Hlen HP. induction l as [|a l IH]; cbn [flat_map].
  - constructor.
  - rewrite (points_app_triples _ _ k) by apply Hlen.
    apply Forall_app. split.
    + apply HP. now left.
    + apply IH. intros b Hb. apply HP. now right.
Qed.

(** Every lattice point of a grid of at least one cell lies in the square
    [-0.5, 0.5] x [-0.5, 0.5] of the plane. *)
Lemma createGrid_in_square (gridSize : Z) :
  (1 <= gridSize)%Z ->
  Forall (fun p => -0.5 <= vx p <= 0.5 /\ -0.5 <= vz p <= 0.5)
         (points (createGrid gridSize gridSize 1 1 true)).
Proof.
  intros Hg. unfold createGrid.
  assert (Hpos : 1 <= IZR gridSize) by now apply IZR_le.
  assert (Hunit : forall i, In i (upto (gridSize + 1)) ->
                            0 <= IZR i * (1 / IZR gridSize) <= 1).
  { intros i Hi. apply in_upto in Hi.
    assert (0 <= IZR i) by (apply IZR_le; lia).
    assert (IZR i <= IZR gridSize) by (apply IZR_le; lia).
    assert (Ht : 0 < 1 / IZR gridSize) by (apply Rdiv_lt_0_compat; lra).
    assert (Hgt : IZR gridSize * (1 / IZR gridSize) = 1) by (field; lra).
    split; nra. }
  apply (Forall_points_flat_map _ _ (Z.to_nat (gridSize + 1))).
  - intros yi. rewrite (length_flat_map_const _ 3) by reflexivity.
    now rewrite length_upto.
  - intros yi Hyi.
    apply (Forall_points_flat_map _ _ 1).
    + reflexivity.
    + intros xi Hxi. cbn [points]. constructor; [|constructor].
      cbn [vx vz]. pose proof (Hunit _ Hyi). pose proof (Hunit _ Hxi). lra.
Qed.

End Lattice.

(** ** Encoding against the two folds *)

Section EncodeInverse.
Local Open Scope R_scope.

Lemma abs_diag_sum (a b : R) :
  0 <= a <= 1 -> 0 <= b <= 1 -> Rabs (a - b) + Rabs (-1 + a + b) <= 1.
Proof.
  intros Ha Hb. unfold Rabs.
  destruct (Rcase_abs (a - b)); destruct (Rcase_abs (-1 + a + b)); lra.
Qed.

(** On a lattice point the HEMI fold followed by the encoder returns the
    coordinates rotated by the fold, [((U - V + 1) / 2, (U + V) / 2)]. *)
Lemma encode_hemiPoint (px pz : R) :
  -0.5 <= px <= 0.5 -> -0.5 <= pz <= 0.5 ->
  let U := px + 0.5 in
  let V := pz + 0.5 in
  let uv := encodeDirectionToOctUV (hemiPoint px pz) in
  Rabs (u uv - (U - V + 1) / 2) <= 1e-9 /\
  Rabs (v uv - (U + V) / 2) <= 1e-9.
Proof.
  intros Hx Hz U V. unfold hemiPoint. fold U V.
  set (x := U - V). set (z := -1 + U + V).
  assert (Hy : 0 <= 1 - Rabs x - Rabs z).
  { pose proof (abs_diag_sum U V). unfold x, z, U, V in *. lra. }
  destruct (encode_rescaled_close x (1 - Rabs x - Rabs z) z Hy) as [Hu Hv].
  { rewrite (Rabs_pos_eq _ Hy). lra. }
  cbv zeta in Hu, Hv |- *.
  replace ((x + 1) / 2) with (x * 0.5 + 0.5) by lra.
  replace ((U + V) / 2) with (z * 0.5 + 0.5) by (unfold z; lra).
  split; assumption.
Qed.

(** On a plane point of the diamond [|2 px| + |2 pz| <= 1] the FULL fold
    followed by the encoder returns the UV of the point. *)
Lemma encode_fullPoint (px pz : R) :
  Rabs (px * 2) + Rabs (pz * 2) <= 1 ->
  let uv := encodeDirectionToOctUV (fullPoint px pz) in
  Rabs (u uv - (px + 0.5)) <= 1e-9 /\
  Rabs (v uv - (pz + 0.5)) <= 1e-9.
Proof.
  intros Hd. unfold fullPoint.
  replace (px * 2.0) with (px * 2) by lra.
  replace (pz * 2.0) with (pz * 2) by lra.
  destruct (Rlt_dec (1 - Rabs (px * 2) - Rabs (pz * 2)) 0) as [Hneg|Hpos];
    [lra|].
  assert (Hy : 0 <= 1 - Rabs (px * 2) - Rabs (pz * 2)) by lra.
  destruct (encode_rescaled_close (px * 2) _ (pz * 2) Hy) as [Hu Hv].
  { rewrite (Rabs_pos_eq _ Hy). lra. }
  cbv zeta in Hu, Hv |- *.
  replace (px + 0.5) with (px * 2 * 0.5 + 0.5) by lra.
  replace (pz + 0.5) with (pz * 2 * 0.5 + 0.5) by lra.
  split; assumption.
Qed.

(** A direction with no [x] and a non-negative [y] is encoded at
    [u = 0.5]. *)
Lemma encode_u_half (d : vec3) :
  vx d = 0 -> 0 <= vy d -> u (encodeDirectionToOctUV d) = 0.5.
Proof.
  intros Hx Hy. unfold encodeDirectionToOctUV. rewrite Hx.
  assert (Hs : 0 < Rabs 0 + Rabs (vy d) + Rabs (vz d) + 1e-9).
  { rewrite Rabs_R0. pose proof (Rabs_pos (vy d)).
    pose proof (Rabs_pos (vz d)). lra. }
  assert (Hinv : 0 < 1 / (Rabs 0 + Rabs (vy d) + Rabs (vz d) + 1e-9)).
  { apply Rdiv_lt_0_compat; lra. }
  destruct (Rlt_dec _ 0) as [Hneg|_].
  - exfalso. apply (Rlt_not_le _ _ Hneg). apply Rmult_le_pos; lra.
  - cbn [u]. lra.
Qed.

(** C1, amended: for every lattice point [p] of a mesh, with UV
    [(U, V) = (px + 0.5, pz + 0.5)], and the folded point [q] at the same
    position of the octahedron array: under FULL, when [p] lies in the
    diamond [|2 px| + |2 pz| <= 1] that folds onto the upper hemisphere, the
    encoder returns [(U, V)] within 2e-9 in each coordinate; under HEMI it
    returns [((U - V + 1) / 2, (U + V) / 2)] within 2e-9, the rotation of
    the HEMI fold being left in.  In exact arithmetic the distance is at
    most 1e-9, the effect of the 1e-9 added to the denominator, and it
    comes as close to 1e-9 as one likes on the rim; the second 1e-9 of the
    bound is the room left for the rounding of the doubles. *)
Theorem encode_of_folded_lattice_point
    (octType gridSize : Z) (mesh : OctahedralMesh) (k : nat) (p : vec3) :
  (1 <= gridSize)%Z ->
  buildOctahedralMesh octType gridSize = Returns mesh ->
  nth_error (points (pntPlane mesh)) k = Some p ->
  exists q,
    nth_error (points (pntOct mesh)) k = Some q /\
    let U := vx p + 0.5 in
    let V := vz p + 0.5 in
    let uv := encodeDirectionToOctUV q in
    (octType = FULL ->
     Rabs (vx p * 2) + Rabs (vz p * 2) <= 1 ->
     Rabs (u uv - U) <= 2e-9 /\ Rabs (v uv - V) <= 2e-9) /\
    (octType = HEMI ->
     Rabs (u uv - (U - V + 1) / 2) <= 2e-9 /\
     Rabs (v uv - (U + V) / 2) <= 2e-9).
Proof.
  intros Hg Hbuild Hp. unfold buildOctahedralMesh in Hbuild.
  destruct (Z.eqb_spec octType HEMI) as [->|Hh].
  - injection Hbuild as <-. cbn [pntPlane pntOct packMesh] in *.
    exists (hemiPoint (vx p) (vz p)). split.
    + rewrite points_octHemi.
      now apply (map_nth_error (fun p => hemiPoint (vx p) (vz p))).
    + cbv zeta. split; [discriminate|]. intros _.
      pose proof (createGrid_in_square gridSize Hg) as Hsq.
      rewrite List.Forall_forall in Hsq.
      destruct (Hsq p (nth_error_In _ _ Hp)) as [Hx Hz].
      pose proof (encode_hemiPoint (vx p) (vz p) Hx Hz) as Henc.
      cbv zeta in Henc. destruct Henc as [Hu Hv]. split; lra.
  - destruct (Z.eqb_spec octType FULL) as [->|Hf]; [|discriminate].
    injection Hbuild as <-. cbn [pntPlane pntOct packMesh] in *.
    exists (fullPoint (vx p) (vz p)). split.
    + rewrite points_octFull.
      now apply (map_nth_error (fun p => fullPoint (vx p) (vz p))).
    + cbv zeta. split; [|discriminate]. intros _ Hd.
      pose proof (encode_fullPoint (vx p) (vz p) Hd) as Henc.
      cbv zeta in Henc. destruct Henc as [Hu Hv]. split; lra.
Qed.

Lemma encode_of_folded_lattice_point_witness :
  exists q,
    nth_error (points (octFull (createGrid 2 2 1 1 true))) 4 = Some q /\
    Rabs (u (encodeDirectionToOctUV q) - 0.5) <= 2e-9 /\
    Rabs (v (encodeDirectionToOctUV q) - 0.5) <= 2e-9.
Proof.
  destruct (encode_of_folded_lattice_point FULL 2
              (packMesh (createGrid 2 2 1 1 true)
                        (octFull (createGrid 2 2 1 1 true))
                        (octPlaneIndices FULL 2 2))
              4 (Vec3 0 0 0))
    as (q & Hq & Hfull & _).
  - lia.
  - reflexivity.
  - grid_compute. do 2 f_equal; lra.
  - exists q. split; [exact Hq|]. cbv zeta in Hfull. cbn [vx vz] in Hfull.
    replace (0 + 0.5) with 0.5 in Hfull by lra.
    apply Hfull; [reflexivity|].
    rewrite Rmult_0_l, Rabs_R0. lra.
Defined.

Lemma hemiPoint_first_corner : hemiPoint (-0.5) (-0.5) = Vec3 0 0 (-0.5).
Proof.
  unfold hemiPoint, radius.
  replace (-0.5 + 0.5 - (-0.5 + 0.5)) with 0 by lra.
  replace (-1 + (-0.5 + 0.5) + (-0.5 + 0.5)) with (-1) by lra.
  assert (H1 : Rabs (-1) = 1) by (rewrite Rabs_left; lra).
  rewrite Rabs_R0, H1.
  replace (0 ^ 2 + (1 - 0 - 1) ^ 2 + (-1) ^ 2) with 1 by ring.
  rewrite sqrt_1. f_equal; lra.
Qed.

Lemma fullPoint_last_corner : fullPoint 0.5 0.5 = Vec3 0 0.5 0.
Proof.
  unfold fullPoint, radius, sign.
  replace (0.5 * 2.0) with 1 by lra. rewrite Rabs_R1.
  destruct (Rlt_dec (1 - 1 - 1) 0) as [_|H]; [|exfalso; lra].
  destruct (Rlt_dec 0 1) as [_|H]; [|exfalso; lra].
  replace (1 * (1.0 - 1)) with 0 by lra. rewrite Rabs_R0.
  replace (0 ^ 2 + (1 - 0 - 0) ^ 2 + 0 ^ 2) with 1 by ring.
  rewrite sqrt_1. f_equal; lra.
Qed.

(** C1, as stated, fails under both types, and by far more than a
    tolerance.  Under HEMI the first lattice point of a one-cell grid has
    UV (0, 0); its folded point is (0, 0, -0.5), which the encoder sends to
    [u = 0.5].  Under FULL the last lattice point of a one-cell grid has
    UV (1, 1); its folded point is (0, 0.5, 0), which the encoder sends to
    [u = 0.5] too. *)
Lemma encode_not_inverse_of_fold :
  (exists mesh p q,
     buildOctahedralMesh HEMI 1 = Returns mesh /\
     nth_error (points (pntPlane mesh)) 0 = Some p /\
     nth_error (points (pntOct mesh)) 0 = Some q /\
     vx p + 0.5 = 0 /\ vz p + 0.5 = 0 /\
     q = Vec3 0 0 (-0.5) /\
     u (encodeDirectionToOctUV q) = 0.5) /\
  (exists mesh p q,
     buildOctahedralMesh FULL 1 = Returns mesh /\
     nth_error (points (pntPlane mesh)) 3 = Some p /\
     nth_error (points (pntOct mesh)) 3 = Some q /\
     vx p + 0.5 = 1 /\ vz p + 0.5 = 1 /\
     q = Vec3 0 0.5 0 /\
     u (encodeDirectionToOctUV q) = 0.5).
Proof.
  split.
  - exists (packMesh (createGrid 1 1 1 1 true)
                     (octHemi (createGrid 1 1 1 1 true))
                     (octPlaneIndices HEMI 1 1)),
           (Vec3 (-0.5) 0 (-0.5)), (Vec3 0 0 (-0.5)).
    split; [reflexivity|].
    assert (Hp : nth_error (points (createGrid 1 1 1 1 true)) 0 =
                 Some (Vec3 (-0.5) 0 (-0.5))).
    { grid_compute. do 2 f_equal; lra. }
    split; [exact Hp|]. cbn [pntOct packMesh].
    split.
    { rewrite points_octHemi.
      rewrite (map_nth_error (fun p => hemiPoint (vx p) (vz p)) _ _ Hp).
      cbn [vx vz]. now rewrite hemiPoint_first_corner. }
    cbn [vx vz]. repeat split; try lra.
    apply encode_u_half; cbn; lra.
  - exists (packMesh (createGrid 1 1 1 1 true)
                     (octFull (createGrid 1 1 1 1 true))
                     (octPlaneIndices FULL 1 1)),
           (Vec3 0.5 0 0.5), (Vec3 0 0.5 0).
    split; [reflexivity|].
    assert (Hp : nth_error (points (createGrid 1 1 1 1 true)) 3 =
                 Some (Vec3 0.5 0 0.5)).
    { grid_compute. do 2 f_equal; lra. }
    split; [exact Hp|]. cbn [pntOct packMesh].
    split.
    { rewrite points_octFull.
      rewrite (map_nth_error (fun p => fullPoint (vx p) (vz p)) _ _ Hp).
      cbn [vx vz]. now rewrite fullPoint_last_corner. }
    cbn [vx vz]. repeat split; try lra.
    apply encode_u_half; cbn; lra.
Qed.

End EncodeInverse.

(** ** The bake loop *)

Section BakeLoop.
Local Open Scope R_scope.

Lemma nth_error_points (l : list R) (k : nat) :
  (3 * k + 2 < length l)%nat ->
  nth_error (points l) k =
  Some (Vec3 (nth (3 * k) l 0) (nth (3 * k + 1) l 0) (nth (3 * k + 2) l 0)).
Proof.
  revert k.
  induction l as [| | |a b c rest IH] using triples_ind; intros k Hk;
    simpl in Hk; try lia.
  destruct k as [|k].
  - reflexivity.
  - cbn [points nth_error].
    replace (3 * S k)%nat with (S (S (S (3 * k)))) by lia.
    cbn [nth Nat.add]. apply IH. lia.
Qed.

Lemma flat_map_singletons {A B : Type} (f : A -> list B) (g : A -> B)
    (l : list A) :
  (forall a, In a l -> f a = [g a]) -> flat_map f l = map g l.
Proof.
  induction l as [|a l IH]; intros H; cbn; [reflexivity|].
  rewrite (H a) by now left. cbn. f_equal. apply IH.
  intros b Hb. apply H. now right.
Qed.

Lemma bakeCell_inside (numCells : Z) (pntOct : list R) (rowIdx colIdx : Z) :
  (1 <= numCells)%Z ->
  Z.of_nat (length pntOct) = (3 * (numCells + 1) ^ 2)%Z ->
  (0 <= rowIdx <= numCells)%Z -> (0 <= colIdx <= numCells)%Z ->
  bakeCell numCells pntOct rowIdx colIdx =
  Some (bakedAt pntOct rowIdx colIdx (rowIdx * numCells + colIdx)).
Proof.
  intros Hn Hlen Hr Hc. unfold bakeCell.
  destruct (Z.leb_spec (Z.of_nat (length pntOct))
                       ((rowIdx * numCells + colIdx) * 3 + 2)) as [H|H].
  - exfalso. rewrite Hlen in H. nia.
  - reflexivity.
Qed.

Lemma nested_loops_all_pass {A : Type} (f : Z -> Z -> option A)
    (g : Z -> Z -> A) (rows cols : list Z) :
  (forall r c, In r rows -> In c cols -> f r c = Some (g r c)) ->
  flat_map (fun r =>
    flat_map (fun c => match f r c with Some x => [x] | None => [] end)
             cols) rows =
  map (fun rc => g (fst rc) (snd rc))
      (flat_map (fun r => map (fun c => (r, c)) cols) rows).
Proof.
  intros H. induction rows as [|r rows IH]; cbn [flat_map map].
  - reflexivity.
  - rewrite map_app, map_map. cbn [fst snd]. f_equal.
    + apply flat_map_singletons. intros c Hc.
      rewrite (H r c) by (auto; now left). reflexivity.
    + apply IH. intros r' c Hr' Hc. apply H; [now right | exact Hc].
Qed.

Lemma bakeCells_inside (numCells : Z) (pntOct : list R) :
  (1 <= numCells)%Z ->
  Z.of_nat (length pntOct) = (3 * (numCells + 1) ^ 2)%Z ->
  bakeCells numCells pntOct =
  map (fun rc => bakedAt pntOct (fst rc) (snd rc)
                         (fst rc * numCells + snd rc))
      (gridPositions numCells).
Proof.
  intros Hn Hlen. unfold bakeCells, gridPositions.
  apply (nested_loops_all_pass
           (bakeCell numCells pntOct)
           (fun r c => bakedAt pntOct r c (r * numCells + c))).
  intros r c Hr Hc. apply in_upto in Hr, Hc.
  apply bakeCell_inside; (assumption || lia).
Qed.

Lemma length_gridPositions (numCells : Z) :
  length (gridPositions numCells) =
  (Z.to_nat (numCells + 1) * Z.to_nat (numCells + 1))%nat.
Proof.
  unfold gridPositions.
  rewrite (length_flat_map_const _ (Z.to_nat (numCells + 1))).
  - now rewrite length_upto.
  - intros r. now rewrite length_map, length_upto.
Qed.

Lemma in_gridPositions (numCells r c : Z) :
  In (r, c) (gridPositions numCells) ->
  (0 <= r <= numCells)%Z /\ (0 <= c <= numCells)%Z.
Proof.
  unfold gridPositions. intros H.
  apply in_flat_map in H as (r' & Hr & H).
  apply in_map_iff in H as (c' & Heq & Hc). injection Heq as <- <-.
  apply in_upto in Hr, Hc. lia.
Qed.

Lemma length_built_pntOct (octType gridSize : Z) (mesh : OctahedralMesh) :
  (0 <= gridSize)%Z ->
  buildOctahedralMesh octType gridSize = Returns mesh ->
  Z.of_nat (length (pntOct mesh)) = (3 * (gridSize + 1) ^ 2)%Z.
Proof.
  intros Hg Hbuild. unfold buildOctahedralMesh in Hbuild.
  assert (Hlen : Z.of_nat (length (createGrid gridSize gridSize 1 1 true)) =
                 (3 * (gridSize + 1) ^ 2)%Z).
  { rewrite length_createGrid. nia. }
  destruct (octType =? HEMI)%Z.
  - injection Hbuild as <-. cbn [pntOct packMesh].
    now rewrite length_octHemi.
  - destruct (octType =? FULL)%Z; [|discriminate].
    injection Hbuild as <-. cbn [pntOct packMesh].
    now rewrite length_octFull.
Qed.

(** C2, amended: the bake goes through the [(gridSize+1)^2] grid positions
    [(rowIdx, colIdx)], both edges included, and renders each of them; the
    view direction used for the cell composited at [(rowIdx, colIdx)] is
    the normalized folded point at index [rowIdx * gridSize + colIdx] of
    the octahedron point array (the stride is [gridSize], not
    [gridSize + 1]), so only the points of index at most
    [gridSize^2 + gridSize] are used. *)
Theorem bake_view_directions (octType gridSize : Z) (mesh : OctahedralMesh) :
  (1 <= gridSize)%Z ->
  buildOctahedralMesh octType gridSize = Returns mesh ->
  map (fun c => (bake_row c, bake_col c))
      (bakeCells gridSize (pntOct mesh)) = gridPositions gridSize /\
  Z.of_nat (length (bakeCells gridSize (pntOct mesh)))
    = ((gridSize + 1) ^ 2)%Z /\
  Forall (fun c =>
            bake_flatIdx c = (bake_row c * gridSize + bake_col c)%Z /\
            (0 <= bake_flatIdx c <= gridSize ^ 2 + gridSize)%Z /\
            exists pt,
              nth_error (points (pntOct mesh)) (Z.to_nat (bake_flatIdx c))
                = Some pt /\
              bake_viewDir c = normalize pt)
         (bakeCells gridSize (pntOct mesh)).
Proof.
  intros Hg Hbuild.
  assert (Hg0 : (0 <= gridSize)%Z) by lia.
  pose proof (length_built_pntOct _ _ _ Hg0 Hbuild) as Hlen.
  rewrite (bakeCells_inside _ _ Hg Hlen).
  split; [|split].
  - rewrite map_map. cbn [bake_row bake_col bakedAt].
    rewrite <- (map_id (gridPositions gridSize)) at 2.
    apply map_ext. now intros [r c].
  - rewrite length_map, length_gridPositions. nia.
  - apply List.Forall_forall. intros cell Hcell.
    apply in_map_iff in Hcell as ([r c] & <- & Hrc).
    apply in_gridPositions in Hrc as [Hr Hc].
    cbn [fst snd bakedAt bake_flatIdx bake_row bake_col bake_viewDir].
    assert (Hidx : (0 <= r * gridSize + c <= gridSize ^ 2 + gridSize)%Z)
      by nia.
    split; [reflexivity|]. split; [exact Hidx|].
    eexists. split; [|reflexivity].
    assert (Hin : (3 * Z.to_nat (r * gridSize + c) + 2
                   < length (pntOct mesh))%nat).
    { replace (3 * (gridSize + 1) ^ 2)%Z
        with (3 * (gridSize ^ 2 + gridSize) + 3 * gridSize + 3)%Z in Hlen
        by ring.
      generalize dependent (r * gridSize + c)%Z.
      generalize dependent (gridSize ^ 2 + gridSize)%Z. intros. lia. }
    rewrite (nth_error_points _ _ Hin). unfold readCoord.
    repeat f_equal; lia.
Qed.

Lemma bake_view_directions_witness :
  Z.of_nat (length (bakeCells 1 (octHemi (createGrid 1 1 1 1 true)))) = 4%Z.
Proof.
  apply (bake_view_directions HEMI 1
           (packMesh (createGrid 1 1 1 1 true)
                     (octHemi (createGrid 1 1 1 1 true))
                     (octPlaneIndices HEMI 1 1))).
  - lia.
  - reflexivity.
Defined.

Lemma bakedAt_viewDir (pntOct : list R) (k : nat) (pt : vec3) (r c : Z) :
  (3 * k + 2 < length pntOct)%nat ->
  nth_error (points pntOct) k = Some pt ->
  bake_viewDir (bakedAt pntOct r c (Z.of_nat k)) = normalize pt.
Proof.
  intros Hin Hpt. rewrite (nth_error_points _ _ Hin) in Hpt.
  injection Hpt as <-. cbn [bakedAt bake_viewDir]. unfold readCoord.
  repeat f_equal; lia.
Qed.

(** A cell whose read-back fails is skipped, the others are drawn: there
    are as many draws as cells when every read-back succeeds, and never
    more. *)
Lemma atlasDraws_count (Image : Type) (renderAndRead : vec3 -> option Image)
    (round : R -> R) (numCells atlasSize : Z) (pntOct : list R) :
  (length (atlasDraws Image renderAndRead round numCells atlasSize pntOct)
   <= length (bakeCells numCells pntOct))%nat /\
  ((forall cameraPosition, is_Some (renderAndRead cameraPosition)) ->
   length (atlasDraws Image renderAndRead round numCells atlasSize pntOct)
   = length (bakeCells numCells pntOct)).
Proof.
  unfold atlasDraws.
  induction (bakeCells numCells pntOct) as [|c cells [IHle IHeq]];
    [split; reflexivity|].
  cbn [flat_map]. rewrite length_app. split.
  - destruct (renderAndRead (bake_cameraPosition c)); cbn; lia.
  - intros Hall. specialize (IHeq Hall).
    destruct (Hall (bake_cameraPosition c)) as [image ->]. cbn. lia.
Qed.

Lemma normalize_scale_pos (a : vec3) :
  exists t, 0 < t /\ normalize a = multiplyScalar a t.
Proof.
  unfold normalize. destruct (Req_dec_T (vlength a) 0) as [Hz|Hnz].
  - exists (1 / 1). split; [lra | reflexivity].
  - exists (1 / vlength a). split; [|reflexivity].
    assert (0 <= vlength a) by apply sqrt_pos.
    apply Rdiv_lt_0_compat; lra.
Qed.

Lemma hemiPoint_vx (px pz : R) :
  exists t, 0 < t /\ vx (hemiPoint px pz) = (px - pz) * t.
Proof.
  unfold hemiPoint; cbn [vx].
  set (m := sqrt _).
  assert (Hm : 0 < m).
  { apply sqrt_square_sum_pos, octahedron_point_sum. }
  exists (radius / m). split.
  - apply Rdiv_lt_0_compat; [unfold radius; lra | exact Hm].
  - field. lra.
Qed.

(** C2, as stated, fails.  On the HEMI mesh of grid size 2 the cell
    composited at (rowIdx, colIdx) = (1, 0) reads the point of index
    1 * 2 + 0 = 2, not 1 * (2 + 1) + 0 = 3, and its view direction is not
    the normalized point of index 3; and no cell reads the last lattice
    point, of index 8, so not every lattice point is visited. *)
Lemma bake_reads_with_stride_gridSize :
  exists mesh c pt,
    buildOctahedralMesh HEMI 2 = Returns mesh /\
    In c (bakeCells 2 (pntOct mesh)) /\
    bake_row c = 1%Z /\ bake_col c = 0%Z /\
    bake_flatIdx c = 2%Z /\
    nth_error (points (pntOct mesh)) (Z.to_nat (1 * (2 + 1) + 0)) = Some pt /\
    bake_viewDir c <> normalize pt /\
    Forall (fun c' => bake_flatIdx c' <> 8%Z) (bakeCells 2 (pntOct mesh)).
Proof.
  set (grid := createGrid 2 2 1 1 true).
  set (mesh := packMesh grid (octHemi grid) (octPlaneIndices HEMI 2 2)).
  assert (Hbuild : buildOctahedralMesh HEMI 2 = Returns mesh)
    by reflexivity.
  assert (Hlen : Z.of_nat (length (pntOct mesh)) = (3 * (2 + 1) ^ 2)%Z).
  { apply (length_built_pntOct HEMI 2 mesh); [lia | exact Hbuild]. }
  assert (Hcells := bakeCells_inside 2 (pntOct mesh) ltac:(lia) Hlen).
  assert (Hp2 : nth_error (points grid) 2 = Some (Vec3 0.5 0 (-0.5))).
  { unfold grid. grid_compute. do 2 f_equal; lra. }
  assert (Hp3 : nth_error (points grid) 3 = Some (Vec3 (-0.5) 0 0)).
  { unfold grid. grid_compute. do 2 f_equal; lra. }
  assert (Hq2 : nth_error (points (pntOct mesh)) 2 =
                Some (hemiPoint 0.5 (-0.5))).
  { cbn [pntOct mesh packMesh]. rewrite points_octHemi.
    now rewrite (map_nth_error (fun p => hemiPoint (vx p) (vz p)) _ _ Hp2). }
  assert (Hq3 : nth_error (points (pntOct mesh)) 3 =
                Some (hemiPoint (-0.5) 0)).
  { cbn [pntOct mesh packMesh]. rewrite points_octHemi.
    now rewrite (map_nth_error (fun p => hemiPoint (vx p) (vz p)) _ _ Hp3). }
  exists mesh, (bakedAt (pntOct mesh) 1 0 (1 * 2 + 0)), (hemiPoint (-0.5) 0).
  split; [exact Hbuild|]. split.
  { rewrite Hcells. apply in_map_iff. exists (1, 0)%Z.
    split; [reflexivity|]. cbv. tauto. }
  split; [reflexivity|]. split; [reflexivity|]. split; [reflexivity|].
  split; [exact Hq3|]. split.
  - assert (Hin : (3 * 2 + 2 < length (pntOct mesh))%nat) by lia.
    change (1 * 2 + 0)%Z with (Z.of_nat 2).
    rewrite (bakedAt_viewDir _ 2 _ _ _ Hin Hq2). intros Heq.
    destruct (normalize_scale_pos (hemiPoint 0.5 (-0.5))) as (t2 & Ht2 & E2).
    destruct (normalize_scale_pos (hemiPoint (-0.5) 0)) as (t3 & Ht3 & E3).
    destruct (hemiPoint_vx 0.5 (-0.5)) as (s2 & Hs2 & X2).
    destruct (hemiPoint_vx (-0.5) 0) as (s3 & Hs3 & X3).
    apply (f_equal vx) in Heq. rewrite E2, E3 in Heq.
    cbn [vx multiplyScalar] in Heq. rewrite X2, X3 in Heq.
    assert (0 < (0.5 - -0.5) * s2 * t2).
    { apply Rmult_lt_0_compat; [apply Rmult_lt_0_compat|]; lra. }
    assert (0 < (0 - (-0.5 - 0)) * s3 * t3).
    { apply Rmult_lt_0_compat; [apply Rmult_lt_0_compat|]; lra. }
    lra.
  - rewrite Hcells. apply List.Forall_forall. intros c' Hc'.
    apply in_map_iff in Hc' as ([r c0] & <- & Hrc).
    apply in_gridPositions in Hrc. cbn [bakedAt bake_flatIdx fst snd]. lia.
Qed.

End BakeLoop.

(** ** Direction hysteresis *)

Section Hysteresis.
Local Open Scope R_scope.

Lemma sample_freshCache (octType gridSize : Z)
    (direction indicesTarget weightsTarget : vec3) :
  (1 <= gridSize)%Z ->
  exists i0 i1 i2 weights,
    sampleOctahedralDirection direction
      (Some (freshCache octType gridSize)) indicesTarget weightsTarget
      = (true, Vec3 (IZR i0) (IZR i1) (IZR i2), weights) /\
    weights_ok weights /\
    (0 <= i0 < (gridSize + 1) * (gridSize + 1))%Z /\
    (0 <= i1 < (gridSize + 1) * (gridSize + 1))%Z /\
    (0 <= i2 < (gridSize + 1) * (gridSize + 1))%Z.
Proof.
  intros Hg. unfold sampleOctahedralDirection.
  set (uv := encodeDirectionToOctUV direction).
  cbn [cache_gridSize cells freshCache].
  set (col := clampIndex (floor (u uv * IZR gridSize)) (gridSize - 1)).
  set (row := clampIndex (floor (v uv * IZR gridSize)) (gridSize - 1)).
  assert (Hcol : (0 <= col < gridSize)%Z).
  { pose proof (clampIndex_range (floor (u uv * IZR gridSize))
                                 (gridSize - 1)). subst col. lia. }
  assert (Hrow : (0 <= row < gridSize)%Z).
  { pose proof (clampIndex_range (floor (v uv * IZR gridSize))
                                 (gridSize - 1)). subst row. lia. }
  destruct (readCell_buildCells
              (octPlaneIndices octType gridSize gridSize)
              gridSize row col Hrow Hcol) as (cell & -> & Hin).
  assert (Hpos : (0 < (gridSize + 1) * (gridSize + 1))%Z) by nia.
  pose proof (buildCells_in_range ((gridSize + 1) * (gridSize + 1))
                (octPlaneIndices octType gridSize gridSize) gridSize
                Hpos (octPlaneIndices_range _ _ _)) as Hall.
  rewrite List.Forall_forall in Hall. specialize (Hall cell Hin).
  set (localU := clampLocal _). set (localV := clampLocal _).
  assert (Htri : triangle_in_range ((gridSize + 1) * (gridSize + 1))
                                   (pickTriangle cell localU localV)).
  { destruct Hall as [H1 H2]. unfold pickTriangle.
    destruct (isBackslash cell && gtb localU localV); [exact H2|].
    destruct (negb (isBackslash cell) && gtb (localU + localV) 1);
      [exact H2 | exact H1]. }
  unfold triangle_in_range in Htri.
  destruct (tri_indices (pickTriangle cell localU localV))
    as [[i0 i1] i2].
  exists i0, i1, i2. eexists. split; [reflexivity|].
  split; [apply computeBarycentric2D_weights_ok | exact Htri].
Qed.

Lemma vlength_sqr (a : vec3) :
  vlength a * vlength a = vx a * vx a + vy a * vy a + vz a * vz a.
Proof. unfold vlength. apply sqrt_sqrt. nra. Qed.










End Hysteresis.

(** ** Deduplication of atlas requests *)

Module AtlasRequestsFacts.
Import AtlasRequests.

Lemma countBakeJobs_app (key : cacheKey) (q1 q2 : list job) :
  countBakeJobs key (q1 ++ q2) = countBakeJobs key q1 + countBakeJobs key q2.
Proof. unfold countBakeJobs. now rewrite filter_app, length_app. Qed.

Lemma countBakeJobs_cons (key : cacheKey) (j : job) (q : list job) :
  countBakeJobs key (j :: q) =
  (if isBakeJob key j then 1 else 0) + countBakeJobs key q.
Proof.
  unfold countBakeJobs. destruct (isBakeJob key j) eqn:E.
  - now rewrite filter_cons_True.
  - rewrite filter_cons_False; [reflexivity|]. rewrite E. discriminate.
Qed.

Lemma countBakeJobs_single (key : cacheKey) (j : job) :
  countBakeJobs key [j] = if isBakeJob key j then 1 else 0.
Proof. rewrite countBakeJobs_cons. cbn. lia. Qed.

Lemma countBakeJobs_waiters (key : cacheKey) (outcome : settlement)
    (ws : list requester) :
  countBakeJobs key (map (fun r => JobWaiter r outcome) ws) = 0.
Proof.
  induction ws as [|r ws IH]; [reflexivity|].
  cbn [map]. rewrite countBakeJobs_cons. exact IH.
Qed.

Lemma oneInFlight_init : oneInFlight init.
Proof. intros key. unfold inFlight. cbn. split; [lia | discriminate]. Qed.

Lemma oneInFlight_effect r key bakeOk w :
  oneInFlight w -> oneInFlight (effect r key bakeOk w).
Proof.
  intros Inv. unfold effect.
  destruct (atlasCache w !! key) as [cached|] eqn:Ec; [exact Inv|].
  destruct (pendingAtlasPromises w !! key) as [p|] eqn:Ep.
  - unfold attach. destruct (promises w !! p) as [pr|]; [|exact Inv].
    destruct (settled pr) as [outcome|]; [|exact Inv].
    intros k. destruct (Inv k) as [H1 H2]. unfold inFlight in *.
    cbn [queue enqueue pendingAtlasPromises].
    rewrite countBakeJobs_app, countBakeJobs_single. cbn [isBakeJob].
    rewrite Nat.add_0_r. now split.
  - intros k. destruct (Inv k) as [H1 H2]. unfold inFlight in *.
    cbn [queue startBake pendingAtlasPromises].
    rewrite countBakeJobs_app, countBakeJobs_single. cbn [isBakeJob].
    destruct (decide (key = k)) as [->|Hne].
    + rewrite bool_decide_eq_true_2 by reflexivity.
      rewrite lookup_insert_eq.
      assert (H0 : countBakeJobs k (queue w) = 0).
      { destruct (countBakeJobs k (queue w)) as [|[|n]]; [reflexivity| |lia].
        destruct (H2 eq_refl) as [x Hx]. congruence. }
      rewrite H0. split; [lia | eauto].
    + rewrite bool_decide_eq_false_2 by exact Hne.
      rewrite lookup_insert_ne by exact Hne.
      rewrite Nat.add_0_r. now split.
Qed.

Lemma oneInFlight_microtask w : oneInFlight w -> oneInFlight (microtask w).
Proof.
  intros Inv. unfold microtask.
  destruct (queue w) as [|j rest] eqn:Eq; [exact Inv|].
  assert (Hhead : forall k, (if isBakeJob k j then 1 else 0)
                            + countBakeJobs k rest <= 1 /\
                  ((if isBakeJob k j then 1 else 0)
                     + countBakeJobs k rest = 1 ->
                   is_Some (pendingAtlasPromises w !! k))).
  { intros k. destruct (Inv k) as [H1 H2]. unfold inFlight in *.
    rewrite Eq, countBakeJobs_cons in *. now split. }
  destruct j as [p key owner [made|] | key | r [cached|]];
    intros k; specialize (Hhead k); destruct Hhead as [H1 H2];
    unfold inFlight;
    cbn [runJob settle setAtlas queue pendingAtlasPromises isBakeJob] in *.
  - rewrite countBakeJobs_app, countBakeJobs_cons, countBakeJobs_waiters.
    cbn [isBakeJob]. rewrite Nat.add_0_r.
    replace (countBakeJobs k rest + (if bool_decide (key = k) then 1 else 0))
      with ((if bool_decide (key = k) then 1 else 0) + countBakeJobs k rest)
      by lia.
    now split.
  - rewrite countBakeJobs_app, countBakeJobs_cons, countBakeJobs_waiters.
    cbn [isBakeJob]. rewrite Nat.add_0_r.
    replace (countBakeJobs k rest + (if bool_decide (key = k) then 1 else 0))
      with ((if bool_decide (key = k) then 1 else 0) + countBakeJobs k rest)
      by lia.
    now split.
  - destruct (decide (key = k)) as [->|Hne].
    + rewrite bool_decide_eq_true_2 in H1 by reflexivity.
      split; [lia|]. intros H. lia.
    + rewrite bool_decide_eq_false_2 in H1, H2 by exact Hne.
      rewrite lookup_delete_ne by exact Hne. now split.
  - now split.
  - now split.
Qed.

Lemma oneInFlight_run (events : list event) (w : world) :
  oneInFlight w -> oneInFlight (run w events).
Proof.
  revert w. induction events as [|e events IH]; intros w Inv; [exact Inv|].
  cbn [run fold_left]. apply IH.
  destruct e as [r key bakeOk|]; cbn [step].
  - now apply oneInFlight_effect.
  - now apply oneInFlight_microtask.
Qed.

Lemma is_Some_insert {V : Type} (m : gmap cacheKey V) (key k : cacheKey)
    (x : V) :
  is_Some (m !! k) -> is_Some (<[key := x]> m !! k).
Proof.
  intros H. destruct (decide (key = k)) as [->|Hne].
  - rewrite lookup_insert_eq. eauto.
  - now rewrite lookup_insert_ne.
Qed.

Lemma bakeCount_absent (key : cacheKey) (l : list cacheKey) :
  key ∉ l -> length (filter (fun k => k = key) l) = 0.
Proof.
  induction l as [|k l IH]; intros H; [reflexivity|].
  apply not_elem_of_cons in H as [Hne Hl].
  rewrite filter_cons_False by congruence. now apply IH.
Qed.

Lemma bakedOnce_init : bakedOnce init.
Proof.
  repeat split; cbn; intros.
  - exfalso. eapply not_elem_of_nil; eassumption.
  - exfalso. eapply not_elem_of_nil; eassumption.
  - exfalso. eapply not_elem_of_nil; eassumption.
  - unfold bakeCount. cbn. lia.
Qed.

Lemma bakedOnce_effect r key w :
  bakedOnce w -> bakedOnce (effect r key true w).
Proof.
  intros (Hb & Hf & Hd & Hc). unfold effect.
  destruct (atlasCache w !! key) as [cached|] eqn:Ec.
  { repeat split; assumption. }
  destruct (pendingAtlasPromises w !! key) as [p|] eqn:Ep.
  - unfold attach. destruct (promises w !! p) as [pr|];
      [|repeat split; assumption].
    destruct (settled pr) as [outcome|]; [|repeat split; assumption].
    repeat split; cbn [enqueue queue atlasCache pendingAtlasPromises bakes];
      try assumption.
    + intros k Hk. apply elem_of_app in Hk as [Hk|Hk]; [now apply Hf|].
      apply list_elem_of_singleton in Hk. discriminate.
    + intros p' k r' out Hk. apply elem_of_app in Hk as [Hk|Hk];
        [now apply (Hd p' k r')|].
      apply list_elem_of_singleton in Hk. discriminate.
  - repeat split;
      cbn [startBake queue atlasCache pendingAtlasPromises bakes].
    + intros k Hk. apply elem_of_app in Hk as [Hk|Hk].
      * destruct (Hb k Hk) as [H|H]; [now left|].
        right. now apply is_Some_insert.
      * apply list_elem_of_singleton in Hk as ->. right.
        rewrite lookup_insert_eq. eauto.
    + intros k Hk. apply elem_of_app in Hk as [Hk|Hk]; [now apply Hf|].
      apply list_elem_of_singleton in Hk. discriminate.
    + intros p' k r' out Hk. apply elem_of_app in Hk as [Hk|Hk];
        [now apply (Hd p' k r')|].
      apply list_elem_of_singleton in Hk. injection Hk as _ _ _ ->. eauto.
    + intros k. unfold bakeCount in *.
      cbn [startBake bakes]. rewrite filter_app, length_app.
      destruct (decide (key = k)) as [->|Hne].
      * rewrite filter_cons_True by reflexivity.
        rewrite bakeCount_absent; [cbn; lia|].
        intros Hin. destruct (Hb k Hin) as [[x Hx]|[x Hx]]; congruence.
      * rewrite (filter_cons_False _ key) by exact Hne.
        specialize (Hc k). cbn. lia.
Qed.

Lemma bakedOnce_microtask w : bakedOnce w -> bakedOnce (microtask w).
Proof.
  intros Inv. pose proof Inv as (Hb & Hf & Hd & Hc). unfold microtask.
  destruct (queue w) as [|j rest] eqn:Eq; [exact Inv|].
  assert (Hf' : forall k, JobFinally k ∈ rest -> is_Some (atlasCache w !! k)).
  { intros k Hk. apply Hf. now right. }
  assert (Hd' : forall p k r out,
                  JobBakeDone p k r out ∈ rest -> is_Some out).
  { intros p k r out Hk. apply (Hd p k r). now right. }
  destruct j as [p key owner [made|] | key | r [cached|]];
    cbn [runJob].
  - repeat split;
      cbn [settle setAtlas queue atlasCache pendingAtlasPromises bakes].
    + intros k Hk. destruct (Hb k Hk) as [H|H]; [left|now right].
      now apply is_Some_insert.
    + intros k Hk. apply elem_of_app in Hk as [Hk|Hk].
      * apply is_Some_insert. now apply Hf'.
      * apply elem_of_cons in Hk as [Hk|Hk].
        -- injection Hk as ->. rewrite lookup_insert_eq. eauto.
        -- apply list_elem_of_fmap in Hk as (x & Hx & _). discriminate.
    + intros p' k r' out Hk. apply elem_of_app in Hk as [Hk|Hk];
        [now apply (Hd' p' k r')|].
      apply elem_of_cons in Hk as [Hk|Hk]; [discriminate|].
      apply list_elem_of_fmap in Hk as (x & Hx & _). discriminate.
    + exact Hc.
  - exfalso. destruct (Hd p key owner None) as [x Hx]; [left|discriminate].
  - repeat split; cbn [queue atlasCache pendingAtlasPromises bakes];
      try assumption.
    intros k Hk. destruct (Hb k Hk) as [H|H]; [now left|].
    destruct (decide (key = k)) as [->|Hne].
    + left. apply Hf. left.
    + right. now rewrite lookup_delete_ne.
  - repeat split; assumption.
  - repeat split; assumption.
Qed.

Lemma bakedOnce_run (events : list event) (w : world) :
  allBakesOk events -> bakedOnce w -> bakedOnce (run w events).
Proof.
  revert w. induction events as [|e events IH]; intros w Hok Inv;
    [exact Inv|].
  apply Forall_cons in Hok as [He Hok].
  cbn [run fold_left]. apply IH; [exact Hok|].
  destruct e as [r key bakeOk|]; cbn [step].
  - subst bakeOk. now apply bakedOnce_effect.
  - now apply bakedOnce_microtask.
Qed.

Lemma run_app (w : world) (es1 es2 : list event) :
  run w (es1 ++ es2) = run (run w es1) es2.
Proof. unfold run. apply fold_left_app. Qed.

Section ConcurrentRequests.

Variable w : world.
Variable key : cacheKey.
Variable owner : requester.
Hypothesis not_cached : atlasCache w !! key = None.
Hypothesis not_pending : pendingAtlasPromises w !! key = None.
Hypothesis quiescent : queue w = [].

Let made : payload := length (bakes w).

Lemma first_request_bakes :
  effect owner key true w = bakePending w key owner [].
Proof.
  unfold effect. rewrite not_cached, not_pending.
  unfold startBake, bakePending. now rewrite quiescent.
Qed.

Lemma next_request_attaches (r : requester) (ws : list requester) :
  effect r key true (bakePending w key owner ws) =
  bakePending w key owner (ws ++ [r]).
Proof.
  unfold effect. cbn [bakePending atlasCache pendingAtlasPromises].
  rewrite not_cached, lookup_insert_eq. unfold attach.
  cbn [bakePending promises].
  pose proof (list_lookup_middle (promises w) []
                {| settled := None; waiters := ws |}
                (length (promises w)) eq_refl) as Hlast.
  rewrite Hlast. cbn [settled waiters]. unfold bakePending. f_equal.
  rewrite insert_app_r_alt by lia. now rewrite Nat.sub_diag.
Qed.

Lemma requests_attach (rs ws : list requester) :
  run (bakePending w key owner ws) (requestsOf key rs) =
  bakePending w key owner (ws ++ rs).
Proof.
  revert ws. induction rs as [|r rs IH]; intros ws.
  - now rewrite app_nil_r.
  - cbn [requestsOf map run fold_left step].
    rewrite next_request_attaches.
    change (fold_left step (map (fun r => Effect r key true) rs) ?x)
      with (run x (requestsOf key rs)).
    rewrite IH. now rewrite <- app_assoc.
Qed.

(** The world once the bake callback and the [finally] callback have run:
    the payload is cached, the key is no longer pending and the callbacks of
    the waiters are queued. *)
Lemma bake_settles (ws : list requester) :
  run (bakePending w key owner ws) [Microtask; Microtask] =
  withQueueAtlas
    {| atlasCache := <[key := made]> (atlasCache w);
       pendingAtlasPromises :=
         delete key (<[key := length (promises w)]>
                       (pendingAtlasPromises w));
       promises :=
         <[length (promises w) :=
             {| settled := Some (Some made); waiters := [] |}]>
           (promises w ++ [{| settled := None; waiters := ws |}]);
       queue := [];
       atlas := atlas w;
       bakes := bakes w ++ [key] |}
    (map (fun r => JobWaiter r (Some made)) ws)
    (<[owner := made]> (atlas w)).
Proof.
  unfold run. cbn [fold_left step].
  unfold microtask at 2. cbn [bakePending queue runJob].
  unfold settle, setAtlas.
  cbn [bakePending promises queue atlasCache pendingAtlasPromises atlas
       bakes].
  pose proof (list_lookup_middle (promises w) []
                {| settled := None; waiters := ws |}
                (length (promises w)) eq_refl) as Hlast.
  rewrite Hlast. cbn [waiters app].
  unfold microtask. cbn [queue runJob]. reflexivity.
Qed.

Lemma waiters_served (v : world) (ws : list requester)
    (a : gmap requester payload) (t : payload) :
  run (withQueueAtlas v (map (fun r => JobWaiter r (Some t)) ws) a)
      (replicate (length ws) Microtask) =
  withQueueAtlas v [] (foldl (fun a r => <[r := t]> a) a ws).
Proof.
  revert a. induction ws as [|r ws IH]; intros a; [reflexivity|].
  cbn [length replicate run fold_left step map foldl].
  unfold microtask at 1. cbn [withQueueAtlas queue runJob setAtlas
    atlasCache pendingAtlasPromises promises atlas bakes].
  apply (IH (<[r := t]> a)).
Qed.

Lemma served_lookup (ws : list requester) (a : gmap requester payload)
    (t : payload) (r : requester) :
  r ∈ ws \/ a !! r = Some t ->
  foldl (fun a r => <[r := t]> a) a ws !! r = Some t.
Proof.
  revert a. induction ws as [|r' ws IH]; intros a H; cbn [foldl].
  - destruct H as [H|H]; [|exact H]. exfalso. eapply not_elem_of_nil, H.
  - apply IH. destruct (decide (r' = r)) as [->|Hne].
    + right. now rewrite lookup_insert_eq.
    + destruct H as [H|H].
      * apply elem_of_cons in H as [->|H]; [congruence|now left].
      * right. now rewrite lookup_insert_ne.
Qed.

(** Concurrent requests for a fresh key: the first one bakes, the others,
    made before any microtask runs, attach; once the microtasks they leave
    have run, one bake was executed and every requester holds its
    payload. *)
Lemma concurrent_requests_one_bake (rs : list requester) :
  let w' := run w (Effect owner key true :: requestsOf key rs ++
                   replicate (2 + length rs) Microtask) in
  bakes w' = bakes w ++ [key] /\
  (forall r, r ∈ owner :: rs -> atlas w' !! r = Some made) /\
  atlasCache w' !! key = Some made /\
  pendingAtlasPromises w' !! key = None /\
  queue w' = [].
Proof.
  intros w'. subst w'.
  change (run w (Effect owner key true :: ?es))
    with (run (effect owner key true w) es).
  rewrite first_request_bakes, run_app, requests_attach. cbn [app].
  change (replicate (2 + length rs) Microtask)
    with ([Microtask; Microtask] ++ replicate (length rs) Microtask).
  rewrite run_app, bake_settles, waiters_served.
  cbn [withQueueAtlas bakes atlas atlasCache pendingAtlasPromises queue].
  repeat split.
  - intros r Hr. apply served_lookup.
    apply elem_of_cons in Hr as [->|Hr]; [right|now left].
    now rewrite lookup_insert_eq.
  - now rewrite lookup_insert_eq.
  - now rewrite lookup_delete_eq.
Qed.

End ConcurrentRequests.

Lemma effect_attaches (r : requester) (key : cacheKey) (bakeOk : bool)
    (w : world) :
  is_Some (atlasCache w !! key) \/
  is_Some (pendingAtlasPromises w !! key) ->
  bakes (effect r key bakeOk w) = bakes w.
Proof.
  intros H. unfold effect.
  destruct (atlasCache w !! key) as [cached|]; [reflexivity|].
  destruct (pendingAtlasPromises w !! key) as [p|].
  - unfold attach. destruct (promises w !! p) as [pr|]; [|reflexivity].
    destruct (settled pr); reflexivity.
  - destruct H as [[x Hx]|[x Hx]]; discriminate.
Qed.

Lemma two_positions_counted (key : cacheKey) (l : list cacheKey)
    (i j : nat) :
  l !! i = Some key -> l !! j = Some key -> i <> j ->
  2 <= length (filter (fun k => k = key) l).
Proof.
  revert i j. induction l as [|k l IH]; intros i j Hi Hj Hne.
  - discriminate.
  - assert (Hpos : forall n, l !! n = Some key ->
                             1 <= length (filter (fun k => k = key) l)).
    { intros n Hn. apply list_elem_of_lookup_2 in Hn.
      assert (Hin : key ∈ filter (fun k => k = key) l).
      { apply list_elem_of_filter. now split. }
      destruct (filter (fun k => k = key) l).
      - exfalso. eapply not_elem_of_nil, Hin.
      - cbn. lia. }
    destruct i as [|i], j as [|j]; cbn in Hi, Hj.
    + congruence.
    + injection Hi as ->. rewrite filter_cons_True by reflexivity.
      cbn. specialize (Hpos j Hj). lia.
    + injection Hj as ->. rewrite filter_cons_True by reflexivity.
      cbn. specialize (Hpos i Hi). lia.
    + assert (2 <= length (filter (fun k => k = key) l))
        by (apply (IH i j); auto).
      destruct (decide (k = key)) as [->|Hk].
      * rewrite filter_cons_True by reflexivity. cbn. lia.
      * now rewrite filter_cons_False.
Qed.

(** C9: in every run of effects and microtasks from the empty caches, a
    key never has two bakes under way at once; a request for a key that is
    cached or pending starts no bake; when no bake fails, a key is baked at
    most once in the whole run, so two atlases held for the same key are
    the same payload; and concurrent requests for a fresh key, all made
    before the first microtask runs, execute one bake, and once the
    microtasks have run every requester holds the payload of that bake,
    which is also the one cached. *)
Theorem atlas_bake_deduplicated (events : list event) (key : cacheKey) :
  let w := run init events in
  inFlight w key <= 1 /\
  (forall r bakeOk,
     is_Some (atlasCache w !! key) \/
     is_Some (pendingAtlasPromises w !! key) ->
     bakes (effect r key bakeOk w) = bakes w) /\
  (allBakesOk events ->
   bakeCount w key <= 1 /\
   forall (r1 r2 : requester) (t1 t2 : payload),
     atlas w !! r1 = Some t1 -> atlas w !! r2 = Some t2 ->
     bakes w !! t1 = Some key -> bakes w !! t2 = Some key ->
     t1 = t2) /\
  (forall (owner : requester) (rs : list requester),
     atlasCache w !! key = None ->
     pendingAtlasPromises w !! key = None ->
     queue w = [] ->
     let made : payload := length (bakes w) in
     let w' := run w (Effect owner key true :: requestsOf key rs ++
                      replicate (2 + length rs) Microtask) in
     bakes w' = bakes w ++ [key] /\
     (forall r, r ∈ owner :: rs -> atlas w' !! r = Some made) /\
     atlasCache w' !! key = Some made /\
     pendingAtlasPromises w' !! key = None /\
     queue w' = []).
Proof.
  intros w. split; [|split; [|split]].
  - apply (oneInFlight_run events init oneInFlight_init).
  - intros r bakeOk. apply effect_attaches.
  - intros Hok.
    destruct (bakedOnce_run events init Hok bakedOnce_init)
      as (_ & _ & _ & Hcount).
    fold w in Hcount. split; [apply Hcount|].
    intros r1 r2 t1 t2 _ _ H1 H2.
    destruct (decide (t1 = t2)) as [|Hne]; [assumption|].
    pose proof (two_positions_counted key (bakes w) t1 t2 H1 H2 Hne).
    specialize (Hcount key). unfold bakeCount in Hcount. lia.
  - intros owner rs Hc Hp Hq. now apply concurrent_requests_one_bake.
Qed.

Lemma atlas_bake_deduplicated_witness :
  bakeCount (run init [Effect 1 "tree|g8|a2048|o0" true;
                       Effect 2 "tree|g8|a2048|o0" true;
                       Microtask; Microtask; Microtask])
            "tree|g8|a2048|o0" <= 1.
Proof.
  pose proof (atlas_bake_deduplicated
                [Effect 1 "tree|g8|a2048|o0" true;
                 Effect 2 "tree|g8|a2048|o0" true;
                 Microtask; Microtask; Microtask]
                "tree|g8|a2048|o0") as H.
  cbv zeta in H. destruct H as (_ & _ & H & _).
  apply H. repeat constructor.
Defined.

End AtlasRequestsFacts.

(** * Further properties *)

(** ** Flat indices and grid coordinates *)

Module FlatIndexFacts.
Import FlatIndex.

Lemma Qfloor_div_Z (i g : Z) :
  g <> 0%Z -> Qfloor (inject_Z i / inject_Z g) = (i / g)%Z.
Proof.
  intros Hg. unfold Qfloor, Qdiv, Qinv, Qmult, inject_Z.
  destruct g as [|p|p]; [congruence| |]; cbn [Qnum Qden].
  - rewrite Pos.mul_1_l. f_equal. lia.
  - rewrite Pos.mul_1_l. rewrite <- (Z.div_opp_opp i (Z.neg p)) by lia.
    f_equal. lia.
Qed.

Lemma js_int_of_Z (z : Z) : js_int (of_Z z) = Some z.
Proof.
  unfold js_int, of_Z, inject_Z; cbn [Qnum Qden].
  rewrite Z.rem_1_r, Z.quot_1_r. reflexivity.
Qed.

Lemma flatIndexToCoords_row (i g : Z) :
  g <> 0%Z ->
  row (flatIndexToCoords (of_Z i) (of_Z g)) = of_Z (i / g).
Proof.
  intros Hg. unfold flatIndexToCoords, js_div, of_Z; cbn [row].
  unfold Qzero; cbn [inject_Z Qnum].
  destruct (Z.eqb_spec g 0); [contradiction|].
  cbn [js_floor]. do 2 f_equal. now apply Qfloor_div_Z.
Qed.

Lemma flatIndexToCoords_col (i g : Z) :
  g <> 0%Z ->
  js_int (col (flatIndexToCoords (of_Z i) (of_Z g))) = Some (i mod g)%Z.
Proof.
  intros Hg. unfold flatIndexToCoords; cbn [col].
  change (js_floor (js_div (of_Z i) (of_Z g)))
    with (row (flatIndexToCoords (of_Z i) (of_Z g))).
  rewrite flatIndexToCoords_row by exact Hg.
  unfold js_sub, js_mul, js_neg, js_add, of_Z, js_int, inject_Z,
    Qplus, Qmult, Qopp; cbn [Qnum Qden Pos.mul].
  rewrite Z.rem_1_r, Z.quot_1_r. f_equal.
  rewrite (Z.mod_eq i g) by exact Hg.
  change (Z.pos (1 * 1)) with 1%Z. nia.
Qed.

Lemma coordsToFlatIndex_of_Z (r c g : Z) :
  coordsToFlatIndex (of_Z r) (of_Z c) (of_Z g) = of_Z (r * g + c).
Proof.
  unfold coordsToFlatIndex, js_add, js_mul, of_Z, inject_Z, Qplus, Qmult;
    cbn [Qnum Qden Pos.mul].
  do 2 f_equal. change (Z.pos (1 * 1)) with 1%Z. ring.
Qed.

(** X1: for a grid size other than zero and an integer index, both of
    absolute value at most 2^52 (where the division, the product and the
    subtraction of the doubles are exact, as they are here),
    [flatIndexToCoords] returns the floor quotient as row and the remainder
    as column, the column lies between 0 and [gridSize] for a positive grid
    size, and [coordsToFlatIndex] of the two gives the index back. *)
Theorem flatIndexToCoords_roundtrip (i g : Z) :
  g <> 0%Z -> (Z.abs i <= 2 ^ 52)%Z -> (Z.abs g <= 2 ^ 52)%Z ->
  let c := flatIndexToCoords (of_Z i) (of_Z g) in
  row c = of_Z (i / g) /\
  js_int (col c) = Some (i mod g)%Z /\
  ((0 < g)%Z -> (0 <= i mod g < g)%Z) /\
  js_int (coordsToFlatIndex (row c) (col c) (of_Z g)) = Some i.
Proof.
  intros Hg _ _ c. pose proof (flatIndexToCoords_row i g Hg) as Hrow.
  pose proof (flatIndexToCoords_col i g Hg) as Hcol.
  fold c in Hrow, Hcol. repeat split; try assumption.
  - apply Z.mod_pos_bound. assumption.
  - apply Z.mod_pos_bound. assumption.
  - rewrite Hrow. destruct (col c) as [q| |]; try discriminate.
    unfold js_int in Hcol.
    destruct (Z.rem (Qnum q) (Z.pos (Qden q)) =? 0)%Z eqn:E;
      [|discriminate].
    injection Hcol as Hq. apply Z.eqb_eq in E.
    unfold coordsToFlatIndex, js_add, js_mul, of_Z, inject_Z, js_int,
      Qplus, Qmult; cbn [Qnum Qden Pos.mul].
    rewrite Pos.mul_1_l.
    assert (Hn : Qnum q = (Z.pos (Qden q) * (i mod g))%Z).
    { rewrite <- Hq. rewrite (Z.quot_rem' (Qnum q) (Z.pos (Qden q))) at 1.
      lia. }
    rewrite Hn.
    replace (i / g * g * Z.pos (Qden q) + Z.pos (Qden q) * (i mod g) * 1)%Z
      with (i * Z.pos (Qden q))%Z.
    + rewrite Z.rem_mul by lia. cbn [Z.eqb].
      rewrite Z.quot_mul by lia. reflexivity.
    + rewrite (Z.div_mod i g) at 1 by exact Hg. ring.
Qed.

Lemma flatIndexToCoords_roundtrip_witness :
  js_int (coordsToFlatIndex
            (row (flatIndexToCoords (of_Z 11) (of_Z 4)))
            (col (flatIndexToCoords (of_Z 11) (of_Z 4))) (of_Z 4))
  = Some 11%Z.
Proof.
  apply (flatIndexToCoords_roundtrip 11 4); lia.
Defined.

(** X2: for a positive grid size, a column inside the grid
    ([0 <= c < gridSize]) and a row with [|row| * gridSize + gridSize] at
    most 2^52 (so that the flat index and the quotient are exact doubles),
    [flatIndexToCoords] undoes [coordsToFlatIndex]. *)
Theorem coordsToFlatIndex_roundtrip (r c g : Z) :
  (0 <= c < g)%Z -> (Z.abs r * g + g <= 2 ^ 52)%Z ->
  let back := flatIndexToCoords
                (coordsToFlatIndex (of_Z r) (of_Z c) (of_Z g)) (of_Z g) in
  row back = of_Z r /\ js_int (col back) = Some c.
Proof.
  intros Hc _ back. unfold back. rewrite coordsToFlatIndex_of_Z.
  rewrite flatIndexToCoords_row, flatIndexToCoords_col by lia.
  split.
  - f_equal. rewrite Z.div_add_l by lia. rewrite Z.div_small by lia. lia.
  - f_equal. rewrite Z.add_comm, Z.mod_add by lia. apply Z.mod_small. lia.
Qed.

Lemma coordsToFlatIndex_roundtrip_witness :
  row (flatIndexToCoords
         (coordsToFlatIndex (of_Z 2) (of_Z 3) (of_Z 4)) (of_Z 4)) = of_Z 2.
Proof.
  apply (coordsToFlatIndex_roundtrip 2 3 4); lia.
Defined.

(** X3: with a grid size of zero the division of [flatIndexToCoords] is by
    zero: for every index the column is NaN, the row is NaN for index 0 and
    an infinity otherwise, and [coordsToFlatIndex] of the two is NaN, so
    the index is lost. *)
Theorem flatIndexToCoords_gridSize_zero (i : Z) :
  let c := flatIndexToCoords (of_Z i) (of_Z 0) in
  col c = JNaN /\
  row c = (if (i =? 0)%Z then JNaN else JInf (i <? 0)%Z) /\
  coordsToFlatIndex (row c) (col c) (of_Z 0) = JNaN.
Proof.
  unfold flatIndexToCoords, coordsToFlatIndex, js_div, js_sub, js_mul,
    js_add, js_neg, js_floor, of_Z, Qzero, Qneg; cbn [inject_Z Qnum row col].
  destruct (Z.eqb_spec i 0) as [->|Hi]; cbn; [repeat split|].
  destruct (i <? 0)%Z; repeat split.
Qed.

End FlatIndexFacts.

(** ** The cell the shader samples against the cell the bake drew *)

Section ShaderAndBake.

Lemma shaderCellIndex_coords (flatIndex gridSize : jsnum) :
  shaderCellIndex flatIndex gridSize =
  (FlatIndex.col (FlatIndex.flatIndexToCoords flatIndex gridSize),
   FlatIndex.row (FlatIndex.flatIndexToCoords flatIndex gridSize)).
Proof. reflexivity. Qed.

(** X4: for a grid size of at least one and a vertex index [i >= 0], the
    material computes the cell of row [i / gridSize] and column
    [i mod gridSize].  When [i < gridSize * (gridSize + 1)] this is a grid
    position of the bake, and the bake rendered that cell from the
    octahedron point of index [i] itself; from
    [gridSize * (gridSize + 1)] on, the row is beyond the last row the bake
    goes through. *)
Theorem shader_cell_against_bake (gridSize i : Z) (pntOct : list R) :
  (1 <= gridSize)%Z ->
  Z.of_nat (length pntOct) = (3 * (gridSize + 1) ^ 2)%Z ->
  (0 <= i)%Z ->
  let r := (i / gridSize)%Z in
  let c := (i mod gridSize)%Z in
  snd (shaderCellIndex (of_Z i) (of_Z gridSize)) = of_Z r /\
  FlatIndex.js_int (fst (shaderCellIndex (of_Z i) (of_Z gridSize)))
    = Some c /\
  ((i < gridSize * (gridSize + 1))%Z ->
   In (r, c) (gridPositions gridSize) /\
   bakeCell gridSize pntOct r c = Some (bakedAt pntOct r c i)) /\
  ((gridSize * (gridSize + 1) <= i)%Z ->
   Forall (fun cell => bake_row cell <> r) (bakeCells gridSize pntOct)).
Proof.
  intros Hg Hlen Hi r c. rewrite shaderCellIndex_coords. cbn [fst snd].
  assert (Hg0 : gridSize <> 0%Z) by lia.
  split; [now apply FlatIndexFacts.flatIndexToCoords_row|].
  split; [now apply FlatIndexFacts.flatIndexToCoords_col|].
  assert (Hc : (0 <= c < gridSize)%Z) by (apply Z.mod_pos_bound; lia).
  assert (Hdm : i = (gridSize * r + c)%Z) by (apply Z.div_mod; lia).
  split.
  - intros Hlt. assert (Hr : (0 <= r <= gridSize)%Z).
    { split; [apply Z.div_pos; lia|].
      assert (r < gridSize + 1)%Z; [|lia].
      apply Z.div_lt_upper_bound; lia. }
    split.
    + unfold gridPositions. apply in_flat_map. exists r. split.
      * apply in_upto. lia.
      * apply in_map. apply in_upto. lia.
    + rewrite (bakeCell_inside gridSize pntOct r c Hg Hlen) by lia.
      do 2 f_equal. lia.
  - intros Hge. rewrite (bakeCells_inside _ _ Hg Hlen).
    apply List.Forall_forall. intros cell Hcell.
    apply in_map_iff in Hcell as ([r' c'] & <- & Hrc).
    apply in_gridPositions in Hrc as [Hr' _].
    cbn [bakedAt bake_row fst].
    assert (gridSize + 1 <= r)%Z; [|lia].
    apply Z.div_le_lower_bound; lia.
Qed.

Lemma shader_cell_against_bake_witness :
  bakeCell 2 (octHemi (createGrid 2 2 1 1 true)) (5 / 2) (5 mod 2)
  = Some (bakedAt (octHemi (createGrid 2 2 1 1 true)) (5 / 2) (5 mod 2) 5).
Proof.
  apply (shader_cell_against_bake 2 5 (octHemi (createGrid 2 2 1 1 true))).
  - lia.
  - rewrite length_octHemi, length_createGrid. reflexivity.
  - lia.
  - lia.
Defined.

End ShaderAndBake.

(** ** Reading nested loops by index *)

Lemma nth_error_flat_map_blocks {A B : Type} (f : A -> list B) (n : nat)
    (l : list A) (k j : nat) (a : A) :
  (forall x, length (f x) = n) ->
  nth_error l k = Some a -> (j < n)%nat ->
  nth_error (flat_map f l) (k * n + j) = nth_error (f a) j.
Proof.
  intros Hlen. revert k. induction l as [|x l IH]; intros k Hk Hj.
  - destruct k; discriminate.
  - cbn [flat_map]. destruct k as [|k]; cbn in Hk.
    + injection Hk as ->. cbn [Nat.mul Nat.add].
      apply nth_error_app1. now rewrite Hlen.
    + rewrite nth_error_app2 by (rewrite Hlen; lia).
      rewrite Hlen. replace (S k * n + j - n)%nat with (k * n + j)%nat by lia.
      now apply IH.
Qed.

Lemma nth_error_is_lookup {A : Type} (l : list A) (k : nat) :
  nth_error l k = l !! k.
Proof.
  revert k. induction l as [|x l IH]; intros [|k]; try reflexivity.
  cbn. apply IH.
Qed.

Lemma nth_error_upto (n : Z) (k : nat) :
  (Z.of_nat k < n)%Z -> nth_error (upto n) k = Some (Z.of_nat k).
Proof.
  intros Hk. unfold upto. rewrite nth_error_is_lookup.
  now rewrite (lookup_seqZ_lt 0 n k Hk), Z.add_0_l.
Qed.

(** ** Layout of the grid *)

Section GridLayout.
Local Open Scope R_scope.

Lemma points_row (f g : Z -> R) (cols : list Z) :
  points (flat_map (fun xi => [f xi; 0; g xi]) cols) =
  map (fun xi => Vec3 (f xi) 0 (g xi)) cols.
Proof.
  induction cols as [|xi cols IH]; [reflexivity|].
  cbn [flat_map map app points]. now rewrite IH.
Qed.

Lemma points_createGrid (xCells yCells : Z) :
  points (createGrid xCells yCells 1 1 true) =
  flat_map (fun yi => map (latticePoint xCells yCells yi)
                          (upto (xCells + 1)))
           (upto (yCells + 1)).
Proof.
  unfold createGrid.
  induction (upto (yCells + 1)) as [|yi rows IH]; [reflexivity|].
  cbn [flat_map].
  rewrite (points_app_triples _ _ (length (upto (xCells + 1)))).
  - rewrite IH. f_equal.
    apply (points_row (fun xi => IZR xi * (1 / IZR xCells) + - 1 * 0.5)
                      (fun _ => IZR yi * (1 / IZR yCells) + - 1 * 0.5)).
  - rewrite (length_flat_map_const _ 3) by reflexivity. lia.
Qed.

(** X5: the grid is stored row by row: for [0 <= xi <= gridSize] and
    [0 <= yi <= gridSize] the lattice point of column [xi] and row [yi] is
    the point of index [yi * (gridSize + 1) + xi], its height is 0, and for
    a grid size of at least one its coordinates are
    [(xi / gridSize - 0.5, yi / gridSize - 0.5)]. *)
Theorem createGrid_lattice_point (gridSize xi yi : Z) :
  (0 <= xi <= gridSize)%Z -> (0 <= yi <= gridSize)%Z ->
  exists p,
    nth_error (points (createGrid gridSize gridSize 1 1 true))
              (Z.to_nat (yi * (gridSize + 1) + xi)) = Some p /\
    p = latticePoint gridSize gridSize yi xi /\
    vy p = 0 /\
    ((1 <= gridSize)%Z ->
     vx p = IZR xi / IZR gridSize - 0.5 /\
     vz p = IZR yi / IZR gridSize - 0.5).
Proof.
  intros Hx Hy. eexists. split; [|split; [reflexivity|]].
  - rewrite points_createGrid.
    replace (Z.to_nat (yi * (gridSize + 1) + xi))
      with (Z.to_nat yi * Z.to_nat (gridSize + 1) + Z.to_nat xi)%nat by nia.
    rewrite (nth_error_flat_map_blocks _ (Z.to_nat (gridSize + 1)) _ _ _ yi).
    + rewrite nth_error_map, nth_error_upto by lia. cbn [option_map].
      now rewrite Z2Nat.id by lia.
    + intros r. now rewrite length_map, length_upto.
    + rewrite nth_error_upto by lia. now rewrite Z2Nat.id by lia.
    + lia.
  - split; [reflexivity|]. intros Hg.
    assert (1 <= IZR gridSize) by now apply IZR_le.
    unfold latticePoint; cbn [vx vz]. split; field; lra.
Qed.

Lemma createGrid_lattice_point_witness :
  exists p,
    nth_error (points (createGrid 2 2 1 1 true))
              (Z.to_nat (1 * (2 + 1) + 2)) = Some p /\
    p = latticePoint 2 2 1 2 /\
    vy p = 0 /\
    ((1 <= 2)%Z -> vx p = 2 / 2 - 0.5 /\ vz p = 1 / 2 - 0.5).
Proof.
  apply (createGrid_lattice_point 2 2 1); lia.
Defined.

End GridLayout.

(** ** Normals and hemisphere of the folded points *)

Section FoldedPoints.
Local Open Scope R_scope.




Lemma built_pntOct_norm (octType gridSize : Z) (mesh : OctahedralMesh) :
  buildOctahedralMesh octType gridSize = Returns mesh ->
  Forall (fun p => vlength p = radius) (points (pntOct mesh)) /\
  attribute_normal (geometry mesh) = toSphereNormal (pntOct mesh) /\
  attribute_position (geometry mesh) = pntOct mesh.
Proof.
  unfold buildOctahedralMesh.
  destruct (octType =? HEMI)%Z.
  - intros H. injection H as <-. cbn. split; [apply octHemi_norm|now split].
  - destruct (octType =? FULL)%Z; [|discriminate].
    intros H. injection H as <-. cbn. split; [apply octFull_norm|now split].
Qed.




Lemma scaled_nonneg (y m : R) : 0 <= y -> 0 < m -> 0 <= y / m * radius.
Proof.
  intros Hy Hm. apply Rmult_le_pos; [|unfold radius; lra].
  now apply div_nonneg.
Qed.

Lemma hemiPoint_up (px pz : R) :
  -0.5 <= px <= 0.5 -> -0.5 <= pz <= 0.5 -> 0 <= vy (hemiPoint px pz).
Proof.
  intros Hx Hz. unfold hemiPoint; cbn [vy].
  apply scaled_nonneg.
  - pose proof (abs_diag_sum (px + 0.5) (pz + 0.5)). lra.
  - apply sqrt_square_sum_pos, octahedron_point_sum.
Qed.

Lemma sign_abs (r : R) : r <> 0 -> Rabs (sign r) = 1.
Proof.
  intros Hr. unfold sign.
  destruct (Rlt_dec 0 r); [apply Rabs_R1|].
  destruct (Rlt_dec r 0); [|lra].
  rewrite Rabs_left; lra.
Qed.

Lemma fullPoint_up (px pz : R) :
  -0.5 <= px <= 0.5 -> -0.5 <= pz <= 0.5 -> 0 <= vy (fullPoint px pz).
Proof.
  intros Hx Hz. unfold fullPoint.
  replace (px * 2.0) with (px * 2) by lra.
  replace (pz * 2.0) with (pz * 2) by lra.
  set (u := px * 2). set (v := pz * 2).
  assert (Hu : Rabs u <= 1) by (apply Rabs_le; unfold u; lra).
  assert (Hv : Rabs v <= 1) by (apply Rabs_le; unfold v; lra).
  destruct (Rlt_dec (1 - Rabs u - Rabs v) 0) as [Hneg|Hpos]; cbn [vy].
  - apply scaled_nonneg;
      [|apply sqrt_square_sum_pos, octahedron_point_sum].
    assert (Hu0 : u <> 0).
    { intros E. rewrite E, Rabs_R0 in Hneg. lra. }
    assert (Hv0 : v <> 0).
    { intros E. rewrite E, Rabs_R0 in Hneg. lra. }
    rewrite !Rabs_mult, (sign_abs u Hu0), (sign_abs v Hv0).
    rewrite (Rabs_pos_eq (1.0 - Rabs v)) by lra.
    rewrite (Rabs_pos_eq (1.0 - Rabs u)) by lra. lra.
  - apply scaled_nonneg;
      [lra | apply sqrt_square_sum_pos, octahedron_point_sum].
Qed.

Lemma built_pntOct_up (octType gridSize : Z) (mesh : OctahedralMesh) :
  (1 <= gridSize)%Z ->
  buildOctahedralMesh octType gridSize = Returns mesh ->
  Forall (fun q => 0 <= vy q) (points (pntOct mesh)).
Proof.
  intros Hg Hbuild. pose proof (createGrid_in_square gridSize Hg) as Hsq.
  rewrite List.Forall_forall in Hsq.
  unfold buildOctahedralMesh in Hbuild.
  destruct (octType =? HEMI)%Z.
  - injection Hbuild as <-. cbn [pntOct packMesh].
    rewrite points_octHemi. apply List.Forall_forall. intros q Hq.
    apply in_map_iff in Hq as (p & <- & Hp).
    destruct (Hsq p Hp). now apply hemiPoint_up.
  - destruct (octType =? FULL)%Z; [|discriminate].
    injection Hbuild as <-. cbn [pntOct packMesh].
    rewrite points_octFull. apply List.Forall_forall. intros q Hq.
    apply in_map_iff in Hq as (p & <- & Hp).
    destruct (Hsq p Hp). now apply fullPoint_up.
Qed.

(** X7: for a grid size of at least one, no octahedron point of the mesh
    lies below the horizon, under HEMI and under FULL alike: [octFull]
    recomputes the height after mirroring and so sends the lattice points
    of its lower half above the horizon too.  In exact arithmetic every
    height is zero or more, the points of the rim having height zero; the
    statement leaves 1e-9 for the rounding of the doubles, which gives
    some rim points a height a few 1e-17 below zero. *)
Theorem built_points_upper_hemisphere
    (octType gridSize : Z) (mesh : OctahedralMesh) :
  (1 <= gridSize)%Z ->
  buildOctahedralMesh octType gridSize = Returns mesh ->
  Forall (fun q => -1e-9 <= vy q) (points (pntOct mesh)).
Proof.
  intros Hg Hbuild.
  pose proof (built_pntOct_up octType gridSize mesh Hg Hbuild) as Hup.
  apply List.Forall_forall. intros q Hq.
  rewrite List.Forall_forall in Hup. specialize (Hup q Hq). lra.
Qed.

Lemma built_points_upper_hemisphere_witness :
  Forall (fun q => -1e-9 <= vy q)
         (points (octFull (createGrid 4 4 1 1 true))).
Proof.
  apply (built_points_upper_hemisphere FULL 4
           (packMesh (createGrid 4 4 1 1 true)
                     (octFull (createGrid 4 4 1 1 true))
                     (octPlaneIndices FULL 4 4))).
  - lia.
  - reflexivity.
Defined.

End FoldedPoints.

(** ** Triangles of the mesh and cells of the sampling cache *)

Section TrianglesAndCells.

Lemma octPlaneIndices_at (isFull xCells yCells y x : Z) (j : nat) :
  (0 <= y < yCells)%Z -> (0 <= x < xCells)%Z -> (j < 6)%nat ->
  nth_error (octPlaneIndices isFull xCells yCells)
            (Z.to_nat (6 * (y * xCells + x)) + j) =
  nth_error (cellIndices isFull (xCells + 1)
               (js_floor (js_mul (of_Z xCells) (JFin (1 # 2)%Q)))
               (js_floor (js_mul (of_Z yCells) (JFin (1 # 2)%Q))) y x) j.
Proof.
  intros Hy Hx Hj. unfold octPlaneIndices.
  replace (Z.to_nat (6 * (y * xCells + x)) + j)%nat
    with (Z.to_nat y * (6 * Z.to_nat xCells) + (Z.to_nat x * 6 + j))%nat
    by nia.
  rewrite (nth_error_flat_map_blocks _ (6 * Z.to_nat xCells) _ _ _ y).
  - rewrite (nth_error_flat_map_blocks _ 6 _ _ _ x).
    + reflexivity.
    + intros x'. apply length_cellIndices.
    + rewrite nth_error_upto by lia. now rewrite Z2Nat.id by lia.
    + exact Hj.
  - intros y'. rewrite (length_flat_map_const _ 6).
    + now rewrite length_upto.
    + intros x'. apply length_cellIndices.
  - rewrite nth_error_upto by lia. now rewrite Z2Nat.id by lia.
  - nia.
Qed.

Lemma readIndex_at (indexArray : list Z) (cursor : Z) (j : nat) (v : Z) :
  (0 <= cursor)%Z ->
  nth_error indexArray (Z.to_nat cursor + j) = Some v ->
  readIndex indexArray (cursor + Z.of_nat j) = v.
Proof.
  intros Hc H. unfold readIndex.
  replace (Z.to_nat (cursor + Z.of_nat j)) with (Z.to_nat cursor + j)%nat
    by lia.
  now apply nth_error_nth.
Qed.

Lemma buildCells_at (indexArray : list Z) (gridSize row col : Z) :
  (0 <= row < gridSize)%Z -> (0 <= col < gridSize)%Z ->
  readCell (buildCells indexArray gridSize) (row * gridSize + col) =
  Some (buildCell indexArray (gridSize + 1) (6 * (row * gridSize + col))).
Proof.
  intros Hr Hc. unfold readCell.
  destruct (Z.ltb_spec (row * gridSize + col) 0); [nia|].
  unfold buildCells.
  replace (Z.to_nat (row * gridSize + col))
    with (Z.to_nat row * Z.to_nat gridSize + Z.to_nat col)%nat by nia.
  rewrite (nth_error_flat_map_blocks _ (Z.to_nat gridSize) _ _ _ row).
  - rewrite nth_error_map, nth_error_upto by lia. cbn [option_map].
    now rewrite Z2Nat.id by lia.
  - intros r. now rewrite length_map, length_upto.
  - rewrite nth_error_upto by lia. now rewrite Z2Nat.id by lia.
  - lia.
Qed.

(** The cell of the cache at [(row, col)], read off the index array of the
    mesh of the same type and grid size. *)
Lemma freshCache_cell (octType gridSize row col : Z) :
  (0 <= row < gridSize)%Z -> (0 <= col < gridSize)%Z ->
  let corners := cellCorners gridSize row col in
  let a := nth 0 corners 0%Z in
  let b := nth 1 corners 0%Z in
  let c := nth 2 corners 0%Z in
  let d := nth 3 corners 0%Z in
  let half := js_floor (js_mul (of_Z gridSize) (JFin (1 # 2)%Q)) in
  let backslash :=
    js_strict_eq (alt_key (of_Z col) (of_Z row) half half) (of_Z octType) in
  exists cell,
    readCell (cells (freshCache octType gridSize)) (row * gridSize + col)
      = Some cell /\
    isBackslash cell = backslash /\
    tri_indices (fst (triangles cell)) =
      (if backslash then (a, b, c) else (d, a, b)) /\
    tri_indices (snd (triangles cell)) =
      (if backslash then (c, d, a) else (b, c, d)) /\
    tri_uv (fst (triangles cell)) =
      (if backslash then ((0, 0), (0, 1), (1, 1))
       else ((1, 0), (0, 0), (0, 1)))%R /\
    tri_uv (snd (triangles cell)) =
      (if backslash then ((1, 1), (1, 0), (0, 0))
       else ((0, 1), (1, 1), (1, 0)))%R.
Proof.
  intros Hr Hc corners a b c d half backslash.
  cbn [freshCache cells]. rewrite (buildCells_at _ _ _ _ Hr Hc).
  eexists. split; [reflexivity|].
  set (ia := octPlaneIndices octType gridSize gridSize).
  set (cursor := (6 * (row * gridSize + col))%Z).
  assert (Hcur : (0 <= cursor)%Z) by (unfold cursor; nia).
  assert (Hread : forall j v,
            (j < 6)%nat ->
            nth_error (cellIndices octType (gridSize + 1) half half row col) j
              = Some v ->
            readIndex ia (cursor + Z.of_nat j) = v).
  { intros j v Hj Hv. apply readIndex_at; [exact Hcur|].
    unfold ia, cursor. now rewrite octPlaneIndices_at. }
  unfold cellIndices in Hread. fold backslash in Hread.
  subst a b c d corners. unfold cellCorners. cbn [nth].
  unfold buildCell.
  destruct backslash;
    pose proof (Hread 0%nat _ ltac:(lia) eq_refl) as R0;
    pose proof (Hread 1%nat _ ltac:(lia) eq_refl) as R1;
    pose proof (Hread 2%nat _ ltac:(lia) eq_refl) as R2;
    pose proof (Hread 3%nat _ ltac:(lia) eq_refl) as R3;
    pose proof (Hread 4%nat _ ltac:(lia) eq_refl) as R4;
    pose proof (Hread 5%nat _ ltac:(lia) eq_refl) as R5;
    change (Z.of_nat 0) with 0%Z in R0; rewrite Z.add_0_r in R0;
    change (Z.of_nat 1) with 1%Z in R1; change (Z.of_nat 2) with 2%Z in R2;
    change (Z.of_nat 3) with 3%Z in R3; change (Z.of_nat 4) with 4%Z in R4;
    change (Z.of_nat 5) with 5%Z in R5;
    rewrite R0, R1, R2, R3, R4, R5.
  - replace ((gridSize + 1) * (row + 1) + col - ((gridSize + 1) * row + col)
             =? gridSize + 1)%Z with true by (symmetry; apply Z.eqb_eq; ring).
    replace ((gridSize + 1) * (row + 1) + col + 1
             - ((gridSize + 1) * (row + 1) + col) =? 1)%Z
      with true by (symmetry; apply Z.eqb_eq; ring).
    cbn. repeat split.
  - replace ((gridSize + 1) * row + col
             - ((gridSize + 1) * row + col + 1) =? gridSize + 1)%Z
      with false by (symmetry; apply Z.eqb_neq; lia).
    cbn. repeat split.
Qed.

Local Open Scope R_scope.

(** X8: in the cache built for a type and a grid size, the cell at
    [(row, col)] of the grid carries the flag of the diagonal the mesh chose
    for it (backslash exactly when the checkerboard key equals the type),
    and every vertex of its two triangles is filed under the UV corner it
    occupies in the cell: the corner [(u, v)] goes with the vertex index
    [(gridSize + 1) * (row + v) + col + u]. *)
Theorem cache_cell_corners (octType gridSize row col : Z) :
  (0 <= row < gridSize)%Z -> (0 <= col < gridSize)%Z ->
  exists cell,
    readCell (cells (freshCache octType gridSize)) (row * gridSize + col)
      = Some cell /\
    isBackslash cell =
      js_strict_eq
        (alt_key (of_Z col) (of_Z row)
           (js_floor (js_mul (of_Z gridSize) (JFin (1 # 2)%Q)))
           (js_floor (js_mul (of_Z gridSize) (JFin (1 # 2)%Q))))
        (of_Z octType) /\
    Forall (fun iv => IZR (fst iv) = cornerVertex gridSize row col (snd iv))
           (triangleVertices (fst (triangles cell)) ++
            triangleVertices (snd (triangles cell))).
Proof.
  intros Hr Hc.
  destruct (freshCache_cell octType gridSize row col Hr Hc)
    as (cell & Hcell & Hflag & H1 & H2 & U1 & U2).
  exists cell. split; [exact Hcell|]. split; [exact Hflag|].
  cbv zeta in H1, H2, U1, U2. rewrite <- Hflag in H1, H2, U1, U2.
  unfold triangleVertices. rewrite H1, H2, U1, U2.
  unfold cellCorners; cbn [nth].
  destruct (isBackslash cell); repeat constructor;
    unfold cornerVertex; cbn [fst snd];
    rewrite ?plus_IZR, ?mult_IZR, ?plus_IZR; lra.
Qed.

Lemma cache_cell_corners_witness :
  exists cell,
    readCell (cells (freshCache HEMI 2)) (1 * 2 + 0) = Some cell /\
    isBackslash cell =
      js_strict_eq
        (alt_key (of_Z 0) (of_Z 1)
           (js_floor (js_mul (of_Z 2) (JFin (1 # 2)%Q)))
           (js_floor (js_mul (of_Z 2) (JFin (1 # 2)%Q))))
        (of_Z HEMI) /\
    Forall (fun iv => IZR (fst iv) = cornerVertex 2 1 0 (snd iv))
           (triangleVertices (fst (triangles cell)) ++
            triangleVertices (snd (triangles cell))).
Proof.
  apply (cache_cell_corners HEMI 2 1 0); lia.
Defined.

End TrianglesAndCells.

(** ** Exactness of the barycentric weights *)

Section Interpolation.
Local Open Scope R_scope.

Lemma barycentric_of_combination
    (ax ay bx by_ cx cy px py alpha beta gamma : R) (target : vec3) :
  1e-9 <= Rabs (baryDenom ((ax, ay), (bx, by_), (cx, cy))) ->
  0 <= alpha -> 0 <= beta -> 0 <= gamma -> alpha + beta + gamma = 1 ->
  px = alpha * ax + beta * bx + gamma * cx ->
  py = alpha * ay + beta * by_ + gamma * cy ->
  computeBarycentric2D px py ((ax, ay), (bx, by_), (cx, cy)) target
  = Vec3 alpha beta gamma.
Proof.
  intros Hd Ha Hb Hg Hsum -> ->. unfold computeBarycentric2D.
  destruct (Rlt_dec _ 1e-9) as [Hlt|_]; [lra|].
  unfold baryClamped, baryDenom in *.
  set (denom := (bx - ax) * (cy - ay) - (cx - ax) * (by_ - ay)) in *.
  assert (Hnz : denom <> 0).
  { intros E. rewrite E, Rabs_R0 in Hd. lra. }
  assert (Hv : ((alpha * ax + beta * bx + gamma * cx - ax) * (cy - ay)
                - (cx - ax) * (alpha * ay + beta * by_ + gamma * cy - ay))
               * (1 / denom) = beta).
  { replace alpha with (1 - beta - gamma) by lra. unfold denom.
    unfold denom in Hnz. field. exact Hnz. }
  assert (Hw : ((bx - ax) * (alpha * ay + beta * by_ + gamma * cy - ay)
                - (alpha * ax + beta * bx + gamma * cx - ax) * (by_ - ay))
               * (1 / denom) = gamma).
  { replace alpha with (1 - beta - gamma) by lra. unfold denom.
    unfold denom in Hnz. field. exact Hnz. }
  rewrite Hv, Hw. replace (1 - beta - gamma) with alpha by lra.
  rewrite !Rmax_left by lra.
  destruct (Rle_dec (alpha + beta + gamma) 0) as [Hle|_]; [lra|].
  rewrite Hsum. f_equal; lra.
Qed.

(** X9: for a triangle that is not degenerate and a point inside it,
    [computeBarycentric2D] returns the barycentric coordinates of the
    point: if the point is [alpha * a + beta * b + gamma * c] with
    coefficients of zero or more that sum to one, the weights written are
    [(alpha, beta, gamma)] whatever the target held. *)
Theorem computeBarycentric2D_inside
    (triangleUV : uvTriangle) (alpha beta gamma : R) (target : vec3) :
  1e-9 <= Rabs (baryDenom triangleUV) ->
  0 <= alpha -> 0 <= beta -> 0 <= gamma -> alpha + beta + gamma = 1 ->
  let p := blend (Vec3 alpha beta gamma) triangleUV in
  computeBarycentric2D (fst p) (snd p) triangleUV target
  = Vec3 alpha beta gamma.
Proof.
  intros Hd Ha Hb Hg Hsum p.
  destruct triangleUV as [[[ax ay] [bx by_]] [cx cy]].
  now apply barycentric_of_combination.
Qed.

Lemma computeBarycentric2D_inside_witness :
  computeBarycentric2D
    (fst (blend (Vec3 0.5 0.25 0.25) ((0, 0), (0, 1), (1, 1))))
    (snd (blend (Vec3 0.5 0.25 0.25) ((0, 0), (0, 1), (1, 1))))
    ((0, 0), (0, 1), (1, 1)) (Vec3 0 0 0)
  = Vec3 0.5 0.25 0.25.
Proof.
  apply computeBarycentric2D_inside; try lra.
  unfold baryDenom.
  replace ((0 - 0) * (1 - 0) - (1 - 0) * (1 - 0)) with (-1) by ring.
  rewrite Rabs_left; lra.
Defined.

Lemma clampLocal_range (r : R) : 0 <= clampLocal r <= 0.999999.
Proof.
  unfold clampLocal. split.
  - apply Rmin_glb; [apply Rmax_r | lra].
  - apply Rmin_r.
Qed.

Lemma gtb_true (a b : R) : gtb a b = true -> a > b.
Proof. unfold gtb. destruct (Rgt_dec a b); [auto | discriminate]. Qed.

Lemma gtb_false (a b : R) : gtb a b = false -> a <= b.
Proof. unfold gtb. destruct (Rgt_dec a b); [discriminate | lra]. Qed.

Lemma canonical_denominators :
  Rabs (baryDenom ((0, 0), (0, 1), (1, 1))) = 1 /\
  Rabs (baryDenom ((1, 1), (1, 0), (0, 0))) = 1 /\
  Rabs (baryDenom ((1, 0), (0, 0), (0, 1))) = 1 /\
  Rabs (baryDenom ((0, 1), (1, 1), (1, 0))) = 1.
Proof.
  unfold baryDenom.
  replace ((0 - 0) * (1 - 0) - (1 - 0) * (1 - 0)) with (-1) by ring.
  replace ((1 - 1) * (0 - 1) - (0 - 1) * (0 - 1)) with (-1) by ring.
  replace ((0 - 1) * (1 - 0) - (0 - 1) * (0 - 0)) with (-1) by ring.
  replace ((1 - 0) * (0 - 1) - (1 - 0) * (1 - 1)) with (-1) by ring.
  assert (H : Rabs (-1) = 1) by (rewrite Rabs_left; lra).
  now rewrite H.
Qed.

Lemma lattice_div_mod (n q r : Z) :
  (0 <= r < n)%Z -> ((n * q + r) mod n = r /\ (n * q + r) / n = q)%Z.
Proof.
  intros Hr. split.
  - rewrite Z.add_comm, Z.mul_comm, Z.mod_add by lia. apply Z.mod_small. lia.
  - rewrite Z.mul_comm, Z.div_add_l by lia. rewrite Z.div_small by lia. lia.
Qed.

(** X10: the sampler interpolates exactly.  For a cache built for a valid
    type and a grid size of at least one, and every direction, the weighted
    mean of the lattice columns of the three vertices returned is the
    column of the sampled cell plus the local U, and the weighted mean of
    their lattice rows is the row of the cell plus the local V (a vertex of
    index [i] being the lattice point of column [i mod (gridSize + 1)] and
    row [i / (gridSize + 1)]): the triangle chosen holds the local point
    and no weight is clamped. *)
Theorem sampleOctahedralDirection_interpolates
    (octType gridSize : Z) (direction indicesTarget weightsTarget : vec3) :
  (1 <= gridSize)%Z ->
  let uv := encodeDirectionToOctUV direction in
  let col := clampIndex (floor (u uv * IZR gridSize)) (gridSize - 1) in
  let row := clampIndex (floor (v uv * IZR gridSize)) (gridSize - 1) in
  let localU := clampLocal (u uv * IZR gridSize - IZR col) in
  let localV := clampLocal (v uv * IZR gridSize - IZR row) in
  exists i0 i1 i2 w,
    sampleOctahedralDirection direction
      (Some (freshCache octType gridSize)) indicesTarget weightsTarget
      = (true, Vec3 (IZR i0) (IZR i1) (IZR i2), w) /\
    vx w * IZR (i0 mod (gridSize + 1)) + vy w * IZR (i1 mod (gridSize + 1))
      + vz w * IZR (i2 mod (gridSize + 1)) = IZR col + localU /\
    vx w * IZR (i0 / (gridSize + 1)) + vy w * IZR (i1 / (gridSize + 1))
      + vz w * IZR (i2 / (gridSize + 1)) = IZR row + localV.
Proof.
  intros Hg uv col row localU localV.
  assert (Hcol : (0 <= col < gridSize)%Z).
  { pose proof (clampIndex_range (floor (u uv * IZR gridSize))
                                 (gridSize - 1)). subst col. lia. }
  assert (Hrow : (0 <= row < gridSize)%Z).
  { pose proof (clampIndex_range (floor (v uv * IZR gridSize))
                                 (gridSize - 1)). subst row. lia. }
  destruct (freshCache_cell octType gridSize row col Hrow Hcol)
    as (cell & Hcell & Hflag & H1 & H2 & U1 & U2).
  cbv zeta in H1, H2, U1, U2. rewrite <- Hflag in H1, H2, U1, U2.
  clear Hflag. unfold cellCorners in H1, H2. cbn [nth] in H1, H2.
  pose proof (clampLocal_range (u uv * IZR gridSize - IZR col)) as HU.
  pose proof (clampLocal_range (v uv * IZR gridSize - IZR row)) as HV.
  fold localU in HU. fold localV in HV.
  destruct canonical_denominators as (D1 & D2 & D3 & D4).
  set (n := (gridSize + 1)%Z) in *.
  assert (Ha : ((n * row + col) mod n = col /\ (n * row + col) / n = row)%Z)
    by (apply lattice_div_mod; lia).
  assert (Hb : ((n * (row + 1) + col) mod n = col /\
                (n * (row + 1) + col) / n = row + 1)%Z)
    by (apply lattice_div_mod; lia).
  assert (Hc : ((n * (row + 1) + col + 1) mod n = col + 1 /\
                (n * (row + 1) + col + 1) / n = row + 1)%Z).
  { rewrite <- Z.add_assoc. apply lattice_div_mod. lia. }
  assert (Hd : ((n * row + col + 1) mod n = col + 1 /\
                (n * row + col + 1) / n = row)%Z).
  { rewrite <- Z.add_assoc. apply lattice_div_mod. lia. }
  destruct Ha as [Ha1 Ha2], Hb as [Hb1 Hb2], Hc as [Hc1 Hc2],
           Hd as [Hd1 Hd2].
  unfold sampleOctahedralDirection.
  change (cache_gridSize (freshCache octType gridSize)) with gridSize.
  cbv zeta. fold uv. fold col row. fold localU localV. rewrite Hcell.
  unfold pickTriangle.
  destruct (isBackslash cell); cbn [andb negb].
  - destruct (gtb localU localV) eqn:E.
    + apply gtb_true in E. rewrite H2, U2.
      rewrite (barycentric_of_combination 1 1 1 0 0 0 localU localV
                 localV (localU - localV) (1 - localU)) by lra.
      do 4 eexists. split; [reflexivity|]. cbn [vx vy vz].
      rewrite Ha1, Ha2, Hc1, Hc2, Hd1, Hd2, !plus_IZR. split; lra.
    + apply gtb_false in E. rewrite H1, U1.
      rewrite (barycentric_of_combination 0 0 0 1 1 1 localU localV
                 (1 - localV) (localV - localU) localU) by lra.
      do 4 eexists. split; [reflexivity|]. cbn [vx vy vz].
      rewrite Ha1, Ha2, Hb1, Hb2, Hc1, Hc2, !plus_IZR. split; lra.
  - destruct (gtb (localU + localV) 1) eqn:E.
    + apply gtb_true in E. rewrite H2, U2.
      rewrite (barycentric_of_combination 0 1 1 1 1 0 localU localV
                 (1 - localU) (localU + localV - 1) (1 - localV)) by lra.
      do 4 eexists. split; [reflexivity|]. cbn [vx vy vz].
      rewrite Hb1, Hb2, Hc1, Hc2, Hd1, Hd2, !plus_IZR. split; lra.
    + apply gtb_false in E. rewrite H1, U1.
      rewrite (barycentric_of_combination 1 0 0 0 0 1 localU localV
                 localU (1 - localU - localV) localV) by lra.
      do 4 eexists. split; [reflexivity|]. cbn [vx vy vz].
      rewrite Ha1, Ha2, Hb1, Hb2, Hd1, Hd2, !plus_IZR. split; lra.
Qed.

Lemma sampleOctahedralDirection_interpolates_witness :
  exists i0 i1 i2 w,
    sampleOctahedralDirection (Vec3 0 1 0)
      (Some (freshCache HEMI 2)) (Vec3 0 0 0) (Vec3 0 0 0)
      = (true, Vec3 (IZR i0) (IZR i1) (IZR i2), w).
Proof.
  destruct (sampleOctahedralDirection_interpolates HEMI 2
              (Vec3 0 1 0) (Vec3 0 0 0) (Vec3 0 0 0))
    as (i0 & i1 & i2 & w & H & _); [lia|].
  now exists i0, i1, i2, w.
Defined.

End Interpolation.

(** ** The encoder's range *)

Section EncoderRange.
Local Open Scope R_scope.

(** The three components the encoder works with, after the division by the
    padded sum of absolute values: none reaches one in absolute value, they
    keep the signs of the direction, and the first and third have absolute
    values that sum to less than one. *)
Lemma encoder_normalised (x y z : R) :
  let invSum := 1 / (Rabs x + Rabs y + Rabs z + 1e-9) in
  0 < invSum /\
  Rabs (x * invSum) + Rabs (z * invSum) < 1.
Proof.
  intros invSum.
  pose proof (Rabs_pos x) as Hx. pose proof (Rabs_pos y) as Hy.
  pose proof (Rabs_pos z) as Hz.
  set (s := Rabs x + Rabs y + Rabs z + 1e-9) in *.
  assert (Hs : 0 < s) by (unfold s; lra).
  assert (Hi : 0 < invSum).
  { unfold invSum. apply Rdiv_lt_0_compat; lra. }
  split; [exact Hi|].
  rewrite !Rabs_mult, (Rabs_right invSum) by lra.
  rewrite <- Rmult_plus_distr_r. unfold invSum.
  apply (Rmult_lt_reg_r s); [exact Hs|].
  replace ((Rabs x + Rabs z) * (1 / s) * s) with (Rabs x + Rabs z)
    by (field; lra).
  unfold s. lra.
Qed.

Lemma encoder_cases (direction : vec3) :
  let invSum := 1 / (Rabs (vx direction) + Rabs (vy direction)
                     + Rabs (vz direction) + 1e-9) in
  let nx := vx direction * invSum in
  let nz := vz direction * invSum in
  (0 <= vy direction /\
   encodeDirectionToOctUV direction
   = {| u := nx * 0.5 + 0.5; v := nz * 0.5 + 0.5 |}) \/
  (vy direction < 0 /\
   exists signX signZ, Rabs signX = 1 /\ Rabs signZ = 1 /\
   encodeDirectionToOctUV direction
   = {| u := (1 - Rabs nz) * signX * 0.5 + 0.5;
        v := (1 - Rabs nx) * signZ * 0.5 + 0.5 |}).
Proof.
  intros invSum nx nz.
  destruct (encoder_normalised (vx direction) (vy direction) (vz direction))
    as [Hi _]. fold invSum in Hi.
  unfold encodeDirectionToOctUV. fold invSum. fold nx nz.
  assert (One : Rabs 1 = 1) by (apply Rabs_right; lra).
  assert (Neg : Rabs (-1) = 1) by (rewrite Rabs_left; lra).
  destruct (Rlt_dec (vy direction * invSum) 0) as [Hlt|Hge].
  - right. split.
    + destruct (Rle_lt_dec 0 (vy direction)) as [Hy|Hy]; [|exact Hy].
      pose proof (Rmult_le_pos _ _ Hy (Rlt_le _ _ Hi)). lra.
    + destruct (Rge_dec nx 0), (Rge_dec nz 0); do 2 eexists;
        (split; [|split; [|reflexivity]]); assumption.
  - left. split; [|reflexivity].
    destruct (Rle_lt_dec 0 (vy direction)) as [Hy|Hy]; [exact Hy|].
    exfalso. apply Hge. nra.
Qed.


(** X12: the encoder keeps the two hemispheres on their sides of the
    diamond.  With [(u, v)] the coordinates returned for a direction whose
    coordinates do not overflow, a direction below the horizon ([y < 0]) is
    encoded on or outside the diamond [|2u - 1| + |2v - 1| = 1] inscribed
    in the unit square, and a direction with [y >= 0] on or inside it, both
    up to 1e-9.  In exact arithmetic the two sides are strict; the 1e-9 is
    for the doubles, where the 1e-9 of the denominator is absorbed by a
    large sum and a tiny negative height can round to zero. *)
Theorem encodeDirectionToOctUV_hemispheres (direction : vec3) :
  Rabs (vx direction) + Rabs (vy direction) + Rabs (vz direction) <= 1e300 ->
  let uv := encodeDirectionToOctUV direction in
  (vy direction < 0 ->
   1 - 1e-9 <= Rabs (2 * u uv - 1) + Rabs (2 * v uv - 1)) /\
  (0 <= vy direction ->
   Rabs (2 * u uv - 1) + Rabs (2 * v uv - 1) <= 1 + 1e-9).
Proof.
  intros _ uv. subst uv.
  destruct (encoder_normalised (vx direction) (vy direction) (vz direction))
    as [_ Hsum]. cbv zeta in Hsum.
  pose proof (Rabs_pos (vx direction *
     (1 / (Rabs (vx direction) + Rabs (vy direction)
           + Rabs (vz direction) + 1e-9)))) as Px.
  pose proof (Rabs_pos (vz direction *
     (1 / (Rabs (vx direction) + Rabs (vy direction)
           + Rabs (vz direction) + 1e-9)))) as Pz.
  destruct (encoder_cases direction) as [[Hy ->]|(Hy & sx & sz & Hx & Hz & ->)];
    cbn [u v]; (split; [intros Hneg|intros Hpos]); try lra.
  - match goal with |- Rabs ?a + Rabs ?b <= _ =>
      replace a with (vx direction *
        (1 / (Rabs (vx direction) + Rabs (vy direction)
              + Rabs (vz direction) + 1e-9))) by lra;
      replace b with (vz direction *
        (1 / (Rabs (vx direction) + Rabs (vy direction)
              + Rabs (vz direction) + 1e-9))) by lra
    end. lra.
  - set (a := Rabs (vx direction * _)) in *.
    set (b := Rabs (vz direction * _)) in *.
    replace (2 * ((1 - b) * sx * 0.5 + 0.5) - 1) with ((1 - b) * sx) by lra.
    replace (2 * ((1 - a) * sz * 0.5 + 0.5) - 1) with ((1 - a) * sz) by lra.
    rewrite !Rabs_mult, Hx, Hz, !Rmult_1_r.
    rewrite (Rabs_right (1 - b)), (Rabs_right (1 - a)) by lra. lra.
Qed.

Lemma encodeDirectionToOctUV_hemispheres_witness :
  Rabs (2 * u (encodeDirectionToOctUV (Vec3 0 1 0)) - 1)
  + Rabs (2 * v (encodeDirectionToOctUV (Vec3 0 1 0)) - 1) <= 1 + 1e-9.
Proof.
  apply (encodeDirectionToOctUV_hemispheres (Vec3 0 1 0)).
  - cbn [vx vy vz]. rewrite Rabs_R0, Rabs_R1. lra.
  - cbn [vy]. lra.
Defined.

End EncoderRange.

(** ** The memo table of the sampling caches *)

Section Memoisation.

(** X13: [getSamplingCache] memoises.  Whatever the memo table holds, a
    call that returns stores its result: the same call made again returns
    the same cache and leaves the table as the first call left it, and the
    first call changes no entry of another key. *)
Theorem getSamplingCache_memoised
    (memo memo' : memoTable) (octType gridSize : Z)
    (cache : option SamplingCache) :
  getSamplingCache memo octType gridSize = (Returns cache, memo') ->
  getSamplingCache memo' octType gridSize = (Returns cache, memo') /\
  forall key, key <> (octType, gridSize) -> memo' !! key = memo !! key.
Proof.
  unfold getSamplingCache, buildSamplingCache.
  destruct (memo !! (octType, gridSize)) as [cached|] eqn:E.
  - intros [= <- <-]. rewrite E. split; [reflexivity|]. reflexivity.
  - destruct (buildOctahedralMesh octType gridSize) as [mesh|e];
      [|discriminate].
    intros [= <- <-]. rewrite lookup_insert_eq. split; [reflexivity|].
    intros key Hne. rewrite lookup_insert_ne by congruence. reflexivity.
Qed.

Lemma getSamplingCache_memoised_witness :
  getSamplingCache (<[(HEMI, 1%Z) := Some (freshCache HEMI 1)]> ∅) HEMI 1
  = (Returns (Some (freshCache HEMI 1)),
     <[(HEMI, 1%Z) := Some (freshCache HEMI 1)]> ∅).
Proof.
  apply (getSamplingCache_memoised (∅ : memoTable) _ HEMI 1).
  unfold getSamplingCache, buildSamplingCache.
  rewrite lookup_empty.
  destruct (buildOctahedralMesh_valid HEMI 1 (or_introl eq_refl))
    as (fold & _ & ->).
  reflexivity.
Defined.

End Memoisation.

(** ** Frames *)

Section Frames.
Local Open Scope R_scope.

(** The sampler reads its two targets only to hand them back: when it
    fails they are returned as they were, and when it succeeds what it
    writes does not depend on what they held. *)
Lemma sampleOctahedralDirection_targets (direction : vec3)
    (cache : option SamplingCache) (i w i' w' : vec3) (ok : bool) :
  sampleOctahedralDirection direction cache i w = (ok, i', w') ->
  (ok = false -> i' = i /\ w' = w) /\
  forall i2 w2,
    sampleOctahedralDirection direction cache i2 w2
    = if ok then (true, i', w') else (false, i2, w2).
Proof.
  unfold sampleOctahedralDirection. destruct cache as [cache|].
  - cbv zeta. destruct (readCell _ _) as [cell|].
    + destruct (tri_indices _) as [[i0 i1] i2]. unfold computeBarycentric2D.
      intros [= <- <- <-]. split; [discriminate|]. reflexivity.
    + intros [= <- <- <-]. split; [now split | reflexivity].
  - intros [= <- <- <-]. split; [now split | reflexivity].
Qed.

Lemma writeUniform_twice (uniform : option Uniform) (a b : vec3) :
  writeUniform (writeUniform uniform a) b = writeUniform uniform b.
Proof. now destruct uniform. Qed.

(** X14: the frame callback is idempotent.  For every threshold, every
    frame input and every state of the instance, running the callback a
    second time on the same input (the camera and the instance have not
    moved) gives the state the first run gave: face indices, face weights,
    stored direction and material uniforms are rewritten, if at all, with
    the values they hold. *)
Theorem frameUpdate_idempotent (thresholdDot : R) (input : FrameInput)
    (s : Impostor) :
  frameUpdate thresholdDot input (frameUpdate thresholdDot input s)
  = frameUpdate thresholdDot input s.
Proof.
  remember (frameUpdate thresholdDot input s) as s' eqn:Es'.
  unfold frameUpdate in *.
  destruct (billboardMounted input); [|now subst s'].
  destruct (cameraPosition input) as [camera|]; [|now subst s'].
  destruct (nodeMaterial s) as [material|] eqn:Em;
    [|subst s'; now rewrite Em].
  destruct (samplingCache input) as [cache|];
    [|subst s'; now rewrite Em].
  cbv zeta in *.
  set (viewDir := normalize (vsub camera (targetCenter input))) in *.
  destruct (withinThreshold (lastDirection s) viewDir thresholdDot) eqn:Ew.
  { subst s'. now rewrite Em, Ew. }
  destruct (sampleOctahedralDirection viewDir (Some cache)
              (faceIndices s) (faceWeights s)) as [[ok i'] w'] eqn:Esample.
  destruct (sampleOctahedralDirection_targets _ _ _ _ _ _ _ Esample)
    as [Hfail Hany].
  destruct ok; subst s';
    cbn [nodeMaterial lastDirection faceIndices faceWeights
         faceIndicesUniform faceWeightsUniform].
  - destruct (withinThreshold (Some viewDir) viewDir thresholdDot);
      [reflexivity|].
    rewrite (Hany i' w'), !writeUniform_twice. reflexivity.
  - destruct (Hfail eq_refl) as [-> ->].
    rewrite Ew, Esample. reflexivity.
Qed.

End Frames.

(** ** The face state of an instance over its frames *)

Section FaceState.
Local Open Scope R_scope.

Lemma written_uniform (uniform : option Uniform) (val : vec3)
    (P : vec3 -> Prop) :
  P val -> forall un, writeUniform uniform val = Some un -> P (value un).
Proof.
  intros HP un. destruct uniform; cbn; [|discriminate]. now intros [= <-].
Qed.

Lemma faceState_ok_frame (octType gridSize : Z) (thresholdDot : R)
    (input : FrameInput) (s : Impostor) :
  (1 <= gridSize)%Z -> ownCache octType gridSize (Frame input) ->
  faceState_ok gridSize s ->
  faceState_ok gridSize (frameUpdate thresholdDot input s).
Proof.
  intros Hg Hown Hs. unfold frameUpdate.
  destruct (billboardMounted input); [|exact Hs].
  destruct (cameraPosition input) as [camera|]; [|exact Hs].
  destruct (nodeMaterial s) as [material|] eqn:Em; [|exact Hs].
  cbn [ownCache] in Hown. destruct Hown as [-> | ->]; [exact Hs|].
  cbv zeta.
  destruct (withinThreshold _ _ _); [exact Hs|].
  destruct (sample_freshCache octType gridSize
              (normalize (vsub camera (targetCenter input)))
              (faceIndices s) (faceWeights s) Hg)
    as (i0 & i1 & i2 & w & -> & Hw & H0 & H1 & H2).
  assert (Hi : indices_ok gridSize (Vec3 (IZR i0) (IZR i1) (IZR i2))).
  { now exists i0, i1, i2. }
  split; [exact Hw|]. split; [exact Hi|].
  cbn [nodeMaterial]. intros m [= <-].
  cbn [faceIndicesUniform faceWeightsUniform]. split.
  - now apply written_uniform.
  - now apply written_uniform.
Qed.

Lemma firstTriangle_ok (octType gridSize : Z) :
  (1 <= gridSize)%Z ->
  let indices := octPlaneIndices octType gridSize gridSize in
  (0 < Z.of_nat (length indices))%Z /\
  indices_ok gridSize (firstTriangle indices).
Proof.
  intros Hg indices. split.
  - unfold indices. rewrite length_octPlaneIndices. nia.
  - assert (Hr : forall i,
              (0 <= readIndex indices i
               < (gridSize + 1) * (gridSize + 1))%Z).
    { intros i.
      apply (readIndex_range
               (fun i => 0 <= i < (gridSize + 1) * (gridSize + 1))%Z);
        [nia | apply octPlaneIndices_range]. }
    unfold firstTriangle. do 3 eexists. split; [reflexivity|].
    repeat split; apply Hr.
Qed.

Lemma faceState_ok_step (octType gridSize : Z) (thresholdDot : R)
    (mesh : OctahedralMesh) (s : Impostor) (e : lifeEvent) :
  (1 <= gridSize)%Z ->
  index (geometry mesh) = octPlaneIndices octType gridSize gridSize ->
  ownCache octType gridSize e ->
  faceState_ok gridSize s ->
  faceState_ok gridSize (lifeStep thresholdDot (Some mesh) s e).
Proof.
  intros Hg Hidx Hown Hs.
  destruct (firstTriangle_ok octType gridSize Hg) as [Hlen Hfirst].
  cbv zeta in Hlen, Hfirst. rewrite <- Hidx in Hlen, Hfirst.
  destruct e as [input|atlasReady| |]; cbn [lifeStep].
  - now apply (faceState_ok_frame octType).
  - destruct Hs as (Hw & Hi & _). split; [exact Hw|]. split; [exact Hi|].
    cbn [nodeMaterial]. unfold createMaterial.
    destruct atlasReady; [|discriminate].
    destruct (Z.ltb_spec 0 (Z.of_nat (length (index (geometry mesh)))));
      [|lia].
    intros m [= <-]. cbn [faceIndicesUniform faceWeightsUniform].
    split; intros un [= <-]; cbn [value]; [exact Hfirst | apply thirds_ok].
  - unfold dataEffect.
    destruct (Z.leb_spec (Z.of_nat (length (index (geometry mesh)))) 0);
      [lia|].
    destruct Hs as (_ & _ & Hm).
    split; [apply thirds_ok|]. split; [exact Hfirst|]. exact Hm.
  - destruct Hs as (Hw & Hi & Hm). split; [exact Hw|]. split; [exact Hi|].
    exact Hm.
Qed.

Lemma built_index (octType gridSize : Z) (mesh : OctahedralMesh) :
  buildOctahedralMesh octType gridSize = Returns mesh ->
  index (geometry mesh) = octPlaneIndices octType gridSize gridSize.
Proof.
  unfold buildOctahedralMesh.
  destruct (octType =? HEMI)%Z; [now intros [= <-]|].
  destruct (octType =? FULL)%Z; [now intros [= <-] | discriminate].
Qed.

(** X15: what the shader reads stays sound over the life of an instance.
    For a mesh built with a grid size of at least one, start from the
    instance as its data effect leaves it and let any sequence of events
    follow: frames whose sampling cache, when they have one, is the cache of
    the same type and grid size, runs of the material memo (each of which
    makes a new material with uniforms at their initial values), runs of
    the data effect and resets of the stored direction.  Then, after every
    event, the face weights of the refs are barycentric (none negative, sum
    one) and their face indices are three integers that index vertices of
    the mesh, and the same holds of the two uniforms of the material
    whenever there is one. *)
Theorem face_state_sound (octType gridSize : Z) (mesh : OctahedralMesh)
    (thresholdDot : R) (events : list lifeEvent) :
  (1 <= gridSize)%Z ->
  buildOctahedralMesh octType gridSize = Returns mesh ->
  Forall (ownCache octType gridSize) events ->
  faceState_ok gridSize (runLife thresholdDot (Some mesh) events).
Proof.
  intros Hg Hmesh Hall.
  pose proof (built_index _ _ _ Hmesh) as Hidx.
  destruct (firstTriangle_ok octType gridSize Hg) as [Hlen Hfirst].
  cbv zeta in Hlen, Hfirst. rewrite <- Hidx in Hlen, Hfirst.
  assert (H0 : faceState_ok gridSize (dataEffect (Some mesh) newImpostor)).
  { unfold dataEffect.
    destruct (Z.leb_spec (Z.of_nat (length (index (geometry mesh)))) 0);
      [lia|].
    split; [apply thirds_ok|]. split; [exact Hfirst|].
    cbn [nodeMaterial newImpostor]. discriminate. }
  unfold runLife. revert H0.
  generalize (dataEffect (Some mesh) newImpostor) as s.
  induction Hall as [|e events Hown _ IH]; intros s Hs; [exact Hs|].
  cbn [fold_left]. apply IH.
  now apply (faceState_ok_step octType).
Qed.

Lemma face_state_sound_witness :
  exists mesh,
    buildOctahedralMesh HEMI 2 = Returns mesh /\
    faceState_ok 2
      (runLife 0 (Some mesh)
         [MaterialMemo true; Frame quarterTurnInput; MaterialMemo true;
          Frame quarterTurnInput]).
Proof.
  eexists. split; [reflexivity|].
  apply (face_state_sound HEMI 2 _ 0
           [MaterialMemo true; Frame quarterTurnInput; MaterialMemo true;
            Frame quarterTurnInput]).
  - lia.
  - reflexivity.
  - constructor; [exact I|]. constructor; [right; reflexivity|].
    constructor; [exact I|]. constructor; [right; reflexivity|].
    constructor.
Defined.

End FaceState.

(** ** The layout of the atlas *)

Section AtlasLayoutFacts.
Local Open Scope R_scope.

(** What is used of the rounding to doubles: a relative error of at most
    1e-15 (it is 2^-53, about 1.1e-16) on the numbers that neither
    underflow nor overflow, and no error on the integers up to 2^53. *)
Variable round : R -> R.
Hypothesis round_near :
  forall x, 1e-300 <= x <= 1e300 -> Rabs (round x - x) <= x * 1e-15.
Hypothesis round_int :
  forall z : Z, (0 <= z <= 2 ^ 53)%Z -> round (IZR z) = IZR z.

Lemma round_interval (x : R) :
  1e-300 <= x <= 1e300 ->
  x - x * 1e-15 <= round x <= x + x * 1e-15.
Proof.
  intros Hx. pose proof (round_near x Hx) as H.
  revert H. unfold Rabs. destruct (Rcase_abs _); lra.
Qed.

Lemma floor_between (r : R) (k : Z) :
  IZR k <= r < IZR k + 1 -> floor r = k.
Proof.
  intros [Hlo Hhi]. unfold floor. symmetry. apply Int_part_spec. lra.
Qed.

Lemma floor_bounds (r : R) (lo hi : Z) :
  IZR lo <= r < IZR hi + 1 -> (lo <= floor r <= hi)%Z.
Proof.
  intros [Hlo Hhi]. unfold floor.
  destruct (base_Int_part r) as [H1 H2]. split.
  - apply Z.lt_succ_r. apply lt_IZR. rewrite succ_IZR. lra.
  - apply Z.lt_succ_r. apply lt_IZR. rewrite succ_IZR. lra.
Qed.

(** An integer quotient as a real number: the quotient plus a fraction
    that is zero or at least [1 / n], and at most [1 - 1 / n]. *)
Lemma quotient_parts (m n : Z) :
  (0 < n)%Z ->
  IZR m / IZR n = IZR (m / n) + IZR (m mod n) / IZR n /\
  ((m mod n = 0)%Z \/ 1 / IZR n <= IZR (m mod n) / IZR n) /\
  IZR (m mod n) / IZR n <= 1 - 1 / IZR n /\
  0 <= IZR (m mod n) / IZR n.
Proof.
  intros Hn.
  pose proof (Z.div_mod m n ltac:(lia)) as Hdm.
  pose proof (Z.mod_pos_bound m n Hn) as Hm.
  assert (Hn' : 0 < IZR n) by now apply IZR_lt.
  assert (Hp : IZR m = IZR n * IZR (m / n) + IZR (m mod n)).
  { rewrite <- mult_IZR, <- plus_IZR. now f_equal. }
  assert (H0 : 0 <= IZR (m mod n)) by (apply IZR_le; lia).
  assert (H1 : IZR (m mod n) <= IZR n - 1).
  { rewrite <- minus_IZR. apply IZR_le. lia. }
  assert (Hinv : 0 < / IZR n) by now apply Rinv_0_lt_compat.
  unfold Rdiv. split; [rewrite Hp; field; lra|]. split; [|split].
  - destruct (Z.eq_dec (m mod n) 0) as [E|E]; [now left|right].
    assert (1 <= IZR (m mod n)) by (apply IZR_le; lia).
    rewrite Rmult_1_l. nra.
  - replace (1 - 1 * / IZR n) with ((IZR n - 1) * / IZR n) by (field; lra).
    nra.
  - nra.
Qed.

(** The side of a cell is the integer quotient: the rounding of the
    quotient cannot reach the next integer. *)
Lemma cellSize_quotient (atlasSize numCells : Z) :
  (1 <= numCells <= 1000000)%Z -> (0 <= atlasSize <= 1000000)%Z ->
  cellSize round atlasSize numCells = (atlasSize / numCells)%Z.
Proof.
  intros Hn Hs. unfold cellSize.
  replace (round (IZR atlasSize / IZR numCells) * 1.0)
    with (round (IZR atlasSize / IZR numCells)) by lra.
  destruct (quotient_parts atlasSize numCells ltac:(lia))
    as (Hq & Hfrac & Hup & Hlow).
  assert (Hn1 : 1 <= IZR numCells) by (apply IZR_le; lia).
  assert (Hn2 : IZR numCells <= 1000000) by (apply IZR_le; lia).
  assert (Hinv : 1e-6 <= 1 / IZR numCells <= 1).
  { unfold Rdiv. rewrite Rmult_1_l.
    assert (0 < / IZR numCells) by (apply Rinv_0_lt_compat; lra).
    assert (IZR numCells * / IZR numCells = 1) by (apply Rinv_r; lra).
    split; nra. }
  assert (Hm0 : (0 <= atlasSize / numCells <= 1000000)%Z).
  { split; [apply Z.div_pos; lia|].
    apply Z.div_le_upper_bound; nia. }
  assert (Hm : 0 <= IZR (atlasSize / numCells) <= 1000000).
  { split; apply IZR_le; lia. }
  destruct Hfrac as [E|Hfrac].
  - rewrite E in Hq. unfold Rdiv at 2 in Hq.
    rewrite Rmult_0_l, Rplus_0_r in Hq.
    rewrite Hq, round_int by lia. apply floor_between. lra.
  - set (q := IZR atlasSize / IZR numCells) in *.
    assert (Hrange : 1e-300 <= q <= 1e300) by lra.
    pose proof (round_interval q Hrange) as Hr.
    apply floor_between. nra.
Qed.

(** The origin of a row or column is the integer quotient
    [idx * atlasSize / numCells] or the pixel before it: the product of the
    rounded quotient can fall just below an integer. *)
Lemma pixelOrigin_bounds (idx numCells atlasSize : Z) :
  (1 <= numCells <= 1000000)%Z -> (0 <= atlasSize <= 1000000)%Z ->
  (0 <= idx <= numCells)%Z ->
  (0 <= pixelOrigin round idx numCells atlasSize)%Z /\
  (idx * atlasSize / numCells - 1
   <= pixelOrigin round idx numCells atlasSize
   <= idx * atlasSize / numCells)%Z /\
  (idx = 0%Z -> pixelOrigin round idx numCells atlasSize = 0%Z) /\
  (idx = numCells -> pixelOrigin round idx numCells atlasSize = atlasSize).
Proof.
  intros Hn Hs Hi. unfold pixelOrigin.
  assert (Hn1 : 1 <= IZR numCells) by (apply IZR_le; lia).
  assert (Hn2 : IZR numCells <= 1000000) by (apply IZR_le; lia).
  assert (Hs1 : 0 <= IZR atlasSize) by (apply IZR_le; lia).
  assert (Hs2 : IZR atlasSize <= 1000000) by (apply IZR_le; lia).
  assert (Hzero : floor (round (round (IZR 0 / IZR numCells)
                                * IZR atlasSize)) = 0%Z).
  { replace (IZR 0 / IZR numCells) with (IZR 0) by (field; lra).
    rewrite round_int by lia. rewrite Rmult_0_l.
    change 0 with (IZR 0). rewrite round_int by lia.
    apply floor_between. lra. }
  assert (Hlast : floor (round (round (IZR numCells / IZR numCells)
                                * IZR atlasSize)) = atlasSize).
  { replace (IZR numCells / IZR numCells) with (IZR 1) by (field; lra).
    rewrite round_int by lia. rewrite Rmult_1_l, round_int by lia.
    apply floor_between. lra. }
  destruct (Z.eq_dec idx 0) as [->|Hi0].
  { rewrite Hzero, Z.mul_0_l, Z.div_0_l by lia.
    repeat split; lia. }
  destruct (Z.eq_dec idx numCells) as [->|Hin].
  { rewrite Hlast.
    replace (numCells * atlasSize / numCells)%Z with atlasSize
      by (rewrite Z.mul_comm, Z.div_mul; lia).
    repeat split; lia. }
  destruct (Z.eq_dec atlasSize 0) as [->|Hs0].
  { rewrite Rmult_0_r. change 0 with (IZR 0). rewrite round_int by lia.
    replace (floor (IZR 0)) with 0%Z
      by (symmetry; apply floor_between; lra).
    rewrite Z.mul_0_r, Z.div_0_l by lia. repeat split; lia. }
  assert (Hi1 : 1 <= IZR idx) by (apply IZR_le; lia).
  assert (Hi2 : IZR idx <= IZR numCells - 1).
  { rewrite <- minus_IZR. apply IZR_le. lia. }
  assert (Hs3 : 1 <= IZR atlasSize) by (apply IZR_le; lia).
  assert (Hinv : 0 < / IZR numCells) by (apply Rinv_0_lt_compat; lra).
  assert (Hinv1 : IZR numCells * / IZR numCells = 1) by (apply Rinv_r; lra).
  set (q := IZR idx / IZR numCells).
  assert (Hq : 1e-6 <= q <= 1).
  { unfold q, Rdiv. split; nra. }
  pose proof (round_interval q ltac:(lra)) as Hq'.
  set (q' := round q) in *.
  assert (Hprod : 1e-300 <= q' * IZR atlasSize <= 1e300) by nra.
  pose proof (round_interval _ Hprod) as Hp.
  set (p := round (q' * IZR atlasSize)) in *.
  destruct (quotient_parts (idx * atlasSize) numCells ltac:(lia))
    as (Hv & _ & Hup & Hlow).
  rewrite mult_IZR in Hv.
  assert (Hvq : q * IZR atlasSize = IZR idx * IZR atlasSize / IZR numCells).
  { unfold q. field. lra. }
  rewrite <- Hvq in Hv.
  assert (Hfrac : 1 / IZR numCells >= 1e-6).
  { unfold Rdiv. rewrite Rmult_1_l. nra. }
  set (E := (idx * atlasSize / numCells)%Z) in *.
  set (f := IZR (idx * atlasSize mod numCells) / IZR numCells) in *.
  assert (HE : 0 <= IZR E).
  { apply IZR_le. unfold E. apply Z.div_pos; nia. }
  assert (Hv2 : q * IZR atlasSize <= 1000000) by nra.
  assert (Hclose : q * IZR atlasSize - 1e-8 <= p
                   <= q * IZR atlasSize + 1e-8) by nra.
  assert (Hpos : 0 <= p) by nra.
  assert (Hb : (E - 1 <= floor p <= E)%Z).
  { apply floor_bounds. rewrite minus_IZR. lra. }
  assert (H0 : (0 <= floor p)%Z).
  { apply (floor_bounds p 0 (E + 1)). rewrite plus_IZR. cbn [IZR]. lra. }
  repeat split; lia.
Qed.

Lemma in_bakeCells (numCells : Z) (pntOct : list R) (c : BakeCell) :
  In c (bakeCells numCells pntOct) ->
  (0 <= bake_row c <= numCells)%Z /\ (0 <= bake_col c <= numCells)%Z.
Proof.
  unfold bakeCells. intros H.
  apply in_flat_map in H as (r & Hr & H).
  apply in_flat_map in H as (k & Hk & H).
  apply in_upto in Hr, Hk. unfold bakeCell in H.
  destruct (_ <=? _)%Z; [destruct H|].
  destruct H as [<- | []]. cbn. lia.
Qed.

Lemma quotient_superadditive (a b c n : Z) :
  (0 < n)%Z -> (a + b <= c)%Z -> (a / n + b / n <= c / n)%Z.
Proof.
  intros Hn Hle.
  pose proof (Z.div_mod a n ltac:(lia)).
  pose proof (Z.div_mod b n ltac:(lia)).
  pose proof (Z.div_mod c n ltac:(lia)).
  pose proof (Z.mod_pos_bound a n Hn).
  pose proof (Z.mod_pos_bound b n Hn).
  pose proof (Z.mod_pos_bound c n Hn).
  nia.
Qed.

Lemma origin_then_cell (numCells atlasSize i j : Z) :
  (1 <= numCells <= 1000000)%Z -> (0 <= atlasSize <= 1000000)%Z ->
  (0 <= i)%Z -> (i < j)%Z -> (j <= numCells)%Z ->
  (pixelOrigin round i numCells atlasSize + cellSize round atlasSize numCells
   <= j * atlasSize / numCells)%Z.
Proof.
  intros Hn Hs Hi Hij Hj.
  destruct (pixelOrigin_bounds i numCells atlasSize Hn Hs ltac:(lia))
    as (_ & [_ Hup] & _).
  rewrite cellSize_quotient by assumption.
  pose proof (quotient_superadditive (i * atlasSize) atlasSize
                (j * atlasSize) numCells ltac:(lia) ltac:(nia)).
  lia.
Qed.

(** X16: where the bake draws.  With the rounding of the doubles having a
    relative error of at most 1e-15 and none on integers, a grid of 1 to
    10^6 cells and an atlas size of 0 to 10^6: every image the bake draws
    comes from a grid position [(row, col)] with both between 0 and
    [numCells], and is put at the pixel [(pixelX, pixelY)] where [pixelX]
    is the integer quotient [col * atlasSize / numCells] or the pixel
    before it, and never negative.  When [col < numCells] the [cellSize]
    columns of the image fit in the canvas ([pixelX + cellSize <=
    atlasSize]); when [col = numCells] the image starts at [pixelX =
    atlasSize], past the last column of the canvas, which is [atlasSize]
    wide.  The same holds for rows and [pixelY]. *)
Theorem atlas_draws_placement (Image : Type)
    (renderAndRead : vec3 -> option Image)
    (numCells atlasSize : Z) (pntOct : list R) (d : Draw Image) :
  (1 <= numCells <= 1000000)%Z -> (0 <= atlasSize <= 1000000)%Z ->
  In d (atlasDraws Image renderAndRead round numCells atlasSize pntOct) ->
  exists row col : Z,
    (0 <= row <= numCells)%Z /\ (0 <= col <= numCells)%Z /\
    (0 <= draw_pixelX Image d)%Z /\
    (col * atlasSize / numCells - 1 <= draw_pixelX Image d
     <= col * atlasSize / numCells)%Z /\
    ((col < numCells)%Z ->
     (draw_pixelX Image d + cellSize round atlasSize numCells
      <= atlasSize)%Z) /\
    (col = numCells -> draw_pixelX Image d = atlasSize) /\
    (0 <= draw_pixelY Image d)%Z /\
    (row * atlasSize / numCells - 1 <= draw_pixelY Image d
     <= row * atlasSize / numCells)%Z /\
    ((row < numCells)%Z ->
     (draw_pixelY Image d + cellSize round atlasSize numCells
      <= atlasSize)%Z) /\
    (row = numCells -> draw_pixelY Image d = atlasSize).
Proof.
  intros Hn Hs Hd. unfold atlasDraws in Hd.
  apply in_flat_map in Hd as (c & Hc & Hd).
  apply in_bakeCells in Hc as [Hrow Hcol].
  destruct (renderAndRead (bake_cameraPosition c)) as [image|];
    [|destruct Hd].
  destruct Hd as [<- | []].
  exists (bake_row c), (bake_col c).
  cbn [draw_pixelX draw_pixelY].
  assert (Hplace : forall i, (0 <= i <= numCells)%Z ->
            (0 <= pixelOrigin round i numCells atlasSize)%Z /\
            (i * atlasSize / numCells - 1
             <= pixelOrigin round i numCells atlasSize
             <= i * atlasSize / numCells)%Z /\
            ((i < numCells)%Z ->
             (pixelOrigin round i numCells atlasSize
              + cellSize round atlasSize numCells <= atlasSize)%Z) /\
            (i = numCells ->
             pixelOrigin round i numCells atlasSize = atlasSize)).
  { intros i Hi.
    destruct (pixelOrigin_bounds i numCells atlasSize Hn Hs Hi)
      as (H0 & Hb & _ & Hend).
    split; [exact H0|]. split; [exact Hb|]. split; [|exact Hend].
    intros Hlt.
    pose proof (origin_then_cell numCells atlasSize i numCells Hn Hs
                  ltac:(lia) Hlt ltac:(lia)) as Hstep.
    replace (numCells * atlasSize / numCells)%Z with atlasSize in Hstep
      by (rewrite Z.mul_comm, Z.div_mul; lia).
    exact Hstep. }
  destruct (Hplace _ Hrow) as (R0 & R1 & R2 & R3).
  destruct (Hplace _ Hcol) as (C0 & C1 & C2 & C3).
  split; [exact Hrow|]. split; [exact Hcol|].
  split; [exact C0|]. split; [exact C1|]. split; [exact C2|].
  split; [exact C3|]. split; [exact R0|]. split; [exact R1|].
  split; [exact R2 | exact R3].
Qed.

(** X17: the cells of the atlas overlap by one pixel at most.  Under the
    same conditions, the origin of a row or column plus [cellSize] is at
    most the origin of every later row or column plus one; the first
    origin is 0, the origin of index [numCells] is [atlasSize], and
    [cellSize] is the integer quotient [atlasSize / numCells].  (In exact
    arithmetic the cells would not overlap; a product rounded just below
    an integer makes a cell start one pixel early.) *)
Theorem atlas_cells_overlap_bound (numCells atlasSize i j : Z) :
  (1 <= numCells <= 1000000)%Z -> (0 <= atlasSize <= 1000000)%Z ->
  (0 <= i)%Z -> (i < j)%Z -> (j <= numCells)%Z ->
  (pixelOrigin round i numCells atlasSize + cellSize round atlasSize numCells
   <= pixelOrigin round j numCells atlasSize + 1)%Z /\
  pixelOrigin round 0 numCells atlasSize = 0%Z /\
  pixelOrigin round numCells numCells atlasSize = atlasSize /\
  cellSize round atlasSize numCells = (atlasSize / numCells)%Z.
Proof.
  intros Hn Hs Hi Hij Hj.
  pose proof (origin_then_cell numCells atlasSize i j Hn Hs Hi Hij Hj)
    as Hstep.
  destruct (pixelOrigin_bounds j numCells atlasSize Hn Hs ltac:(lia))
    as (_ & [Hlow _] & _).
  destruct (pixelOrigin_bounds 0 numCells atlasSize Hn Hs ltac:(lia))
    as (_ & _ & H0 & _).
  destruct (pixelOrigin_bounds numCells numCells atlasSize Hn Hs ltac:(lia))
    as (_ & _ & _ & Hend).
  split; [lia|]. split; [now apply H0|]. split; [now apply Hend|].
  now apply cellSize_quotient.
Qed.

End AtlasLayoutFacts.

Lemma exact_rounding :
  (forall x, 1e-300 <= x <= 1e300 -> Rabs (x - x) <= x * 1e-15)%R /\
  (forall z : Z, (0 <= z <= 2 ^ 53)%Z -> IZR z = IZR z).
Proof.
  split; [|reflexivity]. intros x Hx.
  replace (x - x)%R with 0%R by ring. rewrite Rabs_R0. lra.
Qed.

Lemma atlas_draws_placement_witness :
  exists row col : Z,
    (0 <= row <= 1)%Z /\ (0 <= col <= 1)%Z /\
    (0 <= pixelOrigin (fun x => x) 0 1 4)%Z.
Proof.
  destruct exact_rounding as [Hnear Hint].
  destruct (atlas_draws_placement (fun x => x) Hnear Hint
              unit (fun _ => Some tt) 1 4
              [0; 0.5; 0; 0; 0.5; 0; 0; 0.5; 0; 0; 0.5; 0]%R
              {| draw_image := tt;
                 draw_pixelX := pixelOrigin (fun x => x) 0 1 4;
                 draw_pixelY := pixelOrigin (fun x => x) 0 1 4 |})
    as (row & col & Hr & Hc & Hx & _); [lia | lia | now left |].
  exists row, col. cbn [draw_pixelX] in Hx. now repeat split.
Defined.

Lemma atlas_cells_overlap_bound_witness :
  (pixelOrigin (fun x => x) 6 10 700 + cellSize (fun x => x) 700 10
   <= pixelOrigin (fun x => x) 7 10 700 + 1)%Z.
Proof.
  destruct exact_rounding as [Hnear Hint].
  apply (atlas_cells_overlap_bound (fun x => x) Hnear Hint 10 700 6 7); lia.
Defined.


(** ** The seeded scattering of the field *)

Module FieldFacts.
Import Field.

Lemma toInt32_mod (z : Z) : (toInt32 z mod 2 ^ 32 = z mod 2 ^ 32)%Z.
Proof.
  unfold toInt32. rewrite Zminus_mod_idemp_l. f_equal. lia.
Qed.

Lemma toInt32_wraps (z k : Z) : toInt32 (z + k * 2 ^ 32) = toInt32 z.
Proof.
  unfold toInt32.
  replace (z + k * 2 ^ 32 + 2 ^ 31)%Z with (z + 2 ^ 31 + k * 2 ^ 32)%Z by lia.
  now rewrite Z_mod_plus_full.
Qed.

Lemma toUint32_wraps (z k : Z) : toUint32 (z + k * 2 ^ 32) = toUint32 z.
Proof. unfold toUint32. now rewrite Z_mod_plus_full. Qed.

Lemma toUint32_range (z : Z) : (0 <= toUint32 z < 4294967296)%Z.
Proof. unfold toUint32. apply Z.mod_pos_bound. lia. Qed.

Lemma hashStep_mod (hash hash' charCode : Z) :
  (hash mod 2 ^ 32 = hash' mod 2 ^ 32)%Z ->
  (hashStep hash charCode mod 2 ^ 32
   = (31 * hash' + charCode) mod 2 ^ 32)%Z.
Proof.
  intros H. unfold hashStep, shl.
  rewrite toInt32_mod.
  replace (toInt32 (Z.shiftl (toInt32 hash) 5) - hash + charCode)%Z
    with (toInt32 (Z.shiftl (toInt32 hash) 5) + (charCode - hash))%Z by lia.
  rewrite <- Zplus_mod_idemp_l, toInt32_mod, Z.shiftl_mul_pow2 by lia.
  rewrite <- Zmult_mod_idemp_l, toInt32_mod, Zmult_mod_idemp_l.
  rewrite Zplus_mod_idemp_l.
  replace (hash * 2 ^ 5 + (charCode - hash))%Z
    with (31 * hash + charCode)%Z by lia.
  rewrite <- Zplus_mod_idemp_l, <- Zmult_mod_idemp_r, H.
  now rewrite Zmult_mod_idemp_r, Zplus_mod_idemp_l.
Qed.

Lemma hashLoop_mod (stringValue : list Z) (hash hash' : Z) :
  (hash mod 2 ^ 32 = hash' mod 2 ^ 32)%Z ->
  (fold_left hashStep stringValue hash mod 2 ^ 32
   = fold_left (fun h c => 31 * h + c) stringValue hash' mod 2 ^ 32)%Z.
Proof.
  revert hash hash'.
  induction stringValue as [|c l IH]; intros hash hash' H; [exact H|].
  cbn [fold_left]. apply IH. rewrite (hashStep_mod hash hash' c H).
  reflexivity.
Qed.

(** X18: [hashSeed] is the polynomial hash of base 31 modulo 2^32.  For
    every string, given by its code units [c1 ... cn], the shifts,
    subtractions and 32-bit truncations of the loop compute
    [(c1 * 31^(n-1) + ... + cn) mod 2^32], a number of [0, 2^32 - 1]. *)
Theorem hashSeed_polynomial (stringValue : list Z) :
  hashSeed stringValue
  = (fold_left (fun h c => 31 * h + c) stringValue 0 mod 2 ^ 32)%Z /\
  (0 <= hashSeed stringValue < 2 ^ 32)%Z.
Proof.
  unfold hashSeed, toUint32. split.
  - now apply hashLoop_mod.
  - apply Z.mod_pos_bound. lia.
Qed.

Lemma xor_wraps (t k x : Z) : xor (t + k * 2 ^ 32) x = xor t x.
Proof. unfold xor. now rewrite toInt32_wraps. Qed.

Lemma or_wraps (t k x : Z) : or (t + k * 2 ^ 32) x = or t x.
Proof. unfold or. now rewrite toInt32_wraps. Qed.

Lemma ushr_wraps (t k n : Z) : ushr (t + k * 2 ^ 32) n = ushr t n.
Proof. unfold ushr. now rewrite toUint32_wraps. Qed.

Lemma nextBits_wraps (seed k : Z) :
  nextBits (seed + k * 2 ^ 32)
  = (fst (nextBits seed), (snd (nextBits seed) + k * 2 ^ 32)%Z).
Proof.
  unfold nextBits. cbv zeta. cbn [fst snd].
  replace (seed + k * 2 ^ 32 + 0x6d2b79f5)%Z
    with (seed + 0x6d2b79f5 + k * 2 ^ 32)%Z by lia.
  now rewrite xor_wraps, or_wraps, ushr_wraps.
Qed.

Lemma bits_ratio (bits : Z) :
  (0 <= bits < 4294967296)%Z -> (0 <= IZR bits / 4294967296 < 1)%R.
Proof.
  intros [H0 H1]. apply IZR_le in H0. apply IZR_lt in H1.
  generalize dependent (IZR bits). intros x H0 H1. lra.
Qed.

Lemma random_range (seed : Z) : (0 <= fst (random seed) < 1)%R.
Proof.
  unfold random.
  assert (Hb : (0 <= fst (nextBits seed) < 4294967296)%Z).
  { unfold nextBits. cbv zeta. cbn [fst]. apply toUint32_range. }
  destruct (nextBits seed) as [bits seed']. cbn [fst] in *.
  now apply bits_ratio.
Qed.

(** X19: the generator is Mulberry32 although its seed is never wrapped.
    The closure adds [0x6d2b79f5] to [seed] without truncating it, but a
    call reads the seed through 32-bit operations only.  As long as the
    seed is an exact double (zero or more, and at most 2^53 once
    [0x6d2b79f5] is added, which holds for the first four million calls
    after [hashSeed]), the call made with the seed [seed + k * 2^32] draws
    the number drawn with [seed] and leaves a seed that again differs by
    [k * 2^32]; and every number drawn lies in [0, 1). *)
Theorem random_depends_on_low_bits (seed k : Z) :
  (0 <= seed)%Z -> (seed + 0x6d2b79f5 <= 2 ^ 53)%Z ->
  (0 <= seed + k * 2 ^ 32)%Z ->
  (seed + k * 2 ^ 32 + 0x6d2b79f5 <= 2 ^ 53)%Z ->
  fst (random (seed + k * 2 ^ 32)) = fst (random seed) /\
  snd (random (seed + k * 2 ^ 32)) = (snd (random seed) + k * 2 ^ 32)%Z /\
  (0 <= fst (random seed) < 1)%R.
Proof.
  intros _ _ _ _. split; [|split].
  - unfold random. rewrite nextBits_wraps.
    now destruct (nextBits seed).
  - unfold random. rewrite nextBits_wraps.
    now destruct (nextBits seed).
  - apply random_range.
Qed.

Lemma random_depends_on_low_bits_witness :
  fst (random (2024 + 3 * 2 ^ 32)) = fst (random 2024).
Proof.
  apply (random_depends_on_low_bits 2024 3); lia.
Defined.

Section ScatterFacts.
Local Open Scope R_scope.

Lemma offset_bound (r size : R) :
  0 <= r < 1 -> Rabs ((r - 0.5) * size) <= Rabs size / 2.
Proof.
  intros Hr. rewrite Rabs_mult.
  pose proof (Rabs_pos size).
  assert (Rabs (r - 0.5) <= 0.5).
  { unfold Rabs. destruct (Rcase_abs _); lra. }
  nra.
Qed.

Lemma scale_bound (b s : R) :
  0.0001 * Rabs b <= Rabs (b * Rmax 0.0001 s).
Proof.
  rewrite Rabs_mult. pose proof (Rabs_pos b).
  pose proof (Rmax_l 0.0001 s).
  rewrite (Rabs_right (Rmax 0.0001 s)) by lra. nra.
Qed.

Lemma placeInstance_ok (props : FieldProps) (candidateX candidateZ : R)
    (seed : Z) :
  Rabs (candidateX - vx (origin props)) <= Rabs (fst (areaSize props)) / 2 ->
  Rabs (candidateZ - vz (origin props)) <= Rabs (snd (areaSize props)) / 2 ->
  rejected props candidateX candidateZ = false ->
  instance_ok props (fst (placeInstance props candidateX candidateZ seed)).
Proof.
  intros Hx Hz Hrej. unfold placeInstance.
  set (height := if Req_dec_T (minHeight props) (maxHeight props)
                 then _ else _).
  assert (Hh : minHeight props <= maxHeight props ->
               minHeight props <= fst height <= maxHeight props).
  { intros Hle. unfold height.
    destruct (Req_dec_T (minHeight props) (maxHeight props)) as [E|E];
      cbn [fst]; [lra|].
    pose proof (random_range seed) as Hr.
    destruct (random seed) as [r seed']. cbn [fst] in *. nra. }
  destruct height as [heightOffset seed1]. cbn [fst] in Hh.
  set (scale := if Req_dec_T (minScale props) (maxScale props)
                then _ else _).
  assert (Hs : exists s, fst scale = Rmax 0.0001 s).
  { unfold scale.
    destruct (Req_dec_T (minScale props) (maxScale props)).
    - eexists. reflexivity.
    - destruct (random seed1) as [r seed']. eexists. reflexivity. }
  destruct scale as [uniformScale seed2]. cbn [fst] in Hs.
  destruct Hs as [s ->].
  unfold instance_ok. cbn [fst instance_position instance_scale vx vy vz].
  split; [exact Hx|]. split; [exact Hz|]. split.
  - intros Hpos. unfold rejected in Hrej.
    destruct (Rgt_dec (avoidRadius props) 0); [|lra].
    destruct (Rlt_dec _ _); [discriminate | lra].
  - split; [intros Hle; specialize (Hh Hle); lra|].
    repeat split; apply scale_bound.
Qed.

Lemma scatterLoop_ok (props : FieldProps) (attemptsLeft : nat) :
  forall (seed : Z) (generated : list Instance),
    Forall (instance_ok props) generated ->
    Forall (instance_ok props) (scatterLoop attemptsLeft props seed generated).
Proof.
  induction attemptsLeft as [|n IH]; intros seed generated Hgen;
    [exact Hgen|].
  cbn [scatterLoop].
  destruct (_ <=? _)%Z; [exact Hgen|].
  pose proof (random_range seed) as Hr1.
  destruct (random seed) as [r1 seed1]. cbn [fst] in Hr1.
  pose proof (random_range seed1) as Hr2.
  destruct (random seed1) as [r2 seed2]. cbn [fst] in Hr2.
  cbv zeta.
  destruct (rejected props _ _) eqn:Hrej; [now apply IH|].
  match goal with |- context [placeInstance props ?cx ?cz seed2] =>
    pose proof (placeInstance_ok props cx cz seed2) as Hplace
  end.
  destruct (placeInstance props _ _ seed2) as [instance seed3].
  apply IH. apply Forall_app. split; [exact Hgen|].
  constructor; [|constructor]. apply Hplace.
  - replace (vx (origin props) + (r1 - 0.5) * fst (areaSize props)
             - vx (origin props)) with ((r1 - 0.5) * fst (areaSize props))
      by ring.
    now apply offset_bound.
  - replace (vz (origin props) + (r2 - 0.5) * snd (areaSize props)
             - vz (origin props)) with ((r2 - 0.5) * snd (areaSize props))
      by ring.
    now apply offset_bound.
  - exact Hrej.
Qed.

Lemma scatterLoop_length (props : FieldProps) (attemptsLeft : nat) :
  forall (seed : Z) (generated : list Instance),
    (Z.of_nat (length generated) <= count props)%Z ->
    (Z.of_nat (length (scatterLoop attemptsLeft props seed generated))
     <= count props)%Z.
Proof.
  induction attemptsLeft as [|n IH]; intros seed generated Hgen;
    [exact Hgen|].
  cbn [scatterLoop].
  destruct (Z.leb_spec (count props) (Z.of_nat (length generated)));
    [exact Hgen|].
  destruct (random seed) as [r1 seed1].
  destruct (random seed1) as [r2 seed2]. cbv zeta.
  destruct (rejected props _ _); [now apply IH|].
  destruct (placeInstance props _ _ seed2) as [instance seed3].
  apply IH. rewrite length_app. cbn [length]. lia.
Qed.

Lemma scatterLoop_full (props : FieldProps) (attemptsLeft : nat) :
  avoidRadius props <= 0 ->
  forall (seed : Z) (generated : list Instance),
    (Z.of_nat (length generated) <= count props)%Z ->
    Z.of_nat (length (scatterLoop attemptsLeft props seed generated))
    = Z.min (count props) (Z.of_nat (length generated + attemptsLeft)).
Proof.
  intros Hav.
  induction attemptsLeft as [|n IH]; intros seed generated Hgen.
  - cbn [scatterLoop]. rewrite Nat.add_0_r. lia.
  - cbn [scatterLoop].
    destruct (Z.leb_spec (count props) (Z.of_nat (length generated)));
      [lia|].
    destruct (random seed) as [r1 seed1].
    destruct (random seed1) as [r2 seed2]. cbv zeta.
    unfold rejected. destruct (Rgt_dec (avoidRadius props) 0); [lra|].
    destruct (placeInstance props _ _ seed2) as [instance seed3].
    rewrite IH by (rewrite length_app; cbn [length]; lia).
    rewrite length_app. cbn [length]. lia.
Qed.

(** X20: what the scattering promises.  For all props, the list of
    instances holds at most [count] entries (none when [count <= 0]), and
    every instance lies in the rectangle of the area around the origin
    ([|x - originX| <= |width| / 2], [|z - originZ| <= |depth| / 2]), at
    least [avoidRadius] away from the origin in the plane when
    [avoidRadius > 0], at a height offset between [minHeight] and
    [maxHeight] when [minHeight <= maxHeight], with every component of its
    scale at least [0.0001] times the absolute value of the base
    scale. *)
Theorem instances_sound (props : FieldProps) :
  Forall (instance_ok props) (instances props) /\
  (Z.of_nat (length (instances props)) <= Z.max 0 (count props))%Z.
Proof.
  unfold instances.
  destruct (Z.leb_spec (count props) 0) as [Hc|Hc].
  - split; [constructor | cbn; lia].
  - split.
    + apply scatterLoop_ok. constructor.
    + pose proof (scatterLoop_length props (Z.to_nat (count props * 10))
                    (hashSeed (seedString props)) []) as H.
      cbn [length] in H. lia.
Qed.

(** X21: without an avoided disc the field is full.  When
    [avoidRadius <= 0] no attempt is rejected, so for every [count >= 0]
    the list of instances has exactly [count] entries, whatever the seed
    and the other props. *)
Theorem instances_full (props : FieldProps) :
  avoidRadius props <= 0 -> (0 <= count props)%Z ->
  Z.of_nat (length (instances props)) = count props.
Proof.
  intros Hav Hc. unfold instances.
  destruct (Z.leb_spec (count props) 0) as [H0|H0]; [cbn; lia|].
  rewrite scatterLoop_full by (assumption || (cbn; lia)).
  cbn [length]. lia.
Qed.

Lemma instances_full_witness :
  Z.of_nat (length (instances
    {| count := 150;
       origin := Vec3 0 0 0;
       areaSize := (60, 60);
       minHeight := 0;
       maxHeight := 0;
       minScale := 0.7;
       maxScale := 1.4;
       baseScale := Vec3 1 1 1;
       avoidRadius := 0;
       seedString := [50; 48; 50; 52]%Z |})) = 150%Z.
Proof.
  apply (instances_full
    {| count := 150;
       origin := Vec3 0 0 0;
       areaSize := (60, 60);
       minHeight := 0;
       maxHeight := 0;
       minScale := 0.7;
       maxScale := 1.4;
       baseScale := Vec3 1 1 1;
       avoidRadius := 0;
       seedString := [50; 48; 50; 52]%Z |});
    cbn [avoidRadius count]; [lra | lia].
Defined.

End ScatterFacts.

End FieldFacts.

(** ** The pattern of the diagonals *)

Section DiagonalPattern.

Lemma Qeq_bool_inject (q : Q) (z t : Z) :
  (q == inject_Z z)%Q -> Qeq_bool q (inject_Z t) = (z =? t)%Z.
Proof.
  intros Hq. destruct (Z.eqb_spec z t) as [->|Hne].
  - now apply Qeq_bool_iff.
  - destruct (Qeq_bool q (inject_Z t)) eqn:E; [|reflexivity].
    apply Qeq_bool_iff in E. rewrite Hq in E.
    exfalso. apply Hne. unfold Qeq, inject_Z in E. cbn in E. lia.
Qed.

Lemma half_of_Z (n : Z) :
  js_floor (js_mul (of_Z n) (JFin (1 # 2)%Q)) = of_Z (n / 2).
Proof.
  unfold js_mul, of_Z, js_floor. do 2 f_equal.
  unfold Qfloor, Qmult, inject_Z. cbn [Qnum Qden].
  f_equal; lia.
Qed.

Lemma floor_div_of_Z (x h : Z) :
  h <> 0%Z -> js_floor (js_div (of_Z x) (of_Z h)) = of_Z (x / h).
Proof.
  intros Hh. unfold js_div, of_Z, Qzero. cbn [inject_Z Qnum].
  destruct (Z.eqb_spec h 0); [contradiction|].
  cbn [js_floor]. do 2 f_equal. now apply FlatIndexFacts.Qfloor_div_Z.
Qed.

Lemma alt_key_closed (x y h t : Z) :
  (1 <= h)%Z -> (0 <= x)%Z -> (0 <= y)%Z ->
  js_strict_eq (alt_key (of_Z x) (of_Z y) (of_Z h) (of_Z h)) (of_Z t)
  = (((x / h + y / h) mod 2) =? t)%Z.
Proof.
  intros Hh Hx Hy. unfold alt_key.
  rewrite !floor_div_of_Z by lia.
  assert (Ha : (0 <= x / h)%Z) by (apply Z.div_pos; lia).
  assert (Hb : (0 <= y / h)%Z) by (apply Z.div_pos; lia).
  generalize dependent (x / h)%Z. intros a Ha.
  generalize dependent (y / h)%Z. intros b Hb.
  unfold of_Z, js_add, js_rem, Qzero. cbn [inject_Z Qnum Z.eqb].
  cbn [js_strict_eq]. apply Qeq_bool_inject.
  assert (Ht : Qtrunc (Qplus (inject_Z a) (inject_Z b) / (2 # 1))
               = ((a + b) / 2)%Z).
  { unfold Qtrunc, Qdiv, Qinv, Qmult, Qplus, inject_Z. cbn [Qnum Qden].
    rewrite Z.quot_div_nonneg by lia. f_equal; lia. }
  change (2 # 1)%Q with (inject_Z 2) in *. rewrite Ht.
  rewrite <- inject_Z_plus, <- inject_Z_mult.
  unfold Qminus. rewrite <- inject_Z_opp, <- inject_Z_plus.
  apply inject_Z_injective.
  pose proof (Z.div_mod (a + b) 2 ltac:(lia)). lia.
Qed.

(** X22: which diagonal a cell gets.  For a grid size of at least two,
    [h = floor(gridSize / 2)] is at least one and the checkerboard key is a
    number: the cell at [(row, col)] of the cache has the backslash
    diagonal exactly when [(floor(col / h) + floor(row / h)) mod 2] equals
    the octahedron type, whatever number the type is.  For an even grid
    size the two quotients are 0 or 1, so the diagonals change direction
    from one quadrant of the grid to the next. *)
Theorem cache_diagonal_pattern (octType gridSize row col : Z) :
  (2 <= gridSize)%Z ->
  (0 <= row < gridSize)%Z -> (0 <= col < gridSize)%Z ->
  exists cell,
    readCell (cells (freshCache octType gridSize)) (row * gridSize + col)
      = Some cell /\
    isBackslash cell
    = (((col / (gridSize / 2) + row / (gridSize / 2)) mod 2) =? octType)%Z.
Proof.
  intros Hg Hr Hc.
  destruct (freshCache_cell octType gridSize row col Hr Hc)
    as (cell & Hcell & Hflag & _).
  exists cell. split; [exact Hcell|].
  rewrite Hflag, half_of_Z.
  assert (Hh : (1 <= gridSize / 2)%Z).
  { apply Z.div_le_lower_bound; lia. }
  apply alt_key_closed; lia.
Qed.

Lemma cache_diagonal_pattern_witness :
  exists cell,
    readCell (cells (freshCache HEMI 4)) (3 * 4 + 1) = Some cell /\
    isBackslash cell = (((1 / (4 / 2) + 3 / (4 / 2)) mod 2) =? HEMI)%Z.
Proof.
  apply (cache_diagonal_pattern HEMI 4 3 1); lia.
Defined.

End DiagonalPattern.

(** ** The triangles of the mesh *)

Section MeshTriangles.

Lemma flat_map_pairs {A B C : Type} (g : A -> B -> list C)
    (ys : list A) (xs : list B) :
  flat_map (fun y => flat_map (fun x => g y x) xs) ys
  = flat_map (fun p => g (fst p) (snd p))
             (flat_map (fun y => map (fun x => (y, x)) xs) ys).
Proof.
  induction ys as [|y ys IH]; [reflexivity|].
  cbn [flat_map]. rewrite flat_map_app, IH. f_equal.
  clear IH. induction xs as [|x xs IHx]; [reflexivity|].
  cbn [flat_map map fst snd]. now rewrite IHx.
Qed.

Lemma triangleList_blocks {A : Type} (g : A -> list Z) (l : list A) :
  (forall x, exists a b c d e f, g x = [a; b; c; d; e; f]) ->
  triangleList (flat_map g l) = flat_map (fun x => triangleList (g x)) l.
Proof.
  intros Hg. induction l as [|x l IH]; [reflexivity|].
  cbn [flat_map]. destruct (Hg x) as (a & b & c & d & e & f & ->).
  cbn [app triangleList]. now rewrite IH.
Qed.

Lemma cellIndices_six isFull xLen xHalf yHalf y x :
  exists a b c d e f,
    cellIndices isFull xLen xHalf yHalf y x = [a; b; c; d; e; f].
Proof.
  unfold cellIndices. destruct js_strict_eq; do 6 eexists; reflexivity.
Qed.

(** X23: the index array is a list of proper triangles.  For every type
    and all cell counts, each triangle [(i0, i1, i2)] packed in the array
    returned by [octPlaneIndices] belongs to one cell [(y, x)] of the grid,
    [0 <= y < yCells], [0 <= x < xCells]: its three vertices are corners of
    that cell and are pairwise different, so no triangle is degenerate and
    none spans two cells. *)
Theorem octPlaneIndices_triangles (isFull xCells yCells : Z)
    (i0 i1 i2 : Z) :
  In (i0, i1, i2) (triangleList (octPlaneIndices isFull xCells yCells)) ->
  exists y x : Z,
    (0 <= y < yCells)%Z /\ (0 <= x < xCells)%Z /\
    In i0 (cellCorners xCells y x) /\
    In i1 (cellCorners xCells y x) /\
    In i2 (cellCorners xCells y x) /\
    i0 <> i1 /\ i1 <> i2 /\ i0 <> i2.
Proof.
  unfold octPlaneIndices. cbv zeta.
  rewrite flat_map_pairs, triangleList_blocks
    by (intros [y x]; apply cellIndices_six).
  intros H. apply in_flat_map in H as ([y x] & Hp & H).
  apply in_flat_map in Hp as (y' & Hy & Hp).
  apply in_map_iff in Hp as (x' & Heq & Hx). injection Heq as <- <-.
  apply in_upto in Hy, Hx. exists y', x'.
  split; [exact Hy|]. split; [exact Hx|].
  cbn [fst snd] in H. unfold cellIndices, cellCorners in *.
  destruct js_strict_eq; cbn [triangleList In] in H;
    destruct H as [H | [H | []]]; injection H as <- <- <-;
    cbn [In]; repeat split; auto 6; nia.
Qed.

Lemma octPlaneIndices_triangles_witness :
  exists y x : Z,
    (0 <= y < 1)%Z /\ (0 <= x < 1)%Z /\
    In 1%Z (cellCorners 1 y x) /\
    In 0%Z (cellCorners 1 y x) /\
    In 2%Z (cellCorners 1 y x).
Proof.
  destruct (octPlaneIndices_triangles HEMI 1 1 1 0 2)
    as (y & x & Hy & Hx & H0 & H1 & H2 & _); [now left|].
  now exists y, x.
Defined.

End MeshTriangles.

(** ** The atlas cache over a run *)

Module AtlasPayloadsFacts.
Import AtlasRequests AtlasPayloads AtlasRequestsFacts.

Lemma payloads_ok_init : payloads_ok init.
Proof.
  split; cbn; intros.
  - exfalso. eapply not_elem_of_nil; eassumption.
  - exfalso. eapply not_elem_of_nil; eassumption.
  - rewrite lookup_empty in H. discriminate.
  - rewrite lookup_empty in H. discriminate.
  - exfalso. eapply not_elem_of_nil; eassumption.
  - rewrite lookup_nil in H. discriminate.
Qed.

Lemma payloads_ok_effect r key bakeOk w :
  payloads_ok w -> payloads_ok (effect r key bakeOk w).
Proof.
  intros [I1 I3 I4 Ia Ib Ic]. unfold effect.
  destruct (atlasCache w !! key) as [cachedAtlas|] eqn:Ec.
  { split; cbn [setAtlas queue atlasCache bakes atlas promises];
      try assumption.
    intros r' a H. apply lookup_insert_Some in H as [[_ <-] | [_ H]].
    - now exists key.
    - now apply (Ia r'). }
  destruct (pendingAtlasPromises w !! key) as [p|] eqn:Ep.
  - unfold attach. destruct (promises w !! p) as [pr|] eqn:Epr;
      [|split; assumption].
    destruct (settled pr) as [outcome|] eqn:Es.
    + split; unfold cached, bakedFor in *;
        cbn [enqueue queue atlasCache bakes atlas promises];
        try assumption.
      * intros p' k r' out H. apply elem_of_app in H as [H|H];
          [now apply (I1 p' k r' out)|].
        apply list_elem_of_singleton in H. discriminate.
      * intros p' k r' a H. apply elem_of_app in H as [H|H];
          [now apply (I3 p' k r')|].
        apply list_elem_of_singleton in H. discriminate.
      * intros r' a H. apply elem_of_app in H as [H|H];
          [now apply (Ib r')|].
        apply list_elem_of_singleton in H. injection H as _ <-.
        now apply (Ic p pr).
    + split; unfold cached, bakedFor in *;
        cbn [queue atlasCache bakes atlas promises]; try assumption.
      intros p' pr' a H Hs.
      apply list_lookup_insert_Some in H as [(_ & <- & _) | [_ H]].
      * discriminate.
      * now apply (Ic p' pr').
  - split; unfold cached, bakedFor in *;
      cbn [startBake queue atlasCache bakes atlas promises];
      try assumption.
    + intros p' k r' out H. apply elem_of_app in H as [H|H];
        [now apply (I1 p' k r' out)|].
      apply list_elem_of_singleton in H. injection H as _ -> _ _.
      exact Ec.
    + intros p' k r' a H. apply elem_of_app in H as [H|H].
      * apply lookup_app_l_Some. now apply (I3 p' k r').
      * apply list_elem_of_singleton in H. injection H as _ -> _ H.
        destruct bakeOk; [|discriminate]. injection H as ->.
        now apply list_lookup_middle.
    + intros k a H. apply lookup_app_l_Some. now apply I4.
    + intros r' a H. apply elem_of_app in H as [H|H];
        [now apply (Ib r')|].
      apply list_elem_of_singleton in H. discriminate.
    + intros p' pr' a H Hs.
      apply lookup_app_Some in H as [H | [_ H]]; [now apply (Ic p' pr')|].
      apply list_lookup_singleton_Some in H as [_ <-]. discriminate.
Qed.

Lemma bake_job_counted (key : cacheKey) (j : job) (q : list job) :
  j ∈ q -> isBakeJob key j = true -> 1 <= countBakeJobs key q.
Proof.
  intros Hin Hj. induction q as [|x q IH].
  - exfalso. eapply not_elem_of_nil; eassumption.
  - rewrite countBakeJobs_cons. apply elem_of_cons in Hin as [<- | Hin].
    + rewrite Hj. lia.
    + specialize (IH Hin). lia.
Qed.

Lemma payloads_ok_microtask w :
  oneInFlight w -> payloads_ok w -> payloads_ok (microtask w).
Proof.
  intros Hone Inv. pose proof Inv as [I1 I3 I4 Ia Ib Ic].
  unfold microtask. destruct (queue w) as [|j rest] eqn:Eq; [exact Inv|].
  assert (I1' : forall p k r out,
            JobBakeDone p k r out ∈ rest -> atlasCache w !! k = None).
  { intros p k r out H. apply (I1 p k r out). now right. }
  assert (I3' : forall p k r a,
            JobBakeDone p k r (Some a) ∈ rest -> bakedFor w a k).
  { intros p k r a H. apply (I3 p k r). now right. }
  assert (Ib' : forall r a, JobWaiter r (Some a) ∈ rest -> cached w a).
  { intros r a H. apply (Ib r). now right. }
  destruct j as [p key owner [made|] | key | r [cachedAtlas|]];
    cbn [runJob].
  - assert (Hfresh : atlasCache w !! key = None).
    { apply (I1 p key owner (Some made)). left. }
    assert (Hmono : forall a, cached w a ->
              exists k, <[key := made]> (atlasCache w) !! k = Some a).
    { intros a [k Hk]. exists k. rewrite lookup_insert_ne; [exact Hk|].
      intros <-. congruence. }
    assert (Hmade : <[key := made]> (atlasCache w) !! key = Some made)
      by apply lookup_insert_eq.
    split; unfold cached, bakedFor in *;
      cbn [settle setAtlas queue atlasCache bakes atlas promises].
    + intros p' k r' out H. apply elem_of_app in H as [H|H].
      * rewrite lookup_insert_ne; [now apply (I1' p' k r' out)|].
        intros <-. destruct (Hone key) as [Hle _]. unfold inFlight in Hle.
        rewrite Eq, countBakeJobs_cons in Hle. cbn [isBakeJob] in Hle.
        rewrite bool_decide_eq_true_2 in Hle by reflexivity.
        pose proof (bake_job_counted key _ rest H) as Hc.
        cbn [isBakeJob] in Hc.
        rewrite bool_decide_eq_true_2 in Hc by reflexivity.
        specialize (Hc eq_refl). lia.
      * apply elem_of_cons in H as [H|H]; [discriminate|].
        apply list_elem_of_fmap in H as (x & Hx & _). discriminate.
    + intros p' k r' a H. apply elem_of_app in H as [H|H];
        [now apply (I3' p' k r')|].
      apply elem_of_cons in H as [H|H]; [discriminate|].
      apply list_elem_of_fmap in H as (x & Hx & _). discriminate.
    + intros k a H. apply lookup_insert_Some in H as [[<- <-] | [_ H]].
      * apply (I3 p key owner). left.
      * now apply I4.
    + intros r' a H. apply lookup_insert_Some in H as [[_ <-] | [_ H]].
      * now exists key.
      * apply Hmono. now apply (Ia r').
    + intros r' a H. apply elem_of_app in H as [H|H].
      * apply Hmono. now apply (Ib' r').
      * apply elem_of_cons in H as [H|H]; [discriminate|].
        apply list_elem_of_fmap in H as (x & Hx & _).
        injection Hx as _ <-. now exists key.
    + intros p' pr' a H Hs.
      apply list_lookup_insert_Some in H as [(_ & <- & _) | [_ H]].
      * cbn in Hs. injection Hs as <-. now exists key.
      * apply Hmono. now apply (Ic p' pr').
  - split; unfold cached, bakedFor in *;
      cbn [settle queue atlasCache bakes atlas promises];
      try assumption.
    + intros p' k r' out H. apply elem_of_app in H as [H|H];
        [now apply (I1' p' k r' out)|].
      apply elem_of_cons in H as [H|H]; [discriminate|].
      apply list_elem_of_fmap in H as (x & Hx & _). discriminate.
    + intros p' k r' a H. apply elem_of_app in H as [H|H];
        [now apply (I3' p' k r')|].
      apply elem_of_cons in H as [H|H]; [discriminate|].
      apply list_elem_of_fmap in H as (x & Hx & _). discriminate.
    + intros r' a H. apply elem_of_app in H as [H|H];
        [now apply (Ib' r')|].
      apply elem_of_cons in H as [H|H]; [discriminate|].
      apply list_elem_of_fmap in H as (x & Hx & _). discriminate.
    + intros p' pr' a H Hs.
      apply list_lookup_insert_Some in H as [(_ & <- & _) | [_ H]].
      * discriminate.
      * now apply (Ic p' pr').
  - split; cbn [queue atlasCache bakes atlas promises]; assumption.
  - split; unfold cached, bakedFor in *;
      cbn [setAtlas queue atlasCache bakes atlas promises];
      try assumption.
    intros r' a H. apply lookup_insert_Some in H as [[_ <-] | [_ H]].
    + apply (Ib r). left.
    + now apply (Ia r').
  - split; cbn [queue atlasCache bakes atlas promises]; assumption.
Qed.

Lemma payloads_ok_run (events : list event) (w : world) :
  oneInFlight w -> payloads_ok w ->
  oneInFlight (run w events) /\ payloads_ok (run w events).
Proof.
  revert w. induction events as [|e events IH]; intros w Hone Inv;
    [now split|].
  cbn [run fold_left]. destruct e as [r key bakeOk|]; cbn [step].
  - apply IH; [now apply oneInFlight_effect | now apply payloads_ok_effect].
  - apply IH;
      [now apply oneInFlight_microtask | now apply payloads_ok_microtask].
Qed.

Lemma cache_kept_step (w : world) (e : event) (key : cacheKey)
    (a : payload) :
  payloads_ok w ->
  atlasCache w !! key = Some a -> atlasCache (step w e) !! key = Some a.
Proof.
  intros [I1 _ _ _ _ _] Hk. destruct e as [r k bakeOk|]; cbn [step].
  - unfold effect. destruct (atlasCache w !! k); [exact Hk|].
    destruct (pendingAtlasPromises w !! k) as [p|]; [|exact Hk].
    unfold attach. destruct (promises w !! p) as [pr|]; [|exact Hk].
    destruct (settled pr); exact Hk.
  - unfold microtask. destruct (queue w) as [|j rest] eqn:Eq; [exact Hk|].
    destruct j as [p k owner [made|] | k | r [cachedAtlas|]];
      cbn [runJob settle setAtlas atlasCache]; try exact Hk.
    rewrite lookup_insert_ne; [exact Hk|].
    intros <-. rewrite (I1 p k owner (Some made)) in Hk; [discriminate|].
    left.
Qed.

Lemma cache_kept_run (events : list event) (w : world) (key : cacheKey)
    (a : payload) :
  oneInFlight w -> payloads_ok w ->
  atlasCache w !! key = Some a ->
  atlasCache (run w events) !! key = Some a.
Proof.
  revert w. induction events as [|e events IH]; intros w Hone Inv Hk;
    [exact Hk|].
  cbn [run fold_left].
  destruct (payloads_ok_run [e] w Hone Inv) as [Hone' Inv'].
  apply IH; [exact Hone' | exact Inv' |].
  now apply cache_kept_step.
Qed.

(** X24: the atlas cache only grows.  In every run of effects and
    microtasks from the empty caches, whatever bakes fail, an atlas that is
    in the cache under a key stays there for the rest of the run: no later
    bake, request or callback replaces or removes it. *)
Theorem atlas_cache_stable (before after : list event) (key : cacheKey)
    (a : payload) :
  atlasCache (run init before) !! key = Some a ->
  atlasCache (run init (before ++ after)) !! key = Some a.
Proof.
  intros Hk. rewrite run_app.
  destruct (payloads_ok_run before init oneInFlight_init payloads_ok_init)
    as [Hone Inv].
  now apply cache_kept_run.
Qed.

Lemma atlas_cache_stable_witness :
  atlasCache (run init ([Effect 1 "tree|g8|a2048|o0" true; Microtask]
                        ++ [Effect 2 "tree|g8|a2048|o0" false; Microtask]))
    !! "tree|g8|a2048|o0" = Some 0.
Proof.
  apply (atlas_cache_stable
           [Effect 1 "tree|g8|a2048|o0" true; Microtask]
           [Effect 2 "tree|g8|a2048|o0" false; Microtask]).
  vm_compute. reflexivity.
Defined.

(** X25: one atlas per key, failed bakes or not.  In every run from the
    empty caches, an atlas that a requester holds is in the cache, under
    the key it was baked for; so two requesters that hold atlases baked for
    the same key hold the same payload, also when bakes of that key failed
    and were tried again. *)
Theorem atlas_payloads_agree (events : list event) (key : cacheKey)
    (r1 r2 : requester) (a1 a2 : payload) :
  let w := run init events in
  atlas w !! r1 = Some a1 -> atlas w !! r2 = Some a2 ->
  bakes w !! a1 = Some key -> bakes w !! a2 = Some key ->
  atlasCache w !! key = Some a1 /\ a1 = a2.
Proof.
  intros w H1 H2 B1 B2.
  destruct (payloads_ok_run events init oneInFlight_init payloads_ok_init)
    as [_ [_ _ I4 Ia _ _]]. fold w in I4, Ia.
  destruct (Ia r1 a1 H1) as [k1 C1]. destruct (Ia r2 a2 H2) as [k2 C2].
  pose proof (I4 k1 a1 C1) as L1. pose proof (I4 k2 a2 C2) as L2.
  unfold bakedFor in L1, L2.
  assert (k1 = key) by congruence. assert (k2 = key) by congruence.
  subst k1 k2. split; [exact C1 | congruence].
Qed.

Lemma atlas_payloads_agree_witness :
  atlasCache (run init [Effect 1 "tree|g8|a2048|o0" false;
                        Effect 2 "tree|g8|a2048|o0" true;
                        Microtask; Microtask; Microtask;
                        Effect 1 "tree|g8|a2048|o0" true;
                        Microtask;
                        Effect 2 "tree|g8|a2048|o0" true])
    !! "tree|g8|a2048|o0" = Some 1 /\ 1 = 1.
Proof.
  apply (atlas_payloads_agree
           [Effect 1 "tree|g8|a2048|o0" false;
            Effect 2 "tree|g8|a2048|o0" true;
            Microtask; Microtask; Microtask;
            Effect 1 "tree|g8|a2048|o0" true;
            Microtask;
            Effect 2 "tree|g8|a2048|o0" true]
           "tree|g8|a2048|o0" 1 2 1 1); vm_compute; reflexivity.
Defined.

End AtlasPayloadsFacts.

(** ** A bake that fails *)

Module AtlasFailureFacts.
Import AtlasRequests.

(** X26: a failed bake is forgotten and tried again.  From a world with no
    microtask queued, where the key is neither cached nor pending, a
    request whose bake fails followed by the two microtasks it queues (the
    rejection callback and the [finally] callback) leaves the key neither
    cached nor pending, the queue empty and every requester's atlas as it
    was; the next request for the key, by any requester, then bakes
    again. *)
Theorem failed_bake_is_retried (w : world) (key : cacheKey)
    (owner r : requester) (bakeOk : bool) :
  atlasCache w !! key = None ->
  pendingAtlasPromises w !! key = None ->
  queue w = [] ->
  let w' := run w [Effect owner key false; Microtask; Microtask] in
  atlasCache w' = atlasCache w /\
  pendingAtlasPromises w' !! key = None /\
  queue w' = [] /\
  atlas w' = atlas w /\
  bakes w' = bakes w ++ [key] /\
  bakes (effect r key bakeOk w') = bakes w ++ [key; key].
Proof.
  intros Hc Hp Hq w'.
  assert (Hw' : w' =
    {| atlasCache := atlasCache w;
       pendingAtlasPromises :=
         delete key (<[key := length (promises w)]>
                       (pendingAtlasPromises w));
       promises :=
         <[length (promises w) :=
             {| settled := Some None; waiters := [] |}]>
           (promises w ++ [{| settled := None; waiters := [] |}]);
       queue := [];
       atlas := atlas w;
       bakes := bakes w ++ [key] |}).
  { unfold w', run. cbn [fold_left step].
    unfold effect. rewrite Hc, Hp. unfold startBake. rewrite Hq.
    unfold microtask at 2. cbn [queue app runJob].
    unfold settle.
    cbn [promises queue atlasCache pendingAtlasPromises atlas bakes].
    pose proof (list_lookup_middle (promises w) []
                  {| settled := None; waiters := [] |}
                  (length (promises w)) eq_refl) as Hlast.
    rewrite Hlast. cbn [waiters map app].
    unfold microtask. cbn [queue runJob]. reflexivity. }
  rewrite Hw'. cbn [atlasCache pendingAtlasPromises queue atlas bakes].
  split; [reflexivity|]. split; [apply lookup_delete_eq|].
  split; [reflexivity|]. split; [reflexivity|]. split; [reflexivity|].
  unfold effect. cbn [atlasCache pendingAtlasPromises].
  rewrite Hc, lookup_delete_eq. cbn [startBake bakes].
  now rewrite <- app_assoc.
Qed.

Lemma failed_bake_is_retried_witness :
  bakes (effect 2 "tree|g8|a2048|o0" true
           (run init [Effect 1 "tree|g8|a2048|o0" false;
                      Microtask; Microtask]))
  = [] ++ ["tree|g8|a2048|o0"; "tree|g8|a2048|o0"].
Proof.
  apply (failed_bake_is_retried init "tree|g8|a2048|o0" 1 2 true);
    reflexivity.
Defined.

End AtlasFailureFacts.

(** ** The cameras of the bake *)

Section BakeCameras.
Local Open Scope R_scope.

Lemma camera_of_point (pt : vec3) :
  vlength pt = radius -> 0 <= vy pt ->
  vlength (multiplyScalar (normalize pt) cameraDistance) = cameraDistance /\
  0 <= vy (multiplyScalar (normalize pt) cameraDistance).
Proof.
  intros Hlen Hup. unfold normalize. rewrite Hlen.
  destruct (Req_dec_T radius 0) as [E|_]; [unfold radius in E; lra|].
  pose proof (vlength_sqr pt) as Hsq. rewrite Hlen in Hsq.
  unfold radius, cameraDistance in *.
  unfold vlength, multiplyScalar; cbn [vx vy vz]. split.
  - replace (vx pt * (1 / 0.5) * 1.1 * (vx pt * (1 / 0.5) * 1.1)
             + vy pt * (1 / 0.5) * 1.1 * (vy pt * (1 / 0.5) * 1.1)
             + vz pt * (1 / 0.5) * 1.1 * (vz pt * (1 / 0.5) * 1.1))
      with (1.1 * 1.1) by lra.
    apply sqrt_square. lra.
  - lra.
Qed.

(** X27: where the bake puts its camera.  For a mesh built with a grid
    size of at least one, every cell the bake renders is seen from a point
    at distance [cameraDistance = 1.1] from the origin that is not below
    the horizon; this holds for HEMI and for FULL, so no cell of a FULL
    atlas is rendered from below.  In exact arithmetic the distance is 1.1
    and the height zero or more; the statement leaves 1e-9 on both for the
    rounding of the doubles. *)
Theorem bake_cameras (octType gridSize : Z) (mesh : OctahedralMesh) :
  (1 <= gridSize)%Z ->
  buildOctahedralMesh octType gridSize = Returns mesh ->
  Forall (fun c =>
            Rabs (vlength (bake_cameraPosition c) - cameraDistance) <= 1e-9 /\
            -1e-9 <= vy (bake_cameraPosition c))
         (bakeCells gridSize (pntOct mesh)).
Proof.
  intros Hg Hbuild.
  assert (Hg0 : (0 <= gridSize)%Z) by lia.
  pose proof (length_built_pntOct _ _ _ Hg0 Hbuild) as Hlen.
  destruct (built_pntOct_norm _ _ _ Hbuild) as [Hnorm _].
  pose proof (built_pntOct_up _ _ _ Hg Hbuild) as Hup.
  rewrite List.Forall_forall in Hnorm, Hup.
  rewrite (bakeCells_inside _ _ Hg Hlen).
  apply List.Forall_forall. intros cell Hcell.
  apply in_map_iff in Hcell as ([r c] & <- & Hrc).
  apply in_gridPositions in Hrc as [Hr Hc].
  cbn [fst snd].
  assert (Hidx : (0 <= r * gridSize + c <= gridSize ^ 2 + gridSize)%Z)
    by nia.
  assert (Hin : (3 * Z.to_nat (r * gridSize + c) + 2
                 < length (pntOct mesh))%nat).
  { replace (3 * (gridSize + 1) ^ 2)%Z
      with (3 * (gridSize ^ 2 + gridSize) + 3 * gridSize + 3)%Z in Hlen
      by ring.
    generalize dependent (r * gridSize + c)%Z.
    generalize dependent (gridSize ^ 2 + gridSize)%Z. intros. lia. }
  pose proof (nth_error_points _ _ Hin) as Hpt.
  pose proof (bakedAt_viewDir (pntOct mesh) _ _ r c Hin Hpt) as Hdir.
  rewrite Z2Nat.id in Hdir by lia.
  apply nth_error_In in Hpt.
  cbn [bake_cameraPosition bakedAt].
  cbn [bake_viewDir bakedAt] in Hdir. rewrite Hdir.
  match goal with |- context [multiplyScalar (normalize ?pt) _] =>
    destruct (camera_of_point pt) as [Hd Hy];
      [now apply Hnorm | now apply Hup |]
  end.
  rewrite Hd. split; [|lra].
  replace (cameraDistance - cameraDistance) with 0 by ring.
  rewrite Rabs_R0. lra.
Qed.

Lemma bake_cameras_witness :
  Forall (fun c =>
            Rabs (vlength (bake_cameraPosition c) - cameraDistance) <= 1e-9 /\
            -1e-9 <= vy (bake_cameraPosition c))
         (bakeCells 2 (octFull (createGrid 2 2 1 1 true))).
Proof.
  apply (bake_cameras FULL 2
           (packMesh (createGrid 2 2 1 1 true)
                     (octFull (createGrid 2 2 1 1 true))
                     (octPlaneIndices FULL 2 2))).
  - lia.
  - reflexivity.
Defined.

End BakeCameras.

(** ** The key of an atlas *)

Module CacheKeyFacts.
Import CacheKey.

Lemma falsy_spec (s : string) : falsy s = true <-> s = "".
Proof. unfold falsy. apply String.eqb_eq. Qed.

Lemma buildAtlasCacheKey_marked (mesh : Object3D)
    (gridSize atlasSize octType : Z) (uuid : string) :
  impostorSourceId mesh <> "" ->
  buildAtlasCacheKey (Some mesh) gridSize atlasSize octType uuid
  = (Some (keyOf (impostorSourceId mesh) gridSize atlasSize octType),
     Some mesh).
Proof.
  intros Hid. unfold buildAtlasCacheKey.
  destruct (falsy (impostorSourceId mesh)) eqn:E; [|reflexivity].
  apply falsy_spec in E. contradiction.
Qed.



(** X29: the trees of one model share a key.  For a model path that is not
    empty and a scene with at least one mesh, the group a tree makes for
    itself and the group a field hands to each of its trees both give, for
    the same sizes and type, the key
    [modelPath|g<gridSize>|a<atlasSize>|o<octType>], whatever identifier
    [generateUUID] would offer: all of them ask the atlas cache for the
    same entry. *)
Theorem trees_share_key (modelPath : string) (meshCount fieldMeshCount : nat)
    (gridSize atlasSize octType : Z) (uuid uuid' : string) :
  modelPath <> "" -> meshCount <> 0%nat -> fieldMeshCount <> 0%nat ->
  let alone := meshGroup None meshCount modelPath in
  let inField :=
    meshGroup (sharedMeshGroup fieldMeshCount modelPath)
              meshCount modelPath in
  fst (buildAtlasCacheKey alone gridSize atlasSize octType uuid)
  = Some (keyOf modelPath gridSize atlasSize octType) /\
  fst (buildAtlasCacheKey inField gridSize atlasSize octType uuid')
  = Some (keyOf modelPath gridSize atlasSize octType).
Proof.
  intros Hpath Hn Hf alone inField.
  assert (Hfalsy : falsy modelPath = false).
  { destruct (falsy modelPath) eqn:E; [|reflexivity].
    apply falsy_spec in E. contradiction. }
  unfold alone, inField, meshGroup, sharedMeshGroup.
  destruct (Nat.eqb_spec meshCount 0); [contradiction|].
  destruct (Nat.eqb_spec fieldMeshCount 0); [contradiction|].
  cbn [impostorSourceId]. rewrite Hfalsy.
  split; rewrite buildAtlasCacheKey_marked by exact Hpath; reflexivity.
Qed.

Lemma trees_share_key_witness :
  fst (buildAtlasCacheKey (meshGroup None 1 "/tree.glb") 16 2048 0 "0f8b")
  = Some (keyOf "/tree.glb" 16 2048 0).
Proof.
  apply (trees_share_key "/tree.glb" 1 1 16 2048 0 "0f8b" "77aa");
    discriminate.
Defined.

End CacheKeyFacts.
